(** * Backup, restore and remount coordination of the debit manager app

    A shallow embedding of [utils/backupV2.ts] (path resolver, snapshot
    engine, sink chain, backup metadata), of the restore handler and the
    lists of the backups screen, of the file name migration of the root
    layout and of the remount helper and the schema migration of
    [database/db.native.ts], together with the properties the
    specification states about them and further properties of the code.

    The file system is a finite map from URIs to nodes; every asynchronous
    call of the program is a computation in a state-and-exception monad
    whose state holds the file system and a chronological trace of the
    effects performed so far. *)

From Stdlib Require Import String Ascii List ZArith Lia Bool DecimalString.
From Stdlib Require Import Permutation.
From Stdlib Require PrimFloat.
From Stdlib.Strings Require Byte.
From stdpp Require Import gmap strings list fin_maps.

Local Open Scope Z_scope.
Local Open Scope stdpp_scope.
Local Arguments String.append !_ _ / : simpl nomatch.

(* ===================================================================== *)
(** ** JavaScript strings *)
(* ===================================================================== *)

Module Js.

(** [s.startsWith(pre)] *)
Fixpoint startsWith (s pre : string) : bool :=
  match pre, s with
  | EmptyString, _ => true
  | String c pre', String d s' => Ascii.eqb c d && startsWith s' pre'
  | String _ _, EmptyString => false
  end.

(** [s.endsWith(suf)]: some tail of [s] is [suf]. *)
Fixpoint endsWith (s suf : string) : bool :=
  String.eqb s suf ||
  match s with
  | EmptyString => false
  | String _ s' => endsWith s' suf
  end.

(** The part of [s] after the prefix [pre], when [s] starts with it. *)
Fixpoint stripPrefix (pre s : string) : option string :=
  match pre, s with
  | EmptyString, _ => Some s
  | String c pre', String d s' =>
      if Ascii.eqb c d then stripPrefix pre' s' else None
  | String _ _, EmptyString => None
  end.

(** [s.includes(c)] for a single character. *)
Fixpoint includesChar (c : ascii) (s : string) : bool :=
  match s with
  | EmptyString => false
  | String d s' => Ascii.eqb c d || includesChar c s'
  end.

(** Truthiness of a string value: only the empty string is falsy. *)
Definition truthy (s : string) : bool :=
  match s with EmptyString => false | String _ _ => true end.

(** [String(n)] for an integral number. *)
Definition String_of_number (n : Z) : string :=
  NilZero.string_of_int (Z.to_int n).

Fixpoint repeatChar (c : ascii) (n : nat) : string :=
  match n with O => EmptyString | S k => String c (repeatChar c k) end.

(** [s.padStart(len, fill)] for a one-character [fill]. *)
Definition padStart (s : string) (len : nat) (fill : ascii) : string :=
  repeatChar fill (len - String.length s) +:+ s.

(** [s.split('/').pop()]: the part of [s] after its last slash. *)
Fixpoint lastSegmentFrom (acc s : string) : string :=
  match s with
  | EmptyString => acc
  | String c s' =>
      if Ascii.eqb c "/" then lastSegmentFrom EmptyString s'
      else lastSegmentFrom (acc +:+ String c EmptyString) s'
  end.
Definition lastSegment (s : string) : string := lastSegmentFrom EmptyString s.

End Js.

(* ===================================================================== *)
(** ** Dates and the timestamp of backup file names *)
(* ===================================================================== *)

(** What the program reads from a JavaScript [Date]. *)
Record JsDate : Type := mkDate {
  getFullYear : Z;
  getMonth : Z;            (* 0 .. 11 *)
  getDate : Z;
  getHours : Z;
  getMinutes : Z;
  getSeconds : Z;
  getTimezoneOffset : Z;   (* minutes west of UTC *)
  toISOString : string
}.

(** [const pad = (n) => String(n).padStart(2, '0')] *)
Definition pad (n : Z) : string := Js.padStart (Js.String_of_number n) 2 "0".

(** The value [timestamp()] returns when [new Date()] is [d]. *)
Definition localStamp (d : JsDate) : string :=
  let year := getFullYear d in
  let month := pad (getMonth d + 1) in
  let day := pad (getDate d) in
  let hours := pad (getHours d) in
  let minutes := pad (getMinutes d) in
  let seconds := pad (getSeconds d) in
  let tzOffsetMinutes := - getTimezoneOffset d in
  let tzSign := if 0 <=? tzOffsetMinutes then "+" else "-" in
  let tzHours := pad (Z.abs tzOffsetMinutes / 60) in
  let tzMins := pad (Z.rem (Z.abs tzOffsetMinutes) 60) in
  Js.String_of_number year +:+ "-" +:+ month +:+ "-" +:+ day +:+ "T" +:+
  hours +:+ "-" +:+ minutes +:+ "-" +:+ seconds +:+ tzSign +:+ tzHours +:+ tzMins.

(** The format the specification gives, [YYYY-MM-DDTHH-mm-ss±HHMM], written
    out digit by digit. *)
Definition digit (n : Z) : ascii := ascii_of_nat (48 + Z.to_nat (n mod 10)).
Definition twoDigits (n : Z) : string :=
  String (digit (n / 10)) (String (digit n) EmptyString).
Definition fourDigits (n : Z) : string :=
  String (digit (n / 1000)) (String (digit (n / 100)) (twoDigits n)).

Definition specStamp (d : JsDate) : string :=
  let east := - getTimezoneOffset d in
  fourDigits (getFullYear d) +:+ "-" +:+ twoDigits (getMonth d + 1) +:+ "-" +:+
  twoDigits (getDate d) +:+ "T" +:+ twoDigits (getHours d) +:+ "-" +:+
  twoDigits (getMinutes d) +:+ "-" +:+ twoDigits (getSeconds d) +:+
  (if 0 <=? east then "+" else "-") +:+
  twoDigits (Z.abs east / 60) +:+ twoDigits (Z.abs east mod 60).

Definition isDigit (c : ascii) : bool :=
  (48 <=? nat_of_ascii c)%nat && (nat_of_ascii c <=? 57)%nat.
Definition isSign (c : ascii) : bool := Ascii.eqb c "+" || Ascii.eqb c "-".

(** One position of a pattern: a digit, a sign, or a literal character. *)
Inductive patternItem : Type := PDigit | PSign | PLit (c : ascii).

Fixpoint matchesPattern (p : list patternItem) (s : string) : bool :=
  match p, s with
  | [], EmptyString => true
  | PDigit :: p', String c s' => isDigit c && matchesPattern p' s'
  | PSign :: p', String c s' => isSign c && matchesPattern p' s'
  | PLit l :: p', String c s' => Ascii.eqb l c && matchesPattern p' s'
  | _, _ => false
  end.

(** [YYYY-MM-DDTHH-mm-ss±HHMM] *)
Definition stampPattern : list patternItem :=
  [PDigit; PDigit; PDigit; PDigit; PLit "-"; PDigit; PDigit; PLit "-";
   PDigit; PDigit; PLit "T"; PDigit; PDigit; PLit "-"; PDigit; PDigit;
   PLit "-"; PDigit; PDigit; PSign; PDigit; PDigit; PDigit; PDigit].

(** A local wall-clock time with a four-digit year and an offset below one
    hundred hours. *)
Definition wallClock (d : JsDate) : Prop :=
  1000 <= getFullYear d <= 9999 /\ 0 <= getMonth d <= 11 /\
  1 <= getDate d <= 31 /\ 0 <= getHours d <= 23 /\
  0 <= getMinutes d <= 59 /\ 0 <= getSeconds d <= 59 /\
  -6000 < getTimezoneOffset d < 6000.

(* ===================================================================== *)
(** ** File system, effects and the monad of asynchronous calls *)
(* ===================================================================== *)

(** A node of the file system, keyed by the URI the program spells.
    Directories are opaque: the program only ever probes whether a path
    exists and whether it is a directory, and a copy or a move carries the
    node at its source to its destination in one step. *)
Inductive node : Type :=
| File (content : list Byte.byte)
| Dir.

(** Primitive calls of [expo-file-system]. *)
Inductive Op : Type :=
| OInfo (uri : string)
| OCopy (from to : string)
| OMove (from to : string)
| ODelete (uri : string)
| OList (dir : string)
| OMkdir (dir : string)
| ORead (uri : string)
| OWrite (uri : string).

(** Calls that leave the file-system module. *)
Inductive Ext : Type :=
| XCloseHandles        (* closeDatabaseHandlesForBackup() *)
| XExec                (* db.execAsync(pragma) *)
| XClose               (* db.closeAsync() *)
| XIsSignedIn          (* isSignedInToGoogleDrive() *)
| XDriveRestore        (* restoreLatestBackupFromGoogleDrive(path) *)
| XPicker              (* DocumentPicker.getDocumentAsync(..) *)
| XReload              (* reloadApp() *)
| XAccessToken         (* getAccessToken() *)
| XBackupFolder        (* getOrCreateBackupFolder(token) *)
| XDriveUpload         (* uploadFileToGoogleDrive(..) *)
| XFetch               (* fetch(uploadUrl, PUT) *)
| XShareAvailable      (* Sharing.isAvailableAsync() *)
| XShare.              (* Sharing.shareAsync(uri, ..) *)

Inductive exn : Type :=
| JsError (message : string)
| IoFailure (op : Op)
| ExtFailure (call : Ext).

(** Body of an alert dialog. *)
Inductive alertBody : Type :=
| Text (s : string)
| MessageOf (e : exn)            (* e?.message ?? 'Unknown error' *)
| RollbackFailedWith (e : exn).  (* `Restore failed and rollback also failed: ${String(error_)}` *)

(** The three upload sinks of [backupNow]. *)
Inductive sink : Type := CloudDrive | GenericHttp | ShareSheet.

(** What the program does to the world, in the order it does it: a
    primitive call and whether it returned, a call to the outside and
    whether it returned, the start of an upload or share attempt,
    [setIsRestoring(b)], and [Alert.alert(title, body)]. *)
Inductive event : Type :=
| EvIO (op : Op) (ok : bool)
| EvExt (call : Ext) (ok : bool)
| EvSink (s : sink)
| EvSetIsRestoring (b : bool)
| EvAlert (title : string) (body : alertBody).

Global Instance byte_eq_dec : EqDecision Byte.byte := Byte.byte_eq_dec.
Global Instance node_eq_dec : EqDecision node.
Proof. solve_decision. Defined.
Global Instance Op_eq_dec : EqDecision Op.
Proof. solve_decision. Defined.
Global Instance Ext_eq_dec : EqDecision Ext.
Proof. solve_decision. Defined.
Global Instance exn_eq_dec : EqDecision exn.
Proof. solve_decision. Defined.
Global Instance sink_eq_dec : EqDecision sink.
Proof. solve_decision. Defined.
Global Instance alertBody_eq_dec : EqDecision alertBody.
Proof. solve_decision. Defined.
Global Instance event_eq_dec : EqDecision event.
Proof. solve_decision. Defined.

Record World : Type := mkWorld {
  fs : gmap string node;
  trace : list event
}.

(** The number of effects performed so far; it indexes the fault oracle,
    the clock and the answers of the outside world. *)
Definition tick (w : World) : nat := length (trace w).

Definition log (e : event) (w : World) : World :=
  mkWorld (fs w) (trace w ++ [e]).

Definition setFs (m : gmap string node) (w : World) : World :=
  mkWorld m (trace w).

Inductive Res (A : Type) : Type :=
| Ok (a : A)
| Throw (e : exn).
Arguments Ok {A} a.
Arguments Throw {A} e.

Definition M (A : Type) : Type := World -> Res A * World.

Definition ret {A} (a : A) : M A := fun w => (Ok a, w).
Definition throw {A} (e : exn) : M A := fun w => (Throw e, w).
Definition bind {A B} (m : M A) (k : A -> M B) : M B :=
  fun w => match m w with
           | (Ok a, w') => k a w'
           | (Throw e, w') => (Throw e, w')
           end.
(** [try { m } catch (e) { .. }]: the outcome of [m] as a value. *)
Definition try_ {A} (m : M A) : M (Res A) :=
  fun w => let '(r, w') := m w in (Ok r, w').
(** [try { m } catch {}] *)
Definition ignoreErrors {A} (m : M A) : M unit :=
  fun w => (Ok tt, snd (m w)).
Definition emit (e : event) : M unit := fun w => (Ok tt, log e w).

Notation "x <- m ;; k" := (bind m (fun x => k))
  (at level 100, m at next level, right associativity).
Notation "m ;;; k" := (bind m (fun _ => k))
  (at level 100, right associativity).

Record FileInfo : Type := mkInfo { exists_ : bool; isDirectory : bool }.

Definition infoOf (o : option node) : FileInfo :=
  match o with
  | Some (File _) => mkInfo true false
  | Some Dir => mkInfo true true
  | None => mkInfo false false
  end.

(** [info.exists && !info.isDirectory] *)
Definition isRegular (i : FileInfo) : bool := exists_ i && negb (isDirectory i).

(** Names of the entries directly inside [dir] (a URI with its trailing
    slash), in the order of the map's enumeration. *)
Definition childName (dir : string) (p : string) : option string :=
  match Js.stripPrefix dir p with
  | Some name =>
      if Js.truthy name && negb (Js.includesChar "/" name) then Some name else None
  | None => None
  end.

Definition children (m : gmap string node) (dir : string) : list string :=
  omap (fun kv => childName dir (fst kv)) (map_to_list m).

(** A call into the database engine, the UI runtime or a remote service:
    by the time of the call it may change the files and returns or throws. *)
Definition Outside (A : Type) : Type :=
  nat -> gmap string node -> Res A * gmap string node.

Definition ext {A} (call : Ext) (f : Outside A) : M A :=
  fun w =>
    let '(r, m') := f (tick w) (fs w) in
    (r, log (EvExt call (if r is Ok _ then true else false)) (setFs m' w)).

(** What the document picker hands back: [result.assets[0].uri], when
    there is one, and [result.canceled]. *)
Record PickerResult : Type := mkPicked { assetUri : option string; canceled : bool }.

(** The answer to [fetch]: [response.ok] and [response.status]. *)
Record Response : Type := mkResponse { ok : bool; status : Z }.

(** The result of [backupNow]. *)
Record BackupNowResult : Type := mkBackupNow {
  uri : string;
  uploaded : bool;
  shared : bool;
  googleDrive : bool
}.

(* ===================================================================== *)
(** ** Provider remount helper ([database/db.native.ts]) *)
(* ===================================================================== *)

Module NativeDb.

(** A handle returned by [openDatabaseAsync]: its optional methods and
    whether each returns or throws. *)
Record Handle : Type := mkHandle {
  execAsync : option (Res unit);
  closeAsync : option (Res unit)
}.

(** What the remount helper does, in order. *)
Inductive nevent : Type :=
| Debounced
| Opened (name : string)
| OpenFailed (name : string)
| Checkpointed (name : string) (ok : bool)
| Closed (name : string) (ok : bool)
| CallbackInvoked (ok : bool)
| NoCallback.

Global Instance nevent_eq_dec : EqDecision nevent.
Proof. solve_decision. Defined.

Section Remount.

(** State of the React side that the registered callback acts on. *)
Variable UI : Type.

(** [require('expo-sqlite')] and its
    [openDatabaseAsync ?? openDatabase], when that is a function. *)
Variable requireExpoSqlite : Res (option (string -> Res (option Handle))).

Definition Callback : Type := UI -> Res unit * UI.

(** The module-level variables, the React state and the history of the
    helper's steps. *)
Record State : Type := mkState {
  providerRemountCallbackNative : option Callback;
  lastNativeRefresh : Z;
  ui : UI;
  history : list nevent
}.

Definition initialState (u : UI) : State := mkState None 0 u [].

Definition registerSQLiteProviderRemount (cb : Callback) (st : State) : State :=
  mkState (Some cb) (lastNativeRefresh st) (ui st) (history st).

Definition note (e : nevent) (st : State) : State :=
  mkState (providerRemountCallbackNative st) (lastNativeRefresh st) (ui st)
          (history st ++ [e]).

(** Run the registered callback once. *)
Definition invoke (cb : Callback) (st : State) : Res unit * State :=
  let '(r, u) := cb (ui st) in
  (r, mkState (providerRemountCallbackNative st) (lastNativeRefresh st) u
        (history st ++ [CallbackInvoked (if r is Ok _ then true else false)])).

(** The loop over [candidates]: open, checkpoint, close; every failure is
    caught and the loop goes on. *)
Fixpoint releaseCandidates (openAsync : string -> Res (option Handle))
    (candidates : list string) (st : State) : State :=
  match candidates with
  | [] => st
  | name :: rest =>
      match openAsync name with
      | Ok (Some dbHandle) =>
          let st1 :=
            match execAsync dbHandle with
            | Some r => note (Checkpointed name (if r is Ok _ then true else false)) st
            | None => st
            end in
          let st2 :=
            match closeAsync dbHandle with
            | Some r => note (Closed name (if r is Ok _ then true else false)) st1
            | None => st1
            end in
          releaseCandidates openAsync rest (note (Opened name) st2)
      | Ok None => releaseCandidates openAsync rest st
      | Throw _ => releaseCandidates openAsync rest (note (OpenFailed name) st)
      end
  end.

(** The body of the [try] block. *)
Definition checkpointAndRemount (st : State) : Res unit * State :=
  match requireExpoSqlite with
  | Throw e => (Throw e, st)
  | Ok openAsync =>
      let st1 :=
        match openAsync with
        | Some f => releaseCandidates f ["debitmanager.db"; "debitmanager"] st
        | None => st
        end in
      match providerRemountCallbackNative st1 with
      | Some cb => invoke cb st1
      | None => (Ok tt, note NoCallback st1)
      end
  end.

(** [refreshSQLiteProvider()] when [Date.now()] is [now]. *)
Definition refreshSQLiteProvider (now : Z) (st : State) : bool * State :=
  if now - lastNativeRefresh st <? 1000 then (false, note Debounced st)
  else
    let st0 := mkState (providerRemountCallbackNative st) now (ui st) (history st) in
    match checkpointAndRemount st0 with
    | (Ok _, st1) => (true, st1)
    | (Throw _, st1) =>
        match providerRemountCallbackNative st1 with
        | Some cb => (false, snd (invoke cb st1))
        | None => (false, st1)
        end
    end.

(** How often the registered callback has been run. *)
Definition invocations (st : State) : nat :=
  length (List.filter (fun e => if e is CallbackInvoked _ then true else false)
                      (history st)).

(** A series of calls of [refreshSQLiteProvider], one at each of the times
    [nows]. *)
Fixpoint refreshAll (nows : list Z) (st : State) : State :=
  match nows with
  | [] => st
  | now :: rest => refreshAll rest (snd (refreshSQLiteProvider now st))
  end.

End Remount.

(** The callback the root layout registers: [refreshDb] bumps the provider
    key. *)
Definition layoutCallback : Callback nat := fun dbKey => (Ok tt, S dbKey).

End NativeDb.

(* ===================================================================== *)
(** ** Pure helpers of the backups screen *)
(* ===================================================================== *)

Module Screen.

(** [formatRelativeTime(date)] (lines 196-206 of [backups.tsx]) when
    [new Date().getTime()] is [now], [date.getTime()] is [time] and
    [date.toLocaleDateString()] is [localeDate]. *)
Definition formatRelativeTime (now time : Z) (localeDate : string) : string :=
  let diffMs := now - time in
  if diffMs <? 0 then "just now"
  else
    let seconds := diffMs / 1000 in
    if seconds <? 60 then "just now"
    else if seconds <? 3600 then Js.String_of_number (seconds / 60) +:+ " min ago"
    else if seconds <? 86400 then Js.String_of_number (seconds / 3600) +:+ " hours ago"
    else if seconds <? 2592000 then Js.String_of_number (seconds / 86400) +:+ " days ago"
    else localeDate.

Import PrimFloat.

(** A JavaScript number is an IEEE 754 double, as a primitive float is. *)
Definition number : Type := PrimFloat.float.

(** Truthiness of a number: [0], [-0] and [NaN] are falsy. *)
Definition truthyNumber (x : number) : bool :=
  negb (PrimFloat.is_zero x || PrimFloat.is_nan x).

(** [Array.prototype.sort(compareFn)] on a copy of the array.  The sort is
    stable, and an element goes after a later one only when [compareFn]
    gives a number above zero for the two (a [NaN] counts as zero): it
    goes before the first of the later elements for which it does not. *)
Fixpoint insertInto {A} (compareFn : A -> A -> number) (a : A) (sorted : list A) : list A :=
  match sorted with
  | [] => [a]
  | b :: rest =>
      if PrimFloat.ltb PrimFloat.zero (compareFn a b)
      then b :: insertInto compareFn a rest
      else a :: sorted
  end.

Definition sort {A} (compareFn : A -> A -> number) (l : list A) : list A :=
  foldr (insertInto compareFn) [] l.

(** An entry of [localBackups]: [{ name, ...info }]; the modification time
    is in seconds and missing when the probe did not report it. *)
Record LocalBackup : Type := mkLocalBackup {
  name : string;
  modificationTime : option number
}.

(** [a?.modificationTime ? (a.modificationTime * 1000) : 0] *)
Definition millis (a : LocalBackup) : number :=
  match modificationTime a with
  | Some t =>
      if truthyNumber t then PrimFloat.mul t 1000%float
      else PrimFloat.zero
  | None => PrimFloat.zero
  end.

(** The comparator of lines 393-397, [tb - ta]. *)
Definition newerFirst (a b : LocalBackup) : number :=
  let ta := millis a in
  let tb := millis b in
  PrimFloat.sub tb ta.

(** Lines 393-397. *)
Definition sortedLocalBackups (localBackups : list LocalBackup) : list LocalBackup :=
  sort newerFirst localBackups.

(** The cards shown, [sortedLocalBackups.slice(0, 3)], and the number on
    the button below them, [sortedLocalBackups.length - 3], shown when
    [sortedLocalBackups.length > 3]. *)
Definition shownLocalBackups (localBackups : list LocalBackup) : list LocalBackup :=
  take 3 (sortedLocalBackups localBackups).

Definition olderLocalBackups (localBackups : list LocalBackup) : option Z :=
  let n := Z.of_nat (length (sortedLocalBackups localBackups)) in
  if 3 <? n then Some (n - 3) else None.

End Screen.

(* ===================================================================== *)
(** ** Schema migration of [database/db.native.ts] *)
(* ===================================================================== *)

Module Schema.

(** The statements of the migration scripts. *)
Inductive statement : Type :=
| PragmaJournalModeWal
| PragmaForeignKeysOn
| CreateTable (table : string)
| CreateIndexIfNotExists (index table : string)
| PragmaUserVersion (version : Z).

(** What the engine keeps of a database, as far as these statements go. *)
Record Database : Type := mkDatabase {
  user_version : Z;
  tables : list string;
  indexes : list string;
  journal_mode_wal : bool;
  foreign_keys : bool
}.

(** The engine compares the names of tables and indexes without regard to
    the case of the letters A to Z. *)
Definition foldCase (c : ascii) : ascii :=
  let n := nat_of_ascii c in
  if (65 <=? n)%nat && (n <=? 90)%nat then ascii_of_nat (n + 32) else c.

Fixpoint foldName (s : string) : string :=
  match s with
  | EmptyString => EmptyString
  | String c s' => String (foldCase c) (foldName s')
  end.

Definition sameName (a b : string) : bool := String.eqb (foldName a) (foldName b).

Definition hasTable (name : string) (db : Database) : bool :=
  existsb (sameName name) (tables db).

Definition hasIndex (name : string) (db : Database) : bool :=
  existsb (sameName name) (indexes db).

(** One statement run by the engine.  Tables and indexes share their
    names: [CREATE TABLE] fails when a table or an index has the name;
    [CREATE INDEX IF NOT EXISTS] fails when the table is missing or a table
    has the name of the index, and does nothing when an index has it. *)
Definition run (s : statement) (db : Database) : Res Database :=
  match s with
  | PragmaJournalModeWal =>
      Ok (mkDatabase (user_version db) (tables db) (indexes db) true (foreign_keys db))
  | PragmaForeignKeysOn =>
      Ok (mkDatabase (user_version db) (tables db) (indexes db) (journal_mode_wal db) true)
  | CreateTable t =>
      if hasTable t db
      then Throw (JsError ("table " +:+ t +:+ " already exists"))
      else if hasIndex t db
      then Throw (JsError ("there is already an index named " +:+ t))
      else Ok (mkDatabase (user_version db) (tables db ++ [t]) (indexes db)
                 (journal_mode_wal db) (foreign_keys db))
  | CreateIndexIfNotExists i t =>
      if negb (hasTable t db)
      then Throw (JsError ("no such table: main." +:+ t))
      else if hasTable i db
      then Throw (JsError ("there is already a table named " +:+ i))
      else if hasIndex i db then Ok db
      else Ok (mkDatabase (user_version db) (tables db) (indexes db ++ [i])
                 (journal_mode_wal db) (foreign_keys db))
  | PragmaUserVersion v =>
      Ok (mkDatabase v (tables db) (indexes db) (journal_mode_wal db) (foreign_keys db))
  end.

(** No table and no index of [db] has the name, in any case of its
    letters. *)
Definition unused (name : string) (db : Database) : Prop :=
  hasTable name db = false /\ hasIndex name db = false.

(** [db.execAsync(source)]: the statements run in order, outside any
    transaction; the first failure ends the call and what ran before it
    stays. *)
Fixpoint execAsync (source : list statement) (db : Database) : Res unit * Database :=
  match source with
  | [] => (Ok tt, db)
  | s :: rest =>
      match run s db with
      | Ok db' => execAsync rest db'
      | Throw e => (Throw e, db)
      end
  end.

(** [db.getFirstAsync('PRAGMA user_version')]: the row, or [null]. *)
Definition getFirstAsync (db : Database) : option Z := Some (user_version db).

Definition DATABASE_VERSION : Z := 2.

(** Lines 239-255. *)
Definition v1Schema : list statement :=
  [PragmaJournalModeWal; PragmaForeignKeysOn;
   CreateTable "debtors"; CreateTable "phone_numbers";
   CreateIndexIfNotExists "idx_debtor_id" "phone_numbers"].

(** Lines 261-274. *)
Definition v2Schema : list statement :=
  [CreateTable "transactions";
   CreateIndexIfNotExists "idx_transactions_debtor_id" "transactions"].

(** [migrateDbIfNeeded(db)], lines 229-280. *)
Definition migrateDbIfNeeded (db : Database) : Res unit * Database :=
  let result := getFirstAsync db in
  let currentDbVersion := match result with Some v => v | None => 0 end in
  if DATABASE_VERSION <=? currentDbVersion then (Ok tt, db)
  else
    let '(r1, db1, currentDbVersion) :=
      if currentDbVersion =? 0
      then let '(r, d) := execAsync v1Schema db in (r, d, 1)
      else (Ok tt, db, currentDbVersion) in
    match r1 with
    | Throw e => (Throw e, db1)
    | Ok _ =>
        let '(r2, db2) :=
          if currentDbVersion =? 1 then execAsync v2Schema db1 else (Ok tt, db1) in
        match r2 with
        | Throw e => (Throw e, db2)
        | Ok _ => execAsync [PragmaUserVersion DATABASE_VERSION] db2
        end
    end.

End Schema.

(* ===================================================================== *)
(** ** A small device, for the examples *)
(* ===================================================================== *)

Module Demo.

Definition doc : string := "file:///data/".
Definition canonical : string := "file:///data/SQLite/debitmanager.db".
Definition bare : string := "file:///data/SQLite/debitmanager".
Definition never : nat -> Op -> bool := fun _ _ => false.
Definition movesFail : nat -> Op -> bool :=
  fun _ op => match op with OMove _ _ => true | _ => false end.
Definition asListed (l : list string) : list string := l.
Definition clock (n : nat) : JsDate :=
  mkDate 2024 2 2 14 5 9 (-330) "2024-03-02T08:35:09.000Z".
Definition live : list Byte.byte := [Byte.x53; Byte.x51; Byte.x4c].
Definition stale : list Byte.byte := [Byte.x00].

Definition emptyDir : World := mkWorld {[ "file:///data/SQLite/" := Dir ]} [].
Definition bothFiles : World :=
  mkWorld (<[canonical := File live]> (<[bare := File stale]> (fs emptyDir))) [].
Definition onlyCanonical : World :=
  mkWorld (<[canonical := File live]> (fs emptyDir)) [].
Definition oddName : World :=
  mkWorld (<["file:///data/SQLite/debitmanager.sqlite" := File live]> (fs emptyDir)) [].
Definition withSidecars : World :=
  mkWorld (<["file:///data/SQLite/debitmanager.db-wal" := File stale]>
             (<["file:///data/SQLite/debitmanager.db-shm" := File stale]>
                (fs onlyCanonical))) [].
(** The copy of the SHM file always fails. *)
Definition shmCopyFails : nat -> Op -> bool :=
  fun _ op =>
    match op with
    | OCopy from _ => String.eqb from "file:///data/SQLite/debitmanager.db-shm"
    | _ => false
    end.
Definition artifact : string :=
  "file:///data/backups/debitmanager-2024-03-02T14-05-09+0530.db".

Definition answer {A} (a : A) : Outside A := fun _ m => (Ok a, m).
Definition picked : PickerResult := mkPicked (Some "file:///cache/picked.db") false.
Definition started : NativeDb.State nat :=
  NativeDb.registerSQLiteProviderRemount nat NativeDb.layoutCallback
    (NativeDb.initialState nat 0%nat).

(** A device from before the canonical name: the bare file and its WAL. *)
Definition onlyBare : World :=
  mkWorld (<[bare := File live]>
             (<["file:///data/SQLite/debitmanager-wal" := File stale]> (fs emptyDir))) [].
Definition pickedUri : string := "file:///cache/picked.db".
Definition inbound : list Byte.byte := [Byte.x53; Byte.x51; Byte.x4c; Byte.x32].
(** Both database files, and a file the user picked. *)
Definition withPicked : World :=
  mkWorld (<[pickedUri := File inbound]> (fs bothFiles)) [].
(** A stand-in for the decoding of the metadata file: it reads the date of
    [clock 0] from anything that opens as an object and rejects the
    rest. *)
Definition decode (content : list Byte.byte) : Res (option JsDate) :=
  match content with
  | Byte.x7b :: _ => Ok (Some (clock 0))
  | _ => Throw (JsError "Unexpected token")
  end.
Definition throwingCallback : NativeDb.Callback nat :=
  fun dbKey => (Throw (JsError "unmounted"), dbKey).
Definition startedThrowing : NativeDb.State nat :=
  NativeDb.registerSQLiteProviderRemount nat throwingCallback
    (NativeDb.initialState nat 0%nat).
(** A callback that bumps the key of the provider and then throws. *)
Definition bumpThenThrow : NativeDb.Callback nat :=
  fun dbKey => (Throw (JsError "unmounted"), S dbKey).
Definition startedBumping : NativeDb.State nat :=
  NativeDb.registerSQLiteProviderRemount nat bumpThenThrow
    (NativeDb.initialState nat 0%nat).
(** Only the bare database opens, and its checkpoint fails. *)
Definition openBare (name : string) : Res (option NativeDb.Handle) :=
  if String.eqb name "debitmanager"
  then Ok (Some (NativeDb.mkHandle (Some (Throw (JsError "database is locked")))
                   (Some (Ok tt))))
  else Throw (JsError "cannot open").
Definition fresh : Schema.Database := Schema.mkDatabase 0 [] [] false false.
Definition halfway : Schema.Database := snd (Schema.execAsync Schema.v1Schema fresh).


(** The copy of the bare file to its [.db] sibling always fails. *)
Definition siblingCopyFails : nat -> Op -> bool :=
  fun _ op =>
    match op with
    | OCopy from to => String.eqb from bare && String.eqb to canonical
    | _ => false
    end.

End Demo.

Section Program.

(** The application's document directory,
    [FileSystem.documentDirectory ?? FileSystem.cacheDirectory ?? ''] *)
Variable DOC_DIR : string.

(** Which primitive calls fail for reasons outside the model (permissions,
    cross-device moves, a full disk), by the time of the call. *)
Variable fault : nat -> Op -> bool.

(** The order in which the platform enumerates a directory. *)
Variable listingOrder : list string -> list string.

Definition SQLITE_DIR : string := DOC_DIR +:+ "SQLite/".
Definition BACKUP_DIR : string := DOC_DIR +:+ "backups/".
Definition META_FILE : string := DOC_DIR +:+ "backup_meta.json".
Definition DB_CANDIDATES : list string := ["debitmanager.db"; "debitmanager"].

(** A primitive call: it fails when the oracle says so or when the file
    system refuses it, and is recorded in the trace either way. *)
Definition io {A} (op : Op)
    (run : gmap string node -> option (A * gmap string node)) : M A :=
  fun w =>
    if fault (tick w) op then (Throw (IoFailure op), log (EvIO op false) w)
    else match run (fs w) with
         | Some (a, m') => (Ok a, log (EvIO op true) (setFs m' w))
         | None => (Throw (IoFailure op), log (EvIO op false) w)
         end.

Definition getInfoAsync (uri : string) : M FileInfo :=
  io (OInfo uri) (fun m => Some (infoOf (m !! uri), m)).

Definition copyAsync (from to : string) : M unit :=
  io (OCopy from to) (fun m =>
    match m !! from with
    | Some n => Some (tt, <[to := n]> m)
    | None => None
    end).

Definition moveAsync (from to : string) : M unit :=
  io (OMove from to) (fun m =>
    match m !! from with
    | Some n => Some (tt, <[to := n]> (delete from m))
    | None => None
    end).

(** [deleteAsync(uri, { idempotent: true })] *)
Definition deleteAsync (uri : string) : M unit :=
  io (ODelete uri) (fun m => Some (tt, delete uri m)).

Definition readDirectoryAsync (dir : string) : M (list string) :=
  io (OList dir) (fun m =>
    match m !! dir with
    | Some Dir => Some (listingOrder (children m dir), m)
    | _ => None
    end).

(** [makeDirectoryAsync(dir, { intermediates: true })] *)
Definition makeDirectoryAsync (dir : string) : M unit :=
  io (OMkdir dir) (fun m =>
    match m !! dir with
    | None => Some (tt, <[dir := Dir]> m)
    | Some Dir => Some (tt, m)
    | Some (File _) => None
    end).

Definition readAsStringAsync (uri : string) : M (list Byte.byte) :=
  io (ORead uri) (fun m =>
    match m !! uri with
    | Some (File c) => Some (c, m)
    | _ => None
    end).

Definition writeAsStringAsync (uri : string) (payload : list Byte.byte) : M unit :=
  io (OWrite uri) (fun m =>
    match m !! uri with
    | Some Dir => None
    | _ => Some (tt, <[uri := File payload]> m)
    end).

(* --------------------------------------------------------------------- *)
(** *** Path resolver *)
(* --------------------------------------------------------------------- *)

Definition NotFound : exn := JsError "Database file not found in SQLite directory.".

(** The loop over [DB_CANDIDATES]. *)
Fixpoint probeCandidates (names : list string) : M (option string) :=
  match names with
  | [] => ret None
  | name :: rest =>
      let candidate := SQLITE_DIR +:+ name in
      r <- try_ (getInfoAsync candidate);;
      match r with
      | Ok info =>
          if isRegular info then ret (Some candidate) else probeCandidates rest
      | Throw _ => probeCandidates rest
      end
  end.

(** [listing.find((f) => f.startsWith('debitmanager'))] *)
Definition findMatch (listing : list string) : option string :=
  List.find (fun f => Js.startsWith f "debitmanager") listing.

Definition resolveDatabasePath : M string :=
  found <- probeCandidates DB_CANDIDATES;;
  match found with
  | Some candidate => ret candidate
  | None =>
      l <- try_ (readDirectoryAsync SQLITE_DIR);;
      match l with
      | Ok listing =>
          match findMatch listing with
          | Some m => if Js.truthy m then ret (SQLITE_DIR +:+ m) else throw NotFound
          | None => throw NotFound
          end
      | Throw _ => throw NotFound
      end
  end.

(* --------------------------------------------------------------------- *)
(** *** The outside world *)
(* --------------------------------------------------------------------- *)

(** [new Date()] by the time of the call. *)
Variable newDate : nat -> JsDate.

(** The binding of [closeDatabaseHandlesForBackup] in [backupV2.ts]; the
    helper lives in [database/db.ts] and the binding is [undefined] when
    neither [require] finds it. *)
Variable closeDatabaseHandlesForBackup : option (Outside bool).

(** [coreDb?.closeDatabaseHandlesForBackup] as the backups screen resolves
    it; [None] when the [require] throws or the value is not a function. *)
Variable coreDbHelper : option (Outside bool).

(** The methods of the connection the screen holds, [db.execAsync] and
    [db.closeAsync], when present. *)
Variable db_execAsync : option (Outside unit).
Variable db_closeAsync : option (Outside unit).

Variable isSignedInToGoogleDrive : Outside bool.
Variable restoreLatestBackupFromGoogleDrive : string -> Outside bool.
Variable getAccessToken : Outside string.
Variable getOrCreateBackupFolder : string -> Outside string.
Variable uploadFileToGoogleDrive : string -> string -> string -> string -> Outside unit.
Variable reloadApp : Outside unit.

Variable getDocumentAsync : Outside PickerResult.

(** [extra.backup.uploadUrl] and [extra.backup.authToken] of the Expo
    configuration. *)
Variable uploadUrl : option string.
Variable authToken : option string.

(** [fetch(url, { method: 'PUT', headers, body })], with the value of the
    [Authorization] header when one is sent. *)
Variable fetch : string -> option string -> list Byte.byte -> Outside Response.

Variable Sharing_isAvailableAsync : Outside bool.
Variable Sharing_shareAsync : string -> Outside unit.

(* --------------------------------------------------------------------- *)
(** *** Snapshot engine *)
(* --------------------------------------------------------------------- *)

Definition timestamp : M string :=
  fun w => (Ok (localStamp (newDate (tick w))), w).

(** Lines 99-106: prefer the [.db] sibling of the resolved path when it
    exists as a regular file. *)
Definition preferCanonical (dbPath : string) : M string :=
  let candidateDb := if Js.endsWith dbPath ".db" then dbPath else dbPath +:+ ".db" in
  r <- try_ (getInfoAsync candidateDb);;
  match r with
  | Ok info => if isRegular info then ret candidateDb else ret dbPath
  | Throw _ => ret dbPath
  end.

(** Lines 109-129: checkpoint and close through the central helper; the
    value is [didFlush]. The settle delay has no effect on the model. *)
Definition flushHandles : M bool :=
  match closeDatabaseHandlesForBackup with
  | Some helper =>
      r <- try_ (ext XCloseHandles helper);;
      match r with
      | Ok didFlush => ret didFlush
      | Throw _ => ret false
      end
  | None => ret false
  end.

(** Lines 131-141: copy a bare source to its [.db] sibling. *)
Definition canonicalizeSource (dbPath : string) : M string :=
  if negb (Js.endsWith dbPath ".db") then
    let candidateDb := dbPath +:+ ".db" in
    r <- try_ (copyAsync dbPath candidateDb);;
    match r with
    | Ok _ => ret candidateDb
    | Throw _ => ret dbPath
    end
  else ret dbPath.

(** [getInfoAsync(uri).catch(() => ({ exists: false }))] *)
Definition getInfoOrAbsent (uri : string) : M FileInfo :=
  r <- try_ (getInfoAsync uri);;
  match r with
  | Ok info => ret info
  | Throw _ => ret (mkInfo false false)
  end.

(** Lines 152-175: copy the WAL and SHM files next to the artifact. *)
Definition copySidecars (dbPath dest : string) : M unit :=
  let walSrc := dbPath +:+ "-wal" in
  let shmSrc := dbPath +:+ "-shm" in
  walInfo <- getInfoOrAbsent walSrc;;
  shmInfo <- getInfoOrAbsent shmSrc;;
  (if exists_ walInfo then ignoreErrors (copyAsync walSrc (dest +:+ "-wal")) else ret tt);;;
  (if exists_ shmInfo then ignoreErrors (copyAsync shmSrc (dest +:+ "-shm")) else ret tt).

(** Lines 142-149: the copy of the chosen source into the backups
    directory; the value is [dest]. *)
Definition copyToBackups (dbPath : string) : M string :=
  makeDirectoryAsync BACKUP_DIR;;;
  stamp <- timestamp;;
  let dest := BACKUP_DIR +:+ "debitmanager-" +:+ stamp +:+ ".db" in
  ignoreErrors (getInfoAsync dbPath);;;
  copyAsync dbPath dest;;;
  ret dest.

(** Lines 142-181. *)
Definition writeSnapshot (dbPath : string) : M string :=
  dest <- copyToBackups dbPath;;
  ignoreErrors (copySidecars dbPath dest);;;
  ignoreErrors (getInfoAsync dest);;;
  ret dest.

(** Lines 97-106: the source before the handles are released. *)
Definition selectSource : M string :=
  dbPath <- resolveDatabasePath;;
  preferCanonical dbPath.

(** Lines 97-141: the path the snapshot is copied from. *)
Definition chooseSource : M string :=
  dbPath <- selectSource;;
  flushHandles;;;
  canonicalizeSource dbPath.

(** [backupDatabase()]; the value is the [uri] of the result. *)
Definition backupDatabase : M string :=
  dbPath <- chooseSource;;
  writeSnapshot dbPath.

(* --------------------------------------------------------------------- *)
(** *** Sinks and [backupNow] *)
(* --------------------------------------------------------------------- *)

(** A value used as a condition: [undefined] and [''] are falsy. *)
Definition truthyOpt (o : option string) : bool :=
  match o with Some s => Js.truthy s | None => false end.

(** Each sink records its attempt first: the share sheet and the cloud
    drive on entry, the HTTP endpoint once it is known to be configured. *)
Definition shareBackup (uri : string) : M bool :=
  emit (EvSink ShareSheet);;;
  available <- ext XShareAvailable Sharing_isAvailableAsync;;
  if negb available then ret false
  else ext XShare (Sharing_shareAsync uri);;; ret true.

Definition uploadBackupIfConfigured (uri : string) : M bool :=
  match uploadUrl with
  | Some url =>
      if Js.truthy url then
        emit (EvSink GenericHttp);;;
        r <- try_ (
          bytes <- readAsStringAsync uri;;
          let auth := match authToken with
                      | Some t => if Js.truthy t then Some ("Bearer " +:+ t) else None
                      | None => None
                      end in
          response <- ext XFetch (fetch url auth bytes);;
          if negb (ok response)
          then throw (JsError ("Upload failed: " +:+ Js.String_of_number (status response)))
          else ret true);;
        match r with
        | Ok b => ret b
        | Throw _ => ret false
        end
      else ret false
  | None => ret false
  end.

Definition uploadToGoogleDrive (uri : string) : M bool :=
  emit (EvSink CloudDrive);;;
  r <- try_ (
    isSignedIn <- ext XIsSignedIn isSignedInToGoogleDrive;;
    if negb isSignedIn then ret false
    else
      accessToken <- ext XAccessToken getAccessToken;;
      folderId <- ext XBackupFolder (getOrCreateBackupFolder accessToken);;
      fileName <- (let last := Js.lastSegment uri in
                   if Js.truthy last then ret last
                   else stamp <- timestamp;; ret ("debitmanager-" +:+ stamp +:+ ".db"));;
      ext XDriveUpload (uploadFileToGoogleDrive accessToken uri fileName folderId);;;
      ret true);;
  match r with
  | Ok b => ret b
  | Throw _ => ret false
  end.

Definition doubleQuote : string := String (ascii_of_nat 34) EmptyString.

(** [JSON.stringify({ lastBackupISO: date.toISOString() })] *)
Definition metaPayload (date : JsDate) : string :=
  "{" +:+ doubleQuote +:+ "lastBackupISO" +:+ doubleQuote +:+ ":" +:+
  doubleQuote +:+ toISOString date +:+ doubleQuote +:+ "}".

Definition setLastBackupTimestamp (date : JsDate) : M unit :=
  ignoreErrors (writeAsStringAsync META_FILE (list_byte_of_string (metaPayload date))).

Definition backupNow : M BackupNowResult :=
  uri <- backupDatabase;;
  now <- (fun w => (Ok (newDate (tick w)), w));;
  setLastBackupTimestamp now;;;
  googleDrive <- uploadToGoogleDrive uri;;
  if googleDrive then ret (mkBackupNow uri false false googleDrive)
  else
    uploaded <- uploadBackupIfConfigured uri;;
    shared <- (if negb uploaded then
                 r <- try_ (shareBackup uri);;
                 match r with
                 | Ok b => ret b
                 | Throw _ => ret false
                 end
               else ret false);;
    ret (mkBackupNow uri uploaded shared googleDrive).

(* --------------------------------------------------------------------- *)
(** *** Restore handler of the backups screen *)
(* --------------------------------------------------------------------- *)

(** Lines 215-234: the central helper, before the snapshot. *)
Definition releaseHandlesBeforeSnapshot : M unit :=
  match coreDbHelper with
  | Some cb => ignoreErrors (ext XCloseHandles cb)
  | None => ret tt
  end.

(** Lines 237-244: the value is [preRestoreSnapshot]. *)
Definition takePreRestoreSnapshot : M (option string) :=
  r <- try_ backupDatabase;;
  match r with
  | Ok uri => ret (Some uri)
  | Throw _ => ret None
  end.

(** Lines 246-259: checkpoint and close the connection the screen holds. *)
Definition closeScreenConnection : M unit :=
  (match db_execAsync with
   | Some exec => ignoreErrors (ext XExec exec)
   | None => ret tt
   end);;;
  (match db_closeAsync with
   | Some close => ignoreErrors (ext XClose close)
   | None => ret tt
   end).

(** [p.endsWith('.db') ? p : `${p}.db`] *)
Definition canonicalOf (p : string) : string :=
  if Js.endsWith p ".db" then p else p +:+ ".db".

(** [moveAsync], and on failure [copyAsync] followed by the deletion of the
    temporary file (lines 324-330 and 365-370). *)
Definition moveIntoPlace (tmp target : string) : M unit :=
  r <- try_ (moveAsync tmp target);;
  match r with
  | Ok _ => ret tt
  | Throw _ => copyAsync tmp target;;; deleteAsync tmp
  end.

(** Lines 287-301: after a restore from the cloud drive. *)
Definition cleanAfterDriveRestore (CANONICAL_DB_PATH DB_PATH : string) : M unit :=
  (if negb (String.eqb CANONICAL_DB_PATH DB_PATH)
   then ignoreErrors (deleteAsync DB_PATH) else ret tt);;;
  ignoreErrors (deleteAsync (CANONICAL_DB_PATH +:+ "-wal"));;;
  ignoreErrors (deleteAsync (CANONICAL_DB_PATH +:+ "-shm"));;;
  ignoreErrors (deleteAsync (DB_PATH +:+ "-wal"));;;
  ignoreErrors (deleteAsync (DB_PATH +:+ "-shm"));;;
  ignoreErrors (readDirectoryAsync SQLITE_DIR);;;
  ignoreErrors (getInfoAsync CANONICAL_DB_PATH).

(** Lines 331-335: remove the bare file and the sidecars of the canonical
    file. *)
Definition removeStale (CANONICAL_DB_PATH DB_PATH : string) : M unit :=
  (if negb (String.eqb CANONICAL_DB_PATH DB_PATH)
   then ignoreErrors (deleteAsync DB_PATH) else ret tt);;;
  ignoreErrors (deleteAsync (CANONICAL_DB_PATH +:+ "-wal"));;;
  ignoreErrors (deleteAsync (CANONICAL_DB_PATH +:+ "-shm")).

(** Lines 318-340: restore from the picked file [uri]. *)
Definition restoreFromLocalFile (uri CANONICAL_DB_PATH DB_PATH : string) : M unit :=
  let tempRestore := CANONICAL_DB_PATH +:+ ".restore.tmp" in
  copyAsync uri tempRestore;;;
  moveIntoPlace tempRestore CANONICAL_DB_PATH;;;
  removeStale CANONICAL_DB_PATH DB_PATH.

(** Lines 311-344: the local-file path, from the picker on. *)
Definition pickAndRestore (CANONICAL_DB_PATH DB_PATH : string) : M unit :=
  result <- ext XPicker getDocumentAsync;;
  if negb (truthyOpt (assetUri result)) || canceled result then ret tt
  else
    let uri := default EmptyString (assetUri result) in
    restoreFromLocalFile uri CANONICAL_DB_PATH DB_PATH;;;
    ext XReload reloadApp.

(** Lines 246-344: what the [try] block does after the snapshot. *)
Definition restoreBody : M unit :=
  closeScreenConnection;;;
  DB_PATH <- resolveDatabasePath;;
  let CANONICAL_DB_PATH := canonicalOf DB_PATH in
  ignoreErrors (readDirectoryAsync SQLITE_DIR);;;
  ignoreErrors (getInfoAsync CANONICAL_DB_PATH);;;
  signedIn <- ext XIsSignedIn isSignedInToGoogleDrive;;
  restored <- (if signedIn
               then ext XDriveRestore (restoreLatestBackupFromGoogleDrive CANONICAL_DB_PATH)
               else ret false);;
  if restored then
    cleanAfterDriveRestore CANONICAL_DB_PATH DB_PATH;;;
    ext XReload reloadApp
  else pickAndRestore CANONICAL_DB_PATH DB_PATH.

(** Lines 351-361: where the snapshot is copied back to. *)
Definition rollbackTarget : M string :=
  r <- try_ resolveDatabasePath;;
  match r with
  | Ok current => ret (canonicalOf current)
  | Throw _ => ret (SQLITE_DIR +:+ "debitmanager.db")
  end.

Definition rolledBackMessage : string :=
  "Restore failed but pre-restore snapshot was restored.".

(** Lines 349-374: copy the snapshot back into place. *)
Definition rollbackFrom (preRestoreSnapshot : string) : M unit :=
  targetPath <- rollbackTarget;;
  let tmp := targetPath +:+ ".rollback.tmp" in
  copyAsync preRestoreSnapshot tmp;;;
  moveIntoPlace tmp targetPath;;;
  ext XReload reloadApp;;;
  emit (EvAlert "Restore failed" (Text rolledBackMessage)).

(** Lines 345-383: the [catch] block of the handler. *)
Definition onRestoreFailure (preRestoreSnapshot : option string) (e : exn) : M unit :=
  if truthyOpt preRestoreSnapshot then
    r <- try_ (rollbackFrom (default EmptyString preRestoreSnapshot));;
    match r with
    | Ok _ => ret tt
    | Throw error_ =>
        emit (EvAlert "Restore failed" (RollbackFailedWith error_));;;
        emit (EvSetIsRestoring false)
    end
  else
    emit (EvAlert "Restore failed" (MessageOf e));;;
    emit (EvSetIsRestoring false).

(** [try { body } catch (e) { onRestoreFailure(preRestoreSnapshot, e) }] *)
Definition guarded (preRestoreSnapshot : option string) (body : M unit) : M unit :=
  r <- try_ body;;
  match r with
  | Ok _ => ret tt
  | Throw e => onRestoreFailure preRestoreSnapshot e
  end.

(** [handleRestoreBackup()].  The two steps before [restoreBody] sit inside
    the same [try] block in the source; they catch every error themselves,
    and the second one yields the variable [preRestoreSnapshot] that the
    [catch] block reads. *)
Definition handleRestoreBackup : M unit :=
  emit (EvSetIsRestoring true);;;
  releaseHandlesBeforeSnapshot;;;
  preRestoreSnapshot <- takePreRestoreSnapshot;;
  guarded preRestoreSnapshot restoreBody.

(** What [readDirectoryAsync] yields on [m] when it succeeds, and no entry
    when [dir] is not a directory. *)
Definition directoryListing (m : gmap string node) (dir : string) : list string :=
  match m !! dir with
  | Some Dir => listingOrder (children m dir)
  | _ => []
  end.

(** The oracle never fails the call [op]. *)
Definition reliable (op : Op) : Prop := forall n, fault n op = false.

(** Neither fixed candidate is a regular file. *)
Definition noCandidate (m : gmap string node) : Prop :=
  isRegular (infoOf (m !! (SQLITE_DIR +:+ "debitmanager.db"))) = false /\
  isRegular (infoOf (m !! (SQLITE_DIR +:+ "debitmanager"))) = false.

(** A name that can be listed: non-empty and without a slash. *)
Definition entryName (name : string) : Prop :=
  Js.truthy name = true /\ Js.includesChar "/" name = false.

(** The outcome of the listing fallback on the entries [l]. *)
Definition fallbackResult (l : list string) : Res string :=
  match findMatch l with
  | Some m => if Js.truthy m then Ok (SQLITE_DIR +:+ m) else Throw NotFound
  | None => Throw NotFound
  end.

(** [P] holds of the [count] integers from [lo] on. *)
Definition allZ (lo : Z) (count : nat) (P : Z -> bool) : bool :=
  forallb (fun i => P (lo + Z.of_nat i)) (seq 0 count).

(** Every run of [m] relates the world before it to the world after. *)
Definition steps {A} (R : World -> World -> Prop) (m : M A) : Prop :=
  forall w, R w (snd (m w)).

(** The files are the same. *)
Definition sameFs (w w' : World) : Prop := fs w' = fs w.

(** The node at [p] is the same. *)
Definition keeps (p : string) (w w' : World) : Prop := fs w' !! p = fs w !! p.

(** The sinks called so far, in order. *)
Definition sinksOf (t : list event) : list sink :=
  omap (fun e => if e is EvSink s then Some s else None) t.

(** No sink has been called in between. *)
Definition sameSinks (w w' : World) : Prop :=
  sinksOf (trace w') = sinksOf (trace w).

(** A URI outside the backups directory. *)
Definition outsideBackups (q : string) : Prop :=
  forall s, q <> BACKUP_DIR +:+ s.

(** The call [op] writes to or removes the node at [p]. *)
Definition modifies (op : Op) (p : string) : bool :=
  match op with
  | OCopy _ to => String.eqb to p
  | OMove from to => String.eqb from p || String.eqb to p
  | ODelete q | OMkdir q | OWrite q => String.eqb q p
  | OInfo _ | OList _ | ORead _ => false
  end.

(** A deletion of something other than [p], successful or not. *)
Definition deletesOther (p : string) (e : event) : Prop :=
  exists x ok, e = EvIO (ODelete x) ok /\ x <> p.

(** No effect has been undone. *)
Definition later (w w' : World) : Prop := (tick w <= tick w')%nat.

(** The canonical database file. *)
Definition CANONICAL : string := SQLITE_DIR +:+ "debitmanager.db".

(** From [w] on, only moves may fail. *)
Definition onlyMovesFailFrom (w : World) : Prop :=
  forall k op, (tick w <= k)%nat -> fault k op = true -> exists a b, op = OMove a b.

(** The trace has only grown. *)
Definition extends (w w' : World) : Prop := exists evs, trace w' = trace w ++ evs.

(* --------------------------------------------------------------------- *)
(** *** The rest of [backupV2.ts] *)
(* --------------------------------------------------------------------- *)

(** Lines 40-49 of [backupV2.ts]: create [uri] when the probe does not see
    it; every failure is caught. *)
Definition ensureDir (uri : string) : M unit :=
  ignoreErrors (
    info <- getInfoAsync uri;;
    if negb (exists_ info) then makeDirectoryAsync uri else ret tt).

(** [JSON.parse(content)], the field [lastBackupISO] and [new Date(..)]:
    it throws when the content is not JSON, and yields no date when the
    field is missing or falsy or the date is invalid. *)
Variable decodeMeta : list Byte.byte -> Res (option JsDate).

(** Lines 277-294; the value is the date, or [null]. *)
Definition getLastBackupTimestamp : M (option JsDate) :=
  r <- try_ (
    info <- getInfoAsync META_FILE;;
    if negb (exists_ info) then ret None
    else
      content <- readAsStringAsync META_FILE;;
      match decodeMeta content with
      | Ok d => ret d
      | Throw e => throw e
      end);;
  match r with
  | Ok d => ret d
  | Throw _ => ret None
  end.

(* --------------------------------------------------------------------- *)
(** *** File name migration of the root layout *)
(* --------------------------------------------------------------------- *)

(** Lines 91-103 and 111-123 of [_layout.tsx]: [moveAsync], and on failure
    [copyAsync] followed by [deleteAsync], with the failure of the fallback
    caught as well. *)
Definition moveOrCopyQuietly (from to : string) : M unit :=
  r <- try_ (moveAsync from to);;
  match r with
  | Ok _ => ret tt
  | Throw _ => ignoreErrors (copyAsync from to;;; deleteAsync from)
  end.

(** Lines 106-125: one round of the loop over ['-wal', '-shm']. *)
Definition migrateSidecar (bare canonical suffix : string) : M unit :=
  let from := bare +:+ suffix in
  let to := canonical +:+ suffix in
  info <- getInfoOrAbsent from;;
  if exists_ info then moveOrCopyQuietly from to else ret tt.

(** Lines 79-134 of [_layout.tsx], the body of the effect that [RootLayout]
    runs once: a bare [debitmanager] without a [debitmanager.db] becomes
    [debitmanager.db].  The flag [migrationDone] that the [finally] block
    sets is React state and has no part in the files. *)
Definition migrateLegacyFile : M unit :=
  ignoreErrors (
    let bare := SQLITE_DIR +:+ "debitmanager" in
    let canonical := SQLITE_DIR +:+ "debitmanager.db" in
    bareInfo <- getInfoOrAbsent bare;;
    canonicalInfo <- getInfoOrAbsent canonical;;
    if exists_ bareInfo && negb (exists_ canonicalInfo) then
      moveOrCopyQuietly bare canonical;;;
      migrateSidecar bare canonical "-wal";;;
      migrateSidecar bare canonical "-shm"
    else ret tt).

(** The bare database file. *)
Definition BARE : string := SQLITE_DIR +:+ "debitmanager".

(** The node [n] of the bare file is still on disk, under one of the two
    names. *)
Definition stillThere (n : node) (w : World) : Prop :=
  fs w !! BARE = Some n \/
  (fs w !! BARE = None /\ fs w !! CANONICAL = Some n).

(** A step that does not lose the bare file. *)
Definition safeFor (n : node) (w w' : World) : Prop :=
  stillThere n w -> stillThere n w'.

(** The events [m] adds all satisfy [P]. *)
Definition onlyAdds (P : event -> Prop) (w w' : World) : Prop :=
  exists evs, trace w' = trace w ++ evs /\ Forall P evs.

(* --------------------------------------------------------------------- *)
(** *** The list of local backups of the backups screen *)
(* --------------------------------------------------------------------- *)

(** [files.map(async (name) => ...)] under [Promise.all] (lines 117-120 of
    [backups.tsx]): a probe is issued for every name, in the order of the
    listing, and each either yields [{ name, ...info }] or rejects. *)
Fixpoint probeEach (names : list string) : M (list (Res (string * FileInfo))) :=
  match names with
  | [] => ret []
  | name :: rest =>
      r <- try_ (getInfoAsync (BACKUP_DIR +:+ name));;
      rs <- probeEach rest;;
      ret (match r with
           | Ok info => Ok (name, info)
           | Throw e => Throw e
           end :: rs)
  end.

(** What [Promise.all] settles to: every value, or a rejection. *)
Fixpoint promiseAll {A} (rs : list (Res A)) : Res (list A) :=
  match rs with
  | [] => Ok []
  | Throw e :: _ => Throw e
  | Ok a :: rest =>
      match promiseAll rest with
      | Ok l => Ok (a :: l)
      | Throw e => Throw e
      end
  end.

(** Lines 112-122 of [loadBackups]: the value is [localFiles]. *)
Definition loadLocalBackups : M (list (string * FileInfo)) :=
  r <- try_ (
    files <- readDirectoryAsync BACKUP_DIR;;
    rs <- probeEach files;;
    match promiseAll rs with
    | Ok l => ret l
    | Throw e => throw e
    end);;
  match r with
  | Ok localFiles => ret localFiles
  | Throw _ => ret []
  end.

(** The calls a snapshot may make: probes, listings, the creation of the
    backups directory, copies to the [.db] sibling of their source or into
    the backups directory, and the release of the handles. *)
Definition snapshotCall (e : event) : Prop :=
  match e with
  | EvIO (OInfo _) _ | EvIO (OList _) _ => True
  | EvIO (OMkdir d) _ => d = BACKUP_DIR
  | EvIO (OCopy from to) _ => to = from +:+ ".db" \/ exists s, to = BACKUP_DIR +:+ s
  | EvExt XCloseHandles _ => True
  | _ => False
  end.

(** Neither an alert nor a change of [isRestoring]. *)
Definition silent (e : event) : Prop :=
  match e with
  | EvAlert _ _ | EvSetIsRestoring _ => False
  | _ => True
  end.

(** What the restore handler may add to the trace after it has set
    [isRestoring]: nothing that the user sees; or, last, the report of a
    rollback; or, last, the report of a failure followed by the reset of
    [isRestoring]. *)
Definition spinnerOutcome (evs : list event) : Prop :=
  Forall silent evs \/
  (exists pre,
     evs = pre ++ [EvAlert "Restore failed" (Text rolledBackMessage)] /\
     Forall silent pre) \/
  (exists pre body,
     evs = pre ++ [EvAlert "Restore failed" body; EvSetIsRestoring false] /\
     Forall silent pre /\ body <> Text rolledBackMessage).

(** What a rollback adds to the trace: when it returns, its report, last
    and only then; when it throws, nothing that the user sees. *)
Definition rollbackOutcome (r : Res unit) (evs : list event) : Prop :=
  (r = Ok tt /\
   exists pre, evs = pre ++ [EvAlert "Restore failed" (Text rolledBackMessage)] /\
               Forall silent pre) \/
  ((exists e, r = Throw e) /\ Forall silent evs).

(** A probe of a file or the listing of the SQLite directory. *)
Definition resolverCall (e : event) : Prop :=
  match e with
  | EvIO (OInfo _) _ => True
  | EvIO (OList d) _ => d = SQLITE_DIR
  | _ => False
  end.

(** What the probe of [name] in the backups directory gives on the files
    [m]. *)
Definition probed (m : gmap string node) (name : string) : string * FileInfo :=
  (name, infoOf (m !! (BACKUP_DIR +:+ name))).

(** What an attempt on the cloud drive adds to the trace when it answers
    [b]: the check of the sign-in first, then the token, the folder and the
    upload, each only after the one before it has returned; [true] is
    answered exactly when all four have returned. *)
Definition cloudAttempt (b : bool) (evs : list event) : Prop :=
  exists ok tail,
    evs = EvSink CloudDrive :: EvExt XIsSignedIn ok :: tail /\
    if b
    then ok = true /\
         tail = [EvExt XAccessToken true; EvExt XBackupFolder true;
                 EvExt XDriveUpload true]
    else (ok = false -> tail = []) /\
         tail ∈ [ [];
                  [EvExt XAccessToken false];
                  [EvExt XAccessToken true; EvExt XBackupFolder false];
                  [EvExt XAccessToken true; EvExt XBackupFolder true;
                   EvExt XDriveUpload false] ].

(** What an attempt on the HTTP endpoint adds when it answers [b]: nothing
    when no URL is configured; otherwise the read of the artifact and, when
    that has returned, the request. *)
Definition httpAttempt (uri : string) (b : bool) (evs : list event) : Prop :=
  if truthyOpt uploadUrl then
    exists ok tail,
      evs = EvSink GenericHttp :: EvIO (ORead uri) ok :: tail /\
      if b
      then ok = true /\ tail = [EvExt XFetch true]
      else (ok = false /\ tail = []) \/
           (ok = true /\ exists answered, tail = [EvExt XFetch answered])
  else evs = [] /\ b = false.

(** What an attempt on the share sheet adds when it answers [b]: the check
    that sharing is available and, when it is, the share itself. *)
Definition shareAttempt (b : bool) (evs : list event) : Prop :=
  exists ok tail,
    evs = EvSink ShareSheet :: EvExt XShareAvailable ok :: tail /\
    if b
    then ok = true /\ tail = [EvExt XShare true]
    else tail = [] \/ (ok = true /\ tail = [EvExt XShare false]).

(* ===================================================================== *)
(** ** Properties *)
(* ===================================================================== *)

(** *** Strings and paths *)

Lemma append_assoc (a b c : string) : (a +:+ b) +:+ c = a +:+ (b +:+ c).
Proof. induction a as [|x a IH]; simpl; [reflexivity | now rewrite IH]. Qed.

Lemma append_inv_head (p a b : string) : p +:+ a = p +:+ b -> a = b.
Proof.
  induction p as [|x p IH]; simpl; intros H; [exact H |].
  injection H as H. now apply IH.
Qed.

Lemma append_nil_r (a : string) : a +:+ EmptyString = a.
Proof. induction a as [|x a IH]; simpl; [reflexivity | now rewrite IH]. Qed.

Lemma append_ne_self (p a : string) : a <> EmptyString -> p +:+ a <> p.
Proof.
  intros Ha H. apply Ha. apply (append_inv_head p). now rewrite append_nil_r.
Qed.

Lemma stripPrefix_app (d n : string) : Js.stripPrefix d (d +:+ n) = Some n.
Proof.
  induction d as [|x d IH]; simpl; [reflexivity |].
  now rewrite Ascii.eqb_refl.
Qed.

Lemma stripPrefix_Some (d p n : string) :
  Js.stripPrefix d p = Some n -> p = d +:+ n.
Proof.
  revert p. induction d as [|x d IH]; intros p; simpl.
  - now intros [= ->].
  - destruct p as [|y p]; [discriminate |].
    destruct (Ascii.eqb x y) eqn:E; [| discriminate].
    apply Ascii.eqb_eq in E as ->. intros H. now rewrite (IH _ H).
Qed.

Lemma endsWith_app (p suf : string) : Js.endsWith (p +:+ suf) suf = true.
Proof.
  induction p as [|x p IH]; simpl.
  - destruct suf as [|y suf]; [reflexivity |].
    cbn [Js.endsWith String.append]. now rewrite String.eqb_refl.
  - cbn [Js.endsWith]. rewrite IH. apply orb_true_r.
Qed.

Lemma childName_Some (dir p name : string) :
  childName dir p = Some name <-> p = dir +:+ name /\ entryName name.
Proof.
  unfold childName, entryName. split.
  - destruct (Js.stripPrefix dir p) as [n|] eqn:E; [| discriminate].
    destruct (Js.truthy n) eqn:T; simpl; [| discriminate].
    destruct (Js.includesChar "/" n) eqn:I; simpl; [discriminate |].
    intros [= <-]. apply stripPrefix_Some in E. auto.
  - intros [-> [T I]]. rewrite stripPrefix_app, T, I. reflexivity.
Qed.

Lemma elem_of_children (m : gmap string node) (dir name : string) :
  name ∈ children m dir <-> is_Some (m !! (dir +:+ name)) /\ entryName name.
Proof.
  unfold children. rewrite list_elem_of_omap. split.
  - intros [[k v] [Hin Hc]]. simpl in Hc.
    apply elem_of_map_to_list in Hin. apply childName_Some in Hc as [-> Hn].
    split; [eexists; eassumption | assumption].
  - intros [[v Hv] Hn]. exists (dir +:+ name, v). split.
    + now apply elem_of_map_to_list.
    + simpl. apply childName_Some. auto.
Qed.

(** *** Primitive calls *)

Lemma getInfoAsync_ok (uri : string) (w : World) :
  fault (tick w) (OInfo uri) = false ->
  getInfoAsync uri w = (Ok (infoOf (fs w !! uri)), log (EvIO (OInfo uri) true) w).
Proof.
  intros H. unfold getInfoAsync, io. rewrite H. simpl.
  unfold setFs, log. destruct w; reflexivity.
Qed.

Lemma readDirectoryAsync_ok (dir : string) (w : World) :
  fault (tick w) (OList dir) = false ->
  fs w !! dir = Some Dir ->
  readDirectoryAsync dir w =
    (Ok (directoryListing (fs w) dir), log (EvIO (OList dir) true) w).
Proof.
  intros H Hd. unfold readDirectoryAsync, directoryListing, io.
  rewrite H, Hd. unfold setFs, log. destruct w; reflexivity.
Qed.

Lemma readDirectoryAsync_not_dir (dir : string) (w : World) :
  fs w !! dir <> Some Dir ->
  readDirectoryAsync dir w =
    (Throw (IoFailure (OList dir)), log (EvIO (OList dir) false) w).
Proof.
  intros Hd. unfold readDirectoryAsync, io.
  destruct (fault (tick w) (OList dir)); [reflexivity |].
  destruct (fs w !! dir) as [[|]|]; try reflexivity. congruence.
Qed.

(** *** Path resolver *)

Lemma findMatch_truthy (l : list string) (m : string) :
  findMatch l = Some m -> Js.truthy m = true.
Proof.
  unfold findMatch. intros H. apply find_some in H as [_ H].
  destruct m; [discriminate | reflexivity].
Qed.

Lemma resolve_no_candidate (w : World) :
  reliable (OInfo (SQLITE_DIR +:+ "debitmanager.db")) ->
  reliable (OInfo (SQLITE_DIR +:+ "debitmanager")) ->
  reliable (OList SQLITE_DIR) ->
  noCandidate (fs w) ->
  fst (resolveDatabasePath w) = fallbackResult (directoryListing (fs w) SQLITE_DIR) /\
  fs (snd (resolveDatabasePath w)) = fs w.
Proof.
  intros R1 R2 R3 [N1 N2].
  unfold resolveDatabasePath, DB_CANDIDATES, probeCandidates, bind, try_.
  rewrite getInfoAsync_ok by apply R1. rewrite N1.
  rewrite getInfoAsync_ok by apply R2. cbn [fs log]. rewrite N2.
  cbn [ret].
  destruct (decide (fs w !! SQLITE_DIR = Some Dir)) as [Hd|Hd].
  - rewrite readDirectoryAsync_ok by (try apply R3; exact Hd).
    cbn [fs log]. unfold fallbackResult.
    destruct (findMatch _) as [m|]; [| split; reflexivity].
    destruct (Js.truthy m); split; reflexivity.
  - rewrite readDirectoryAsync_not_dir by exact Hd.
    unfold fallbackResult, directoryListing.
    destruct (fs w !! SQLITE_DIR) as [[|]|]; try (split; reflexivity).
    congruence.
Qed.

Lemma resolve_canonical (w : World) :
  fault (tick w) (OInfo (SQLITE_DIR +:+ "debitmanager.db")) = false ->
  isRegular (infoOf (fs w !! (SQLITE_DIR +:+ "debitmanager.db"))) = true ->
  resolveDatabasePath w =
    (Ok (SQLITE_DIR +:+ "debitmanager.db"),
     log (EvIO (OInfo (SQLITE_DIR +:+ "debitmanager.db")) true) w).
Proof.
  intros F R.
  unfold resolveDatabasePath, DB_CANDIDATES, probeCandidates, bind, try_.
  rewrite getInfoAsync_ok by exact F. now rewrite R.
Qed.

Lemma resolve_bare (w : World) :
  reliable (OInfo (SQLITE_DIR +:+ "debitmanager.db")) ->
  reliable (OInfo (SQLITE_DIR +:+ "debitmanager")) ->
  isRegular (infoOf (fs w !! (SQLITE_DIR +:+ "debitmanager.db"))) = false ->
  isRegular (infoOf (fs w !! (SQLITE_DIR +:+ "debitmanager"))) = true ->
  fst (resolveDatabasePath w) = Ok (SQLITE_DIR +:+ "debitmanager").
Proof.
  intros R1 R2 N1 N2.
  unfold resolveDatabasePath, DB_CANDIDATES, probeCandidates, bind, try_.
  rewrite getInfoAsync_ok by apply R1. rewrite N1.
  rewrite getInfoAsync_ok by apply R2. cbn [fs log]. now rewrite N2.
Qed.

Lemma findMatch_None (l : list string) :
  findMatch l = None <->
  Forall (fun f => Js.startsWith f "debitmanager" = false) l.
Proof.
  unfold findMatch. induction l as [|x l IH]; cbn [List.find].
  - split; [constructor | reflexivity].
  - destruct (Js.startsWith x "debitmanager") eqn:E.
    + split; [discriminate |]. intros H. inversion H; congruence.
    + rewrite IH. split; [now constructor |]. intros H. now inversion H.
Qed.

Lemma findMatch_unique (l : list string) (name : string) :
  name ∈ l ->
  Js.startsWith name "debitmanager" = true ->
  (forall other, other ∈ l -> Js.startsWith other "debitmanager" = true ->
                 other = name) ->
  findMatch l = Some name.
Proof.
  unfold findMatch. induction l as [|x l IH]; intros Hin Hp Hu.
  - now apply elem_of_nil in Hin.
  - cbn [List.find]. destruct (Js.startsWith x "debitmanager") eqn:E.
    + f_equal. apply Hu; [left | exact E].
    + apply IH; [| exact Hp |].
      * apply elem_of_cons in Hin as [-> | Hin]; [congruence | exact Hin].
      * intros other Ho. apply Hu. now right.
Qed.

Lemma fallbackResult_Some (l : list string) (m : string) :
  findMatch l = Some m -> fallbackResult l = Ok (SQLITE_DIR +:+ m).
Proof.
  intros H. unfold fallbackResult. rewrite H.
  now rewrite (findMatch_truthy _ _ H).
Qed.

(** Two URIs below the same root differ when their remainders do. *)
Ltac path_neq :=
  unfold SQLITE_DIR, BACKUP_DIR, META_FILE;
  rewrite ?append_assoc;
  let H := fresh "H" in
  intros H; apply append_inv_head in H; simpl in H; congruence.

(** **** C3: when both [SQLite/debitmanager.db] and the bare
    [SQLite/debitmanager] are regular files, [resolveDatabasePath] returns
    the [.db] path: the canonical name is the first of the fixed
    candidates and its probe alone decides. *)
Theorem resolve_prefers_canonical (w : World) (c1 c2 : list Byte.byte) :
  fs w !! (SQLITE_DIR +:+ "debitmanager.db") = Some (File c1) ->
  fs w !! (SQLITE_DIR +:+ "debitmanager") = Some (File c2) ->
  fault (tick w) (OInfo (SQLITE_DIR +:+ "debitmanager.db")) = false ->
  DB_CANDIDATES = ["debitmanager.db"; "debitmanager"] /\
  resolveDatabasePath w =
    (Ok (SQLITE_DIR +:+ "debitmanager.db"),
     log (EvIO (OInfo (SQLITE_DIR +:+ "debitmanager.db")) true) w).
Proof.
  intros H1 _ F. split; [reflexivity |].
  apply resolve_canonical; [exact F |]. now rewrite H1.
Qed.

(** **** C7: [resolveDatabasePath] fails with its NotFound error exactly
    when neither fixed candidate is a regular file and the listing of the
    SQLite directory has no entry starting with [debitmanager]; when the
    only such entry is a file with another name, its path is returned. *)
Theorem resolve_not_found_iff (w : World) :
  reliable (OInfo (SQLITE_DIR +:+ "debitmanager.db")) ->
  reliable (OInfo (SQLITE_DIR +:+ "debitmanager")) ->
  reliable (OList SQLITE_DIR) ->
  (fst (resolveDatabasePath w) = Throw NotFound <->
   noCandidate (fs w) /\
   Forall (fun f => Js.startsWith f "debitmanager" = false)
          (directoryListing (fs w) SQLITE_DIR)) /\
  (forall (name : string) (c : list Byte.byte),
     (forall l, listingOrder l ≡ₚ l) ->
     noCandidate (fs w) ->
     fs w !! SQLITE_DIR = Some Dir ->
     fs w !! (SQLITE_DIR +:+ name) = Some (File c) ->
     entryName name ->
     Js.startsWith name "debitmanager" = true ->
     (forall other, other ∈ children (fs w) SQLITE_DIR ->
                    Js.startsWith other "debitmanager" = true -> other = name) ->
     fst (resolveDatabasePath w) = Ok (SQLITE_DIR +:+ name)).
Proof.
  intros R1 R2 R3. split.
  - split.
    + intros HT.
      destruct (isRegular (infoOf (fs w !! (SQLITE_DIR +:+ "debitmanager.db")))) eqn:N1.
      { rewrite resolve_canonical in HT by (try apply R1; exact N1). discriminate. }
      destruct (isRegular (infoOf (fs w !! (SQLITE_DIR +:+ "debitmanager")))) eqn:N2.
      { rewrite resolve_bare in HT by assumption. discriminate. }
      assert (NC : noCandidate (fs w)) by (split; assumption).
      split; [exact NC |].
      destruct (resolve_no_candidate w R1 R2 R3 NC) as [E _].
      rewrite E in HT. apply findMatch_None.
      destruct (findMatch _) as [m|] eqn:Em; [| reflexivity].
      rewrite (fallbackResult_Some _ _ Em) in HT. discriminate.
    + intros [NC HF].
      destruct (resolve_no_candidate w R1 R2 R3 NC) as [E _].
      rewrite E. unfold fallbackResult.
      apply findMatch_None in HF. now rewrite HF.
  - intros name c Hperm NC Hd Hf Hn Hp Hu.
    destruct (resolve_no_candidate w R1 R2 R3 NC) as [E _].
    rewrite E. apply fallbackResult_Some.
    unfold directoryListing. rewrite Hd.
    apply findMatch_unique; [| exact Hp |].
    + rewrite Hperm. apply elem_of_children. split; [| exact Hn].
      rewrite Hf. eexists; reflexivity.
    + intros other Ho. apply Hu. now rewrite Hperm in Ho.
Qed.

(** **** C10: when neither fixed candidate is a regular file, the listing
    fallback returns the first listed entry whose name starts with
    [debitmanager], whatever kind of node it is: there are directory
    states in which it returns a WAL sidecar, and states in which it
    returns a directory that the candidate probe has just rejected. *)
Theorem resolve_fallback_ignores_kind :
  reliable (OInfo (SQLITE_DIR +:+ "debitmanager.db")) ->
  reliable (OInfo (SQLITE_DIR +:+ "debitmanager")) ->
  reliable (OList SQLITE_DIR) ->
  (forall l, listingOrder l ≡ₚ l) ->
  (forall (w : World) (m : string),
     noCandidate (fs w) ->
     findMatch (directoryListing (fs w) SQLITE_DIR) = Some m ->
     fst (resolveDatabasePath w) = Ok (SQLITE_DIR +:+ m)) /\
  (exists (w : World) (c : list Byte.byte),
     fs w !! (SQLITE_DIR +:+ "debitmanager.db-wal") = Some (File c) /\
     fs w !! (SQLITE_DIR +:+ "debitmanager.db") = None /\
     fst (resolveDatabasePath w) = Ok (SQLITE_DIR +:+ "debitmanager.db-wal")) /\
  (exists w : World,
     fs w !! (SQLITE_DIR +:+ "debitmanager.db") = Some Dir /\
     isRegular (infoOf (fs w !! (SQLITE_DIR +:+ "debitmanager.db"))) = false /\
     fst (resolveDatabasePath w) = Ok (SQLITE_DIR +:+ "debitmanager.db")).
Proof.
  intros R1 R2 R3 Hperm.
  assert (General : forall (w : World) (m : string),
     noCandidate (fs w) ->
     findMatch (directoryListing (fs w) SQLITE_DIR) = Some m ->
     fst (resolveDatabasePath w) = Ok (SQLITE_DIR +:+ m)).
  { intros w m NC Hm.
    destruct (resolve_no_candidate w R1 R2 R3 NC) as [E _].
    rewrite E. now apply fallbackResult_Some. }
  assert (Single : forall (name : string) (n : node),
     entryName name -> Js.startsWith name "debitmanager" = true ->
     findMatch (directoryListing
                  (<[SQLITE_DIR +:+ name := n]> {[SQLITE_DIR := Dir]}) SQLITE_DIR)
     = Some name).
  { intros name n Hn Hp. unfold directoryListing.
    assert (Hne : SQLITE_DIR +:+ name <> SQLITE_DIR).
    { apply append_ne_self. destruct Hn as [T _]. now destruct name. }
    rewrite lookup_insert_ne by exact Hne. rewrite lookup_singleton_eq.
    apply findMatch_unique; [| exact Hp |].
    - rewrite Hperm. apply elem_of_children. split; [| exact Hn].
      rewrite lookup_insert_eq. eexists; reflexivity.
    - intros other Ho _. rewrite Hperm in Ho.
      apply elem_of_children in Ho as [[v Hv] [T _]].
      destruct (decide (SQLITE_DIR +:+ name = SQLITE_DIR +:+ other)) as [E|E].
      + symmetry. now apply append_inv_head in E.
      + rewrite lookup_insert_ne in Hv by exact E.
        apply lookup_singleton_Some in Hv as [Hv _].
        symmetry in Hv. apply append_ne_self in Hv; [easy |].
        now destruct other. }
  split; [exact General |]. split.
  - exists (mkWorld (<[SQLITE_DIR +:+ "debitmanager.db-wal" := File []]>
                       {[SQLITE_DIR := Dir]}) []), [].
    cbn [fs]. split; [apply lookup_insert_eq |]. split.
    + rewrite lookup_insert_ne by path_neq.
      apply lookup_singleton_ne. path_neq.
    + apply General; cbn [fs].
      * split.
        -- rewrite lookup_insert_ne by path_neq.
           rewrite lookup_singleton_ne by path_neq. reflexivity.
        -- rewrite lookup_insert_ne by path_neq.
           rewrite lookup_singleton_ne by path_neq. reflexivity.
      * apply Single; [split |]; reflexivity.
  - exists (mkWorld (<[SQLITE_DIR +:+ "debitmanager.db" := Dir]>
                       {[SQLITE_DIR := Dir]}) []).
    cbn [fs]. rewrite lookup_insert_eq.
    split; [reflexivity |]. split; [reflexivity |].
    apply General; cbn [fs].
    + split.
      * rewrite lookup_insert_eq. reflexivity.
      * rewrite lookup_insert_ne by path_neq.
        rewrite lookup_singleton_ne by path_neq. reflexivity.
    + apply Single; [split |]; reflexivity.
Qed.

(** *** Timestamp of backup file names *)

Lemma allZ_spec (lo : Z) (count : nat) (P : Z -> bool) :
  allZ lo count P = true ->
  forall n, lo <= n < lo + Z.of_nat count -> P n = true.
Proof.
  unfold allZ. rewrite forallb_forall. intros H n Hn.
  replace n with (lo + Z.of_nat (Z.to_nat (n - lo))) by lia.
  apply H. apply in_seq. lia.
Qed.

Lemma pad_twoDigits (n : Z) : 0 <= n < 100 -> pad n = twoDigits n.
Proof.
  intros Hn. apply String.eqb_eq.
  apply (allZ_spec 0 100 (fun k => String.eqb (pad k) (twoDigits k)));
    [vm_compute; reflexivity | lia].
Qed.

Lemma year_fourDigits (y : Z) :
  1000 <= y <= 9999 -> Js.String_of_number y = fourDigits y.
Proof.
  intros Hy. apply String.eqb_eq.
  apply (allZ_spec 1000 (Z.to_nat 9000)
           (fun k => String.eqb (Js.String_of_number k) (fourDigits k)));
    [vm_compute; reflexivity | lia].
Qed.

Lemma isDigit_digit (n : Z) : isDigit (digit n) = true.
Proof.
  unfold digit.
  assert (H : 0 <= n mod 10 < 10) by (apply Z.mod_pos_bound; lia).
  apply (allZ_spec 0 10
           (fun k => isDigit (ascii_of_nat (48 + Z.to_nat k))));
    [vm_compute; reflexivity | lia].
Qed.

Lemma localStamp_specStamp (d : JsDate) :
  wallClock d -> localStamp d = specStamp d.
Proof.
  intros (Hy & Hmo & Hd & Hh & Hmi & Hs & Hz).
  unfold localStamp, specStamp.
  assert (Ha : 0 <= Z.abs (- getTimezoneOffset d) < 6000) by lia.
  assert (Hq : 0 <= Z.abs (- getTimezoneOffset d) / 60 < 100).
  { split; [apply Z.div_pos; lia | apply Z.div_lt_upper_bound; lia]. }
  assert (Hr : 0 <= Z.abs (- getTimezoneOffset d) mod 60 < 100).
  { pose proof (Z.mod_pos_bound (Z.abs (- getTimezoneOffset d)) 60). lia. }
  rewrite Z.rem_mod_nonneg by lia.
  rewrite year_fourDigits by lia.
  rewrite (pad_twoDigits (getMonth d + 1)) by lia.
  rewrite (pad_twoDigits (getDate d)) by lia.
  rewrite (pad_twoDigits (getHours d)) by lia.
  rewrite (pad_twoDigits (getMinutes d)) by lia.
  rewrite (pad_twoDigits (getSeconds d)) by lia.
  rewrite (pad_twoDigits _ Hq), (pad_twoDigits _ Hr).
  reflexivity.
Qed.

Lemma specStamp_matches (d : JsDate) :
  matchesPattern stampPattern (specStamp d) = true.
Proof.
  unfold specStamp, fourDigits, twoDigits, stampPattern.
  destruct (0 <=? - getTimezoneOffset d);
    cbn [String.append matchesPattern];
    rewrite !isDigit_digit; reflexivity.
Qed.

(** *** Running the monad *)

Lemma bind_Ok_inv {A B} (m : M A) (k : A -> M B) (w w' : World) (b : B) :
  bind m k w = (Ok b, w') ->
  exists a w1, m w = (Ok a, w1) /\ k a w1 = (Ok b, w').
Proof.
  unfold bind. destruct (m w) as [[a|e] w1]; [eauto | discriminate].
Qed.

Lemma try_run {A} (m : M A) (w : World) :
  try_ m w = (Ok (fst (m w)), snd (m w)).
Proof. unfold try_. now destruct (m w). Qed.

Lemma writeSnapshot_name (dbPath : string) (w w' : World) (dest : string) :
  writeSnapshot dbPath w = (Ok dest, w') ->
  exists n,
    dest = BACKUP_DIR +:+ "debitmanager-" +:+ localStamp (newDate n) +:+ ".db".
Proof.
  unfold writeSnapshot, copyToBackups. intros H.
  apply bind_Ok_inv in H as (d & w0 & Hc & H).
  apply bind_Ok_inv in H as (_ & w5 & _ & H).
  apply bind_Ok_inv in H as (_ & w6 & _ & H).
  unfold ret in H. injection H as <- _.
  apply bind_Ok_inv in Hc as (_ & w1 & _ & H).
  apply bind_Ok_inv in H as (stamp & w2 & Hs & H).
  unfold timestamp in Hs. injection Hs as <- <-.
  apply bind_Ok_inv in H as (_ & w3 & _ & H).
  apply bind_Ok_inv in H as (_ & w4 & _ & H).
  unfold ret in H. injection H as <- _. eauto.
Qed.

Lemma backupDatabase_name (w w' : World) (dest : string) :
  backupDatabase w = (Ok dest, w') ->
  exists n,
    dest = BACKUP_DIR +:+ "debitmanager-" +:+ localStamp (newDate n) +:+ ".db".
Proof.
  unfold backupDatabase. intros H.
  apply bind_Ok_inv in H as (p & w1 & _ & H).
  now apply writeSnapshot_name in H.
Qed.

(** **** C6: for a local wall-clock time with a four-digit year, the
    timestamp is exactly [YYYY-MM-DDTHH-mm-ss±HHMM] with zero-padded local
    fields and the colon-free local offset, and every artifact that
    [backupDatabase] returns is [debitmanager-<timestamp>.db] inside the
    backups directory. *)
Theorem timestamp_format (d : JsDate) :
  wallClock d ->
  localStamp d = specStamp d /\
  matchesPattern stampPattern (localStamp d) = true /\
  (forall (w w' : World) (dest : string),
     backupDatabase w = (Ok dest, w') ->
     exists n,
       dest = BACKUP_DIR +:+ "debitmanager-" +:+ localStamp (newDate n) +:+ ".db").
Proof.
  intros Hd. split; [now apply localStamp_specStamp |]. split.
  - rewrite localStamp_specStamp by exact Hd. apply specStamp_matches.
  - intros w w' dest. apply backupDatabase_name.
Qed.

(** *** Relations kept by every step *)

Section Steps.

Context (R : World -> World -> Prop) `{!PreOrder R}.

Lemma steps_ret {A} (a : A) : steps R (ret a).
Proof. intros w. reflexivity. Qed.

Lemma steps_throw {A} (e : exn) : steps R (@throw A e).
Proof. intros w. reflexivity. Qed.

Lemma steps_bind {A B} (m : M A) (k : A -> M B) :
  steps R m -> (forall a, steps R (k a)) -> steps R (bind m k).
Proof.
  intros Hm Hk w. unfold bind. specialize (Hm w).
  destruct (m w) as [[a|e] w1]; cbn [snd] in *; [| exact Hm].
  etransitivity; [exact Hm | apply Hk].
Qed.

Lemma steps_try {A} (m : M A) : steps R m -> steps R (try_ m).
Proof. intros Hm w. rewrite try_run. apply Hm. Qed.

Lemma steps_ignore {A} (m : M A) : steps R m -> steps R (ignoreErrors m).
Proof. intros Hm w. apply Hm. Qed.

End Steps.

Global Instance sameFs_preorder : PreOrder sameFs.
Proof. split; unfold sameFs; [now intros w | intros a b c H1 H2; congruence]. Qed.

Global Instance keeps_preorder (p : string) : PreOrder (keeps p).
Proof. split; unfold keeps; [now intros w | intros a b c H1 H2; congruence]. Qed.

Global Instance sameSinks_preorder : PreOrder sameSinks.
Proof. split; unfold sameSinks; [now intros w | intros a b c H1 H2; congruence]. Qed.

Lemma sinksOf_app (t u : list event) : sinksOf (t ++ u) = sinksOf t ++ sinksOf u.
Proof. unfold sinksOf. apply omap_app. Qed.

(** Unfold one primitive call and case on its outcome. *)
Ltac prim :=
  let w := fresh "w" in
  intros w;
  unfold getInfoAsync, copyAsync, moveAsync, deleteAsync, readDirectoryAsync,
    makeDirectoryAsync, readAsStringAsync, writeAsStringAsync, io, ext, emit;
  repeat match goal with
         | |- context [if fault ?n ?o then _ else _] => destruct (fault n o)
         | |- context [match fs ?w !! ?p with _ => _ end] =>
             destruct (fs w !! p) as [[|]|] eqn:?
         | |- context [let '(_, _) := ?f ?n ?m in _] => destruct (f n m) as [? ?]
         end;
  cbn [snd fs trace log setFs].

Lemma getInfoAsync_sameFs (uri : string) : steps sameFs (getInfoAsync uri).
Proof. prim; reflexivity. Qed.

Lemma readDirectoryAsync_sameFs (dir : string) : steps sameFs (readDirectoryAsync dir).
Proof. prim; reflexivity. Qed.

Lemma sameFs_keeps {A} (m : M A) (p : string) : steps sameFs m -> steps (keeps p) m.
Proof. intros H w. unfold keeps. now rewrite (H w). Qed.

Lemma copyAsync_keeps (from to p : string) :
  p <> to -> steps (keeps p) (copyAsync from to).
Proof.
  intros Hp. prim; unfold keeps; cbn [fs log setFs]; try reflexivity;
    now rewrite lookup_insert_ne by congruence.
Qed.

Lemma makeDirectoryAsync_keeps (dir p : string) :
  p <> dir -> steps (keeps p) (makeDirectoryAsync dir).
Proof.
  intros Hp. prim; unfold keeps; cbn [fs log setFs]; try reflexivity.
  now rewrite lookup_insert_ne by congruence.
Qed.

Lemma io_sameSinks {A} (op : Op) (run : gmap string node -> option (A * gmap string node)) :
  steps sameSinks (io op run).
Proof.
  intros w. unfold io, sameSinks.
  destruct (fault (tick w) op); [| destruct (run (fs w)) as [[a m']|]];
    cbn [snd trace log setFs]; rewrite sinksOf_app; cbn; apply app_nil_r.
Qed.

Lemma ext_sameSinks {A} (call : Ext) (f : Outside A) : steps sameSinks (ext call f).
Proof.
  intros w. unfold ext, sameSinks. destruct (f (tick w) (fs w)) as [r m'].
  cbn [snd trace log setFs]. rewrite sinksOf_app. cbn. apply app_nil_r.
Qed.

Lemma timestamp_steps (R : World -> World -> Prop) `{!PreOrder R} :
  steps R timestamp.
Proof. intros w. reflexivity. Qed.

(** Decompose a computation along its binds and branches. *)
Ltac step_through :=
  repeat match goal with
         | |- steps ?R (ret _) => apply (steps_ret R)
         | |- steps ?R (throw _) => apply (steps_throw R)
         | |- steps ?R timestamp => apply (timestamp_steps R)
         | |- steps ?R (try_ _) => apply (steps_try R)
         | |- steps ?R (ignoreErrors _) => apply (steps_ignore R)
         | |- steps ?R (bind _ _) => apply (steps_bind R); [| intros ?]
         | |- steps _ (match ?x with _ => _ end) => destruct x
         | |- steps _ (if ?b then _ else _) => destruct b
         | |- steps _ (let _ := _ in _) => cbn zeta
         end.

(** *** The resolver and the snapshot engine only write where they say *)

Lemma resolveDatabasePath_sameFs : steps sameFs resolveDatabasePath.
Proof.
  unfold resolveDatabasePath, DB_CANDIDATES, probeCandidates.
  step_through;
    first [apply getInfoAsync_sameFs | apply readDirectoryAsync_sameFs].
Qed.

Lemma probeCandidates_path (names : list string) (w w' : World) (c : string) :
  probeCandidates names w = (Ok (Some c), w') -> exists name, c = SQLITE_DIR +:+ name.
Proof.
  revert w. induction names as [|name rest IH]; intros w; cbn [probeCandidates].
  - intros [=].
  - intros H. apply bind_Ok_inv in H as (r & w1 & _ & H).
    destruct r as [info|e]; [destruct (isRegular info) |]; try (now apply IH in H).
    injection H as <- _. eauto.
Qed.

Lemma resolveDatabasePath_path (w w' : World) (p : string) :
  resolveDatabasePath w = (Ok p, w') -> exists name, p = SQLITE_DIR +:+ name.
Proof.
  unfold resolveDatabasePath. intros H.
  apply bind_Ok_inv in H as (found & w1 & Hp & H).
  destruct found as [c|].
  - injection H as <- _. now apply probeCandidates_path in Hp.
  - apply bind_Ok_inv in H as (l & w2 & _ & H).
    destruct l as [listing|e]; [| discriminate].
    destruct (findMatch listing) as [m|]; [| discriminate].
    destruct (Js.truthy m); [| discriminate].
    injection H as <- _. eauto.
Qed.

Lemma preferCanonical_sameFs (p : string) : steps sameFs (preferCanonical p).
Proof. unfold preferCanonical. step_through; apply getInfoAsync_sameFs. Qed.

Lemma preferCanonical_path (p : string) (w w' : World) (q : string) :
  preferCanonical p w = (Ok q, w') -> q = p \/ q = p +:+ ".db".
Proof.
  unfold preferCanonical, bind, ret. rewrite try_run.
  destruct (fst _) as [info|e]; [destruct (isRegular info) |];
    intros [= <- _]; auto.
  destruct (Js.endsWith p ".db"); auto.
Qed.

Lemma selectSource_sameFs : steps sameFs selectSource.
Proof.
  unfold selectSource. step_through;
    [apply resolveDatabasePath_sameFs | apply preferCanonical_sameFs].
Qed.

Lemma selectSource_path (w w' : World) (p : string) :
  selectSource w = (Ok p, w') -> exists name, p = SQLITE_DIR +:+ name.
Proof.
  unfold selectSource. intros H.
  apply bind_Ok_inv in H as (p0 & w1 & H0 & H).
  apply resolveDatabasePath_path in H0 as [name ->].
  apply preferCanonical_path in H as [-> | ->]; [eauto |].
  exists (name +:+ ".db"). apply append_assoc.
Qed.

Lemma sqlite_outsideBackups (name : string) : outsideBackups (SQLITE_DIR +:+ name).
Proof. intros s. path_neq. Qed.

(** What [canonicalizeSource] returns: the path itself with the files
    untouched, or the [.db] sibling, freshly written with the same node. *)
Lemma canonicalizeSource_spec (p : string) (w : World) :
  exists p' w', canonicalizeSource p w = (Ok p', w') /\
    fs w' !! p = fs w !! p /\
    (forall q, q <> p +:+ ".db" -> fs w' !! q = fs w !! q) /\
    (p' = p \/ (p' = p +:+ ".db" /\ is_Some (fs w !! p))) /\
    (is_Some (fs w !! p) -> fs w' !! p' = fs w !! p).
Proof.
  assert (Hne : p <> p +:+ ".db").
  { intros H. symmetry in H. now apply append_ne_self in H. }
  unfold canonicalizeSource.
  destruct (Js.endsWith p ".db"); cbn [negb].
  { exists p, w. unfold ret. repeat split; auto. }
  unfold bind, ret. rewrite try_run. unfold copyAsync, io.
  destruct (fault (tick w) _).
  { eexists p, _. cbn [fst snd]. split; [reflexivity |].
    cbn [fs log]. repeat split; auto. }
  destruct (fs w !! p) as [n|] eqn:E.
  - eexists (p +:+ ".db"), _. cbn [fst snd]. split; [reflexivity |].
    cbn [fs log setFs]. split; [| split; [| split]].
    + now rewrite lookup_insert_ne by congruence.
    + intros q Hq. now rewrite lookup_insert_ne by congruence.
    + right. split; [reflexivity | eexists; reflexivity].
    + intros _. apply lookup_insert_eq.
  - eexists p, _. cbn [fst snd]. split; [reflexivity |].
    cbn [fs log]. repeat split; auto.
Qed.

Lemma copyToBackups_spec (p : string) (w w' : World) (dest : string) :
  copyToBackups p w = (Ok dest, w') ->
  (exists n,
     dest = BACKUP_DIR +:+ "debitmanager-" +:+ localStamp (newDate n) +:+ ".db") /\
  is_Some (fs w' !! dest) /\
  fs w' !! dest = fs w' !! p /\
  (forall q, outsideBackups q -> fs w' !! q = fs w !! q).
Proof.
  unfold copyToBackups. intros H.
  apply bind_Ok_inv in H as ([] & w1 & Hmk & H).
  apply bind_Ok_inv in H as (stamp & w2 & Hs & H).
  unfold timestamp in Hs. injection Hs as <- Hw. subst w2.
  apply bind_Ok_inv in H as ([] & w3 & Hi & H).
  apply bind_Ok_inv in H as ([] & w4 & Hc & H).
  unfold ret in H. injection H as Hd Hw. subst w' dest.
  set (dest := BACKUP_DIR +:+ "debitmanager-" +:+ localStamp (newDate (tick w1)) +:+ ".db") in *.
  assert (F1 : forall q, outsideBackups q -> fs w1 !! q = fs w !! q).
  { intros q Hq.
    pose proof (makeDirectoryAsync_keeps BACKUP_DIR q) as K.
    specialize (K ltac:(intros ->; apply (Hq EmptyString); now rewrite append_nil_r) w).
    now rewrite Hmk in K. }
  assert (F3 : fs w3 = fs w1).
  { pose proof (getInfoAsync_sameFs p w1) as K. unfold ignoreErrors in Hi.
    injection Hi as <-. exact K. }
  unfold copyAsync, io in Hc.
  destruct (fault (tick w3) _); [discriminate |].
  destruct (fs w3 !! p) as [n|] eqn:E; [| discriminate].
  injection Hc as <-. cbn [fs log setFs].
  split; [eauto |]. rewrite lookup_insert_eq.
  split; [eexists; reflexivity |]. split.
  - destruct (decide (dest = p)) as [<- | Hne].
    + now rewrite lookup_insert_eq.
    + now rewrite lookup_insert_ne by exact Hne.
  - intros q Hq. rewrite lookup_insert_ne.
    + rewrite F3. now apply F1.
    + intros Hd. apply (Hq ("debitmanager-" +:+ localStamp (newDate (tick w1)) +:+ ".db")).
      now rewrite <- Hd.
Qed.

Lemma getInfoOrAbsent_sameFs (uri : string) : steps sameFs (getInfoOrAbsent uri).
Proof. unfold getInfoOrAbsent. step_through. apply getInfoAsync_sameFs. Qed.

Lemma copySidecars_keeps (p dest q : string) :
  q <> dest +:+ "-wal" -> q <> dest +:+ "-shm" ->
  steps (keeps q) (copySidecars p dest).
Proof.
  intros H1 H2. unfold copySidecars. step_through;
    first [ apply sameFs_keeps, getInfoOrAbsent_sameFs
          | now apply copyAsync_keeps ].
Qed.

Lemma afterCopy_keeps (p dest q : string) :
  q <> dest +:+ "-wal" -> q <> dest +:+ "-shm" ->
  steps (keeps q)
    (ignoreErrors (copySidecars p dest);;; ignoreErrors (getInfoAsync dest);;; ret dest).
Proof.
  intros H1 H2. step_through;
    first [ now apply copySidecars_keeps
          | apply sameFs_keeps, getInfoAsync_sameFs ].
Qed.

(** The anatomy of a successful [backupDatabase]. *)
Lemma backupDatabase_anatomy (w0 w3 : World) (dest : string) :
  backupDatabase w0 = (Ok dest, w3) ->
  exists src w1 w2 p' w2' w2'',
    selectSource w0 = (Ok src, w1) /\
    w2 = snd (flushHandles w1) /\
    canonicalizeSource src w2 = (Ok p', w2') /\
    copyToBackups p' w2' = (Ok dest, w2'') /\
    w3 = snd ((ignoreErrors (copySidecars p' dest);;;
               ignoreErrors (getInfoAsync dest);;; ret dest) w2'').
Proof.
  unfold backupDatabase, chooseSource, writeSnapshot. intros H.
  apply bind_Ok_inv in H as (p' & w2' & Hc & H).
  apply bind_Ok_inv in Hc as (src & w1 & Hs & Hc).
  apply bind_Ok_inv in Hc as (b & w2 & Hf & Hc).
  apply bind_Ok_inv in H as (d & w2'' & Hcp & H).
  assert (d = dest) as ->.
  { apply bind_Ok_inv in H as (_ & ? & _ & H).
    apply bind_Ok_inv in H as (_ & ? & _ & H).
    unfold ret in H. now injection H as -> _. }
  exists src, w1, w2, p', w2', w2''. repeat split; try assumption.
  - now rewrite Hf.
  - now rewrite H.
Qed.

(** What a successful [backupDatabase] leaves behind. *)
Lemma backupDatabase_frame (w0 w3 : World) (dest : string) :
  backupDatabase w0 = (Ok dest, w3) ->
  exists (src : string) (w1 w2 : World),
    selectSource w0 = (Ok src, w1) /\
    fs w1 = fs w0 /\
    w2 = snd (flushHandles w1) /\
    fs w3 !! src = fs w2 !! src /\
    is_Some (fs w3 !! dest) /\
    fs w3 !! dest = fs w3 !! src.
Proof.
  intros H.
  apply backupDatabase_anatomy in H
    as (src & w1 & w2 & p' & w2' & w2'' & Hs & Hf & Hc & Hcp & Hrest).
  exists src, w1, w2. split; [exact Hs |].
  split. { pose proof (selectSource_sameFs w0) as K. now rewrite Hs in K. }
  split; [exact Hf |].
  destruct (selectSource_path _ _ _ Hs) as [name Hname].
  destruct (canonicalizeSource_spec src w2) as (p1 & wc & Hc' & Ksrc & Kother & Hp' & Hval).
  rewrite Hc in Hc'. injection Hc' as <- <-.
  destruct (copyToBackups_spec _ _ _ _ Hcp) as ([n Hdest] & Hex & Heq & Hout).
  assert (Osrc : outsideBackups src) by (rewrite Hname; apply sqlite_outsideBackups).
  assert (Op' : outsideBackups p').
  { destruct Hp' as [-> | [-> _]]; [exact Osrc |].
    rewrite Hname, append_assoc. apply sqlite_outsideBackups. }
  assert (Dne : forall suf, suf <> EmptyString -> dest <> dest +:+ suf).
  { intros suf Hsuf E. symmetry in E. now apply append_ne_self in E. }
  assert (Kd : fs w3 !! dest = fs w2'' !! dest).
  { rewrite Hrest. apply (afterCopy_keeps p' dest dest); now apply Dne. }
  assert (Sne : forall suf, src <> dest +:+ suf).
  { intros suf. rewrite Hdest, !append_assoc. apply Osrc. }
  assert (Ks : fs w3 !! src = fs w2'' !! src).
  { rewrite Hrest. apply (afterCopy_keeps p' dest src); apply Sne. }
  assert (Hsome : is_Some (fs w2 !! src)).
  { destruct Hp' as [-> | [_ Hs']]; [| exact Hs'].
    rewrite <- Ksrc, <- (Hout src Osrc), <- Heq. exact Hex. }
  split. { rewrite Ks, (Hout src Osrc). exact Ksrc. }
  split. { rewrite Kd. exact Hex. }
  rewrite Kd, Ks, Heq, (Hout _ Op'), (Hout _ Osrc), Ksrc. now apply Hval.
Qed.

(** **** C4: after a successful [backupDatabase] the selected source holds
    what it held once the checkpoint step was over (selecting it reads
    only, and no copy writes to it), and the returned destination exists
    and holds the same bytes. *)
Theorem backup_preserves_source (w0 w3 : World) (dest : string) :
  backupDatabase w0 = (Ok dest, w3) ->
  exists (src : string) (w1 w2 : World),
    selectSource w0 = (Ok src, w1) /\
    fs w1 = fs w0 /\
    w2 = snd (flushHandles w1) /\
    fs w3 !! src = fs w2 !! src /\
    is_Some (fs w3 !! dest) /\
    fs w3 !! dest = fs w3 !! src.
Proof. apply backupDatabase_frame. Qed.

(** *** Sidecars *)

Lemma chooseSource_path (w w' : World) (p : string) :
  chooseSource w = (Ok p, w') -> exists name, p = SQLITE_DIR +:+ name.
Proof.
  unfold chooseSource. intros H.
  apply bind_Ok_inv in H as (src & w1 & Hs & H).
  apply bind_Ok_inv in H as (b & w2 & _ & H).
  destruct (selectSource_path _ _ _ Hs) as [name ->].
  destruct (canonicalizeSource_spec (SQLITE_DIR +:+ name) w2)
    as (p1 & wc & Hc & _ & _ & Hp & _).
  rewrite H in Hc. injection Hc as <- _.
  destruct Hp as [-> | [-> _]]; [eauto |].
  exists (name +:+ ".db"). apply append_assoc.
Qed.

Lemma getInfoOrAbsent_run (uri : string) (w : World) :
  exists i w', getInfoOrAbsent uri w = (Ok i, w') /\
    fs w' = fs w /\
    (reliable (OInfo uri) -> i = infoOf (fs w !! uri)).
Proof.
  unfold getInfoOrAbsent, bind, ret. rewrite try_run.
  destruct (fault (tick w) (OInfo uri)) eqn:F.
  - unfold getInfoAsync, io. rewrite F. cbn [fst snd].
    eexists _, _. split; [reflexivity |]. split; [reflexivity |].
    intros R. now rewrite R in F.
  - rewrite getInfoAsync_ok by exact F. cbn [fst snd].
    eexists _, _. split; [reflexivity |]. split; reflexivity.
Qed.

(** One sidecar: the copy is attempted when the probe saw the file, and
    never fails the caller. *)
Lemma copyIfExists_run (b : bool) (src dst : string) (w : World) :
  exists w',
    (if b then ignoreErrors (copyAsync src dst) else ret tt) w = (Ok tt, w') /\
    (forall q, q <> dst -> fs w' !! q = fs w !! q) /\
    (b = true -> reliable (OCopy src dst) ->
     forall n, fs w !! src = Some n -> fs w' !! dst = Some n).
Proof.
  destruct b.
  - eexists. split; [reflexivity |]. split.
    + intros q Hq. now apply (copyAsync_keeps src dst q).
    + intros _ R n Hn. unfold ignoreErrors, copyAsync, io. cbn [snd].
      rewrite R, Hn. cbn [snd fs log setFs]. apply lookup_insert_eq.
  - exists w. split; [reflexivity |]. split; [reflexivity | discriminate].
Qed.

Lemma exists_infoOf (m : gmap string node) (p : string) (n : node) :
  m !! p = Some n -> exists_ (infoOf (m !! p)) = true.
Proof. intros ->. now destruct n. Qed.

Lemma copySidecars_run (p dest : string) (w : World) :
  (forall suf, p +:+ suf <> dest +:+ "-wal") ->
  exists w',
    copySidecars p dest w = (Ok tt, w') /\
    (forall q, q <> dest +:+ "-wal" -> q <> dest +:+ "-shm" ->
               fs w' !! q = fs w !! q) /\
    (forall suf n, suf = "-wal" \/ suf = "-shm" ->
       fs w !! (p +:+ suf) = Some n ->
       reliable (OInfo (p +:+ suf)) ->
       reliable (OCopy (p +:+ suf) (dest +:+ suf)) ->
       fs w' !! (dest +:+ suf) = Some n).
Proof.
  intros Hdisj. unfold copySidecars.
  destruct (getInfoOrAbsent_run (p +:+ "-wal") w) as (iw & w1 & E1 & F1 & I1).
  destruct (getInfoOrAbsent_run (p +:+ "-shm") w1) as (ishm & w2 & E2 & F2 & I2).
  destruct (copyIfExists_run (exists_ iw) (p +:+ "-wal") (dest +:+ "-wal") w2)
    as (w3 & E3 & K3 & C3).
  destruct (copyIfExists_run (exists_ ishm) (p +:+ "-shm") (dest +:+ "-shm") w3)
    as (w4 & E4 & K4 & C4).
  exists w4. unfold bind. rewrite E1, E2, E3, E4.
  split; [reflexivity |]. split.
  - intros q Hq1 Hq2. rewrite (K4 q Hq2), (K3 q Hq1). congruence.
  - assert (Hne : dest +:+ "-wal" <> dest +:+ "-shm").
    { intros H. apply append_inv_head in H. discriminate. }
    intros suf n [-> | ->] Hn Ri Rc.
    + rewrite (K4 _ Hne). apply C3; [| exact Rc | congruence].
      rewrite (I1 Ri). eapply exists_infoOf; eassumption.
    + apply C4; [| exact Rc |].
      * rewrite (I2 Ri), F1. eapply exists_infoOf; eassumption.
      * rewrite (K3 _ (Hdisj "-shm")). congruence.
Qed.

(** The sidecar steps are best effort: once the path the snapshot is
    copied from is chosen and copied into the backups directory,
    [backupDatabase] returns the artifact whatever happens to the sidecars;
    a [-wal] or [-shm] file that is next to that path then, and whose probe
    and copy do not fail, is next to the artifact with the same content
    afterwards. *)
Theorem sidecars_best_effort (w0 w2 w3 : World) (p dest : string) :
  chooseSource w0 = (Ok p, w2) ->
  copyToBackups p w2 = (Ok dest, w3) ->
  exists w4 : World,
    backupDatabase w0 = (Ok dest, w4) /\
    (forall (suf : string) (n : node),
       suf = "-wal" \/ suf = "-shm" ->
       fs w3 !! (p +:+ suf) = Some n ->
       reliable (OInfo (p +:+ suf)) ->
       reliable (OCopy (p +:+ suf) (dest +:+ suf)) ->
       fs w4 !! (dest +:+ suf) = Some n).
Proof.
  intros Hc Hcp.
  destruct (chooseSource_path _ _ _ Hc) as [name Hname].
  destruct (copyToBackups_spec _ _ _ _ Hcp) as ([k Hdest] & _).
  assert (Hdisj : forall suf, p +:+ suf <> dest +:+ "-wal").
  { intros suf. rewrite Hname, Hdest, !append_assoc. apply sqlite_outsideBackups. }
  destruct (copySidecars_run p dest w3 Hdisj) as (w4 & E & _ & Hside).
  exists (snd (ignoreErrors (getInfoAsync dest) w4)). split.
  - unfold backupDatabase, writeSnapshot, bind. rewrite Hc, Hcp.
    unfold ignoreErrors at 1. rewrite E. reflexivity.
  - intros suf n Hsuf Hn Ri Rc.
    unfold ignoreErrors. cbn [snd].
    rewrite (getInfoAsync_sameFs dest w4). now apply Hside.
Qed.

(** *** The sink chain of [backupNow] *)

(** Close the leaves of [step_through] for [sameSinks]. *)
Ltac quiet :=
  step_through;
  unfold getInfoAsync, copyAsync, moveAsync, deleteAsync, readDirectoryAsync,
    makeDirectoryAsync, readAsStringAsync, writeAsStringAsync;
  first [apply io_sameSinks | apply ext_sameSinks].

Lemma resolveDatabasePath_sameSinks : steps sameSinks resolveDatabasePath.
Proof. unfold resolveDatabasePath, DB_CANDIDATES, probeCandidates. quiet. Qed.

Lemma flushHandles_sameSinks : steps sameSinks flushHandles.
Proof.
  unfold flushHandles. generalize closeDatabaseHandlesForBackup.
  intros helper. quiet.
Qed.

Lemma backupDatabase_sameSinks : steps sameSinks backupDatabase.
Proof.
  unfold backupDatabase, chooseSource, selectSource.
  apply (steps_bind sameSinks).
  - apply (steps_bind sameSinks).
    + apply (steps_bind sameSinks); [apply resolveDatabasePath_sameSinks |].
      intros p. unfold preferCanonical. quiet.
    + intros p. apply (steps_bind sameSinks); [apply flushHandles_sameSinks |].
      intros _. unfold canonicalizeSource. quiet.
  - intros p. unfold writeSnapshot, copyToBackups, copySidecars, getInfoOrAbsent.
    quiet.
Qed.

Lemma setLastBackupTimestamp_sameSinks (d : JsDate) :
  steps sameSinks (setLastBackupTimestamp d).
Proof. unfold setLastBackupTimestamp. quiet. Qed.

Lemma emit_sink (s : sink) (w : World) :
  emit (EvSink s) w = (Ok tt, log (EvSink s) w) /\
  sinksOf (trace (log (EvSink s) w)) = sinksOf (trace w) ++ [s].
Proof. split; [reflexivity |]. cbn [trace log]. now rewrite sinksOf_app. Qed.

(** A sink announces itself, then does what it does without calling
    another sink, and reports a boolean. *)
Lemma announced_run (s : sink) (body : M bool) (w : World) :
  steps sameSinks body ->
  let w' := snd ((emit (EvSink s);;; r <- try_ body;;
                  match r with Ok b => ret b | Throw _ => ret false end) w) in
  sinksOf (trace w') = sinksOf (trace w) ++ [s] /\
  exists b, (emit (EvSink s);;; r <- try_ body;;
             match r with Ok b => ret b | Throw _ => ret false end) w = (Ok b, w').
Proof.
  intros Hbody. destruct (emit_sink s w) as [E Hs].
  unfold bind. rewrite E, try_run.
  pose proof (Hbody (log (EvSink s) w)) as K. unfold sameSinks in K.
  destruct (fst (body (log (EvSink s) w))) as [b|e]; cbn [snd ret];
    (split; [congruence | eexists; reflexivity]).
Qed.

Lemma uploadToGoogleDrive_run (uri : string) (w : World) :
  exists b w', uploadToGoogleDrive uri w = (Ok b, w') /\
    sinksOf (trace w') = sinksOf (trace w) ++ [CloudDrive].
Proof.
  unfold uploadToGoogleDrive.
  match goal with
  | |- context [try_ ?body] =>
      destruct (announced_run CloudDrive body w) as [Hs [b Hb]]; [quiet |]
  end.
  eexists b, _. split; [exact Hb | exact Hs].
Qed.

Lemma uploadBackupIfConfigured_run (uri : string) (w : World) :
  exists b w', uploadBackupIfConfigured uri w = (Ok b, w') /\
    sinksOf (trace w') =
      sinksOf (trace w) ++ (if truthyOpt uploadUrl then [GenericHttp] else []) /\
    (truthyOpt uploadUrl = false -> b = false).
Proof.
  unfold uploadBackupIfConfigured, truthyOpt.
  generalize uploadUrl, authToken. intros url token.
  destruct url as [u|].
  - destruct (Js.truthy u).
    + match goal with
      | |- context [try_ ?body] =>
          destruct (announced_run GenericHttp body w) as [Hs [b Hb]]; [quiet |]
      end.
      eexists b, _. split; [exact Hb |]. split; [exact Hs | discriminate].
    + exists false, w. rewrite app_nil_r. repeat split.
  - exists false, w. rewrite app_nil_r. repeat split.
Qed.

Lemma shareBackup_run (uri : string) (w : World) :
  exists b w',
    (r <- try_ (shareBackup uri);;
     match r with Ok b => ret b | Throw _ => ret false end) w = (Ok b, w') /\
    sinksOf (trace w') = sinksOf (trace w) ++ [ShareSheet].
Proof.
  unfold shareBackup.
  match goal with
  | |- context [bind (emit (EvSink ShareSheet)) (fun _ => ?b)] => set (body := b)
  end.
  assert (K : steps sameSinks body) by (subst body; quiet).
  destruct (emit_sink ShareSheet w) as [E Hs].
  specialize (K (log (EvSink ShareSheet) w)). unfold sameSinks in K.
  unfold bind at 1. rewrite try_run. unfold bind. rewrite E.
  destruct (body (log (EvSink ShareSheet) w)) as [[b|e] w1];
    cbn [fst snd ret] in *; eexists _, _; (split; [reflexivity | congruence]).
Qed.

(** The sinks that a [backupNow] which returns has announced, by the
    flags of its result. *)
Lemma backupNow_sinks (w w' : World) (r : BackupNowResult) :
  backupNow w = (Ok r, w') ->
  exists calls : list sink,
    sinksOf (trace w') = sinksOf (trace w) ++ calls /\
    (googleDrive r = true ->
       calls = [CloudDrive] /\ uploaded r = false /\ shared r = false) /\
    (googleDrive r = false -> uploaded r = true ->
       calls = [CloudDrive; GenericHttp] /\ shared r = false) /\
    (googleDrive r = false -> uploaded r = false ->
       calls = CloudDrive ::
               (if truthyOpt uploadUrl then [GenericHttp] else []) ++ [ShareSheet]).
Proof.
  unfold backupNow. intros H.
  apply bind_Ok_inv in H as (dest & w1 & Hb & H).
  apply bind_Ok_inv in H as (now & w2 & Hn & H).
  injection Hn as <- <-.
  apply bind_Ok_inv in H as ([] & w3 & Ht & H).
  apply bind_Ok_inv in H as (gd & w4 & Hg & H).
  assert (S1 : sinksOf (trace w1) = sinksOf (trace w)).
  { pose proof (backupDatabase_sameSinks w) as K. now rewrite Hb in K. }
  assert (S3 : sinksOf (trace w3) = sinksOf (trace w1)).
  { pose proof (setLastBackupTimestamp_sameSinks (newDate (tick w1)) w1) as K.
    now rewrite Ht in K. }
  destruct (uploadToGoogleDrive_run dest w3) as (gd' & w4' & Hg' & S4).
  rewrite Hg in Hg'. injection Hg' as <- <-.
  destruct gd.
  - injection H as <- <-. exists [CloudDrive]. cbn [googleDrive uploaded shared].
    split; [congruence |]. repeat split; discriminate.
  - apply bind_Ok_inv in H as (up & w5 & Hu & H).
    destruct (uploadBackupIfConfigured_run dest w4) as (up' & w5' & Hu' & S5 & Hcfg).
    rewrite Hu in Hu'. injection Hu' as <- <-.
    apply bind_Ok_inv in H as (sh & w6 & Hs & H).
    injection H as <- <-. cbn [googleDrive uploaded shared].
    destruct up; cbn [negb] in Hs.
    + injection Hs as <- <-.
      destruct (truthyOpt uploadUrl); [| now specialize (Hcfg eq_refl)].
      exists [CloudDrive; GenericHttp].
      split; [rewrite S5, S4, S3, S1, <- app_assoc; reflexivity |].
      repeat split; discriminate.
    + destruct (shareBackup_run dest w5) as (sh' & w6' & Hs' & S6).
      rewrite Hs in Hs'. injection Hs' as <- <-.
      eexists. split.
      * rewrite S6, S5, S4, S3, S1, <- !app_assoc. reflexivity.
      * split; [discriminate |]. split; [discriminate |]. intros _ _.
        reflexivity.
Qed.

Lemma uploadToGoogleDrive_attempt (uri : string) (w : World) :
  exists b w' evs,
    uploadToGoogleDrive uri w = (Ok b, w') /\
    trace w' = trace w ++ evs /\
    cloudAttempt b evs.
Proof.
  unfold uploadToGoogleDrive, cloudAttempt.
  match goal with
  | |- context [try_ ?m] => set (body := m)
  end.
  set (w0 := log (EvSink CloudDrive) w).
  assert (B : exists r w1 ok tail,
            body w0 = (r, w1) /\
            trace w1 = trace w0 ++ EvExt XIsSignedIn ok :: tail /\
            ((r = Ok true /\ ok = true /\
              tail = [EvExt XAccessToken true; EvExt XBackupFolder true;
                      EvExt XDriveUpload true]) \/
             (r <> Ok true /\ (ok = false -> tail = []) /\
              tail ∈ [ [];
                       [EvExt XAccessToken false];
                       [EvExt XAccessToken true; EvExt XBackupFolder false];
                       [EvExt XAccessToken true; EvExt XBackupFolder true;
                        EvExt XDriveUpload false] ]))).
  { subst body. unfold bind at 1. unfold ext at 1.
    destruct (isSignedInToGoogleDrive (tick w0) (fs w0)) as [[signedIn|e] m1].
    2: { eexists _, _, false, []. split; [reflexivity |]. split; [reflexivity |].
         right. split; [discriminate |]. split; [reflexivity |].
         apply list_elem_of_here. }
    set (w1 := log (EvExt XIsSignedIn true) (setFs m1 w0)).
    destruct signedIn; cbn [negb].
    2: { eexists _, _, true, []. split; [reflexivity |]. split; [reflexivity |].
         right. split; [discriminate |]. split; [discriminate |].
         apply list_elem_of_here. }
    unfold bind at 1. unfold ext at 1.
    destruct (getAccessToken (tick w1) (fs w1)) as [[accessToken|e] m2].
    2: { eexists _, _, true, [EvExt XAccessToken false].
         split; [reflexivity |].
         split; [cbn [trace log setFs w1]; rewrite <- !app_assoc; reflexivity |].
         right. split; [discriminate |]. split; [discriminate |].
         apply list_elem_of_further, list_elem_of_here. }
    set (w2 := log (EvExt XAccessToken true) (setFs m2 w1)).
    unfold bind at 1. unfold ext at 1.
    destruct (getOrCreateBackupFolder accessToken (tick w2) (fs w2)) as [[folderId|e] m3].
    2: { eexists _, _, true, [EvExt XAccessToken true; EvExt XBackupFolder false].
         split; [reflexivity |].
         split; [cbn [trace log setFs w2 w1]; rewrite <- !app_assoc; reflexivity |].
         right. split; [discriminate |]. split; [discriminate |].
         do 2 apply list_elem_of_further. apply list_elem_of_here. }
    set (w3 := log (EvExt XBackupFolder true) (setFs m3 w2)).
    unfold bind at 1.
    assert (Name : exists fileName,
      (if Js.truthy (Js.lastSegment uri) then ret (Js.lastSegment uri)
       else stamp <- timestamp;; ret ("debitmanager-" +:+ stamp +:+ ".db")) w3
      = (Ok fileName, w3)).
    { destruct (Js.truthy (Js.lastSegment uri)); eexists; reflexivity. }
    destruct Name as [fileName ->].
    unfold bind at 1. unfold ext at 1.
    destruct (uploadFileToGoogleDrive accessToken uri fileName folderId (tick w3) (fs w3))
      as [[[]|e] m4].
    2: { eexists _, _, true,
           [EvExt XAccessToken true; EvExt XBackupFolder true; EvExt XDriveUpload false].
         split; [reflexivity |].
         split; [cbn [trace log setFs w3 w2 w1]; rewrite <- !app_assoc; reflexivity |].
         right. split; [discriminate |]. split; [discriminate |].
         do 3 apply list_elem_of_further. apply list_elem_of_here. }
    eexists _, _, true,
      [EvExt XAccessToken true; EvExt XBackupFolder true; EvExt XDriveUpload true].
    split; [reflexivity |].
    split; [cbn [trace log setFs w3 w2 w1]; rewrite <- !app_assoc; reflexivity |].
    left. auto. }
  destruct B as (r & w1 & ok & tail & E & T & Shape).
  unfold bind at 1. unfold emit at 1. fold w0.
  unfold bind. rewrite try_run, E. cbn [fst snd].
  assert (T' : trace w1 = trace w ++ EvSink CloudDrive :: EvExt XIsSignedIn ok :: tail).
  { rewrite T. cbn [trace log w0]. now rewrite <- app_assoc. }
  destruct Shape as [(-> & -> & ->) | (Hr & Hok & Hin)].
  - eexists true, w1, _. split; [reflexivity |]. split; [exact T' |].
    eexists _, _. split; [reflexivity |]. auto.
  - exists false, w1. eexists. split.
    { destruct r as [[|]|e]; [now destruct Hr | reflexivity | reflexivity]. }
    split; [exact T' |]. eexists _, _. split; [reflexivity |]. auto.
Qed.

Lemma uploadBackupIfConfigured_attempt (uri : string) (w : World) :
  exists b w' evs,
    uploadBackupIfConfigured uri w = (Ok b, w') /\
    trace w' = trace w ++ evs /\
    httpAttempt uri b evs /\
    (b = true ->
     exists url auth bytes k m response m',
       uploadUrl = Some url /\ fs w !! uri = Some (File bytes) /\
       fetch url auth bytes k m = (Ok response, m') /\ ok response = true).
Proof.
  unfold uploadBackupIfConfigured, httpAttempt, truthyOpt.
  destruct uploadUrl as [url|].
  2: { exists false, w, []. rewrite app_nil_r. repeat split. discriminate. }
  destruct (Js.truthy url).
  2: { exists false, w, []. rewrite app_nil_r. repeat split. discriminate. }
  match goal with
  | |- context [try_ ?m] => set (body := m)
  end.
  set (w0 := log (EvSink GenericHttp) w).
  assert (B : exists r w1 okr tail,
            body w0 = (r, w1) /\
            trace w1 = trace w0 ++ EvIO (ORead uri) okr :: tail /\
            ((r = Ok true /\ okr = true /\ tail = [EvExt XFetch true] /\
              exists auth bytes k m response m',
                fs w !! uri = Some (File bytes) /\
                fetch url auth bytes k m = (Ok response, m') /\ ok response = true) \/
             (r <> Ok true /\
              ((okr = false /\ tail = []) \/
               (okr = true /\ exists answered, tail = [EvExt XFetch answered]))))).
  { subst body. cbn zeta.
    set (auth := match authToken with
                 | Some t => if Js.truthy t then Some ("Bearer " +:+ t) else None
                 | None => None
                 end).
    unfold bind at 1. unfold readAsStringAsync, io.
    destruct (fault (tick w0) (ORead uri)).
    { eexists _, _, false, []. split; [reflexivity |]. split; [reflexivity |].
      right. split; [discriminate | now left]. }
    destruct (fs w0 !! uri) as [[bytes|]|] eqn:E.
    2, 3: eexists _, _, false, []; (split; [reflexivity |]); (split; [reflexivity |]);
          right; (split; [discriminate | now left]).
    set (w1 := log (EvIO (ORead uri) true) (setFs (fs w0) w0)).
    unfold bind at 1. unfold ext at 1.
    destruct (fetch url auth bytes (tick w1) (fs w1)) as [[response|e] m2] eqn:F.
    2: { eexists _, _, true, [EvExt XFetch false]. split; [reflexivity |].
         split; [cbn [trace log setFs w1]; rewrite <- !app_assoc; reflexivity |].
         right. split; [discriminate |]. right. eauto. }
    destruct (ok response) eqn:R; cbn [negb].
    - eexists _, _, true, [EvExt XFetch true]. split; [reflexivity |].
      split; [cbn [trace log setFs w1]; rewrite <- !app_assoc; reflexivity |].
      left. split; [reflexivity |]. split; [reflexivity |]. split; [reflexivity |].
      exists auth, bytes, (tick w1), (fs w1), response, m2. auto.
    - eexists _, _, true, [EvExt XFetch true]. split; [reflexivity |].
      split; [cbn [trace log setFs w1]; rewrite <- !app_assoc; reflexivity |].
      right. split; [discriminate |]. right. eauto. }
  destruct B as (r & w1 & okr & tail & E & T & Shape).
  unfold bind at 1. unfold emit at 1. fold w0.
  unfold bind. rewrite try_run, E. cbn [fst snd].
  assert (T' : trace w1 = trace w ++ EvSink GenericHttp :: EvIO (ORead uri) okr :: tail).
  { rewrite T. cbn [trace log w0]. now rewrite <- app_assoc. }
  destruct Shape as [(-> & -> & -> & auth & bytes & k & m & resp & m' & Hc & F & O) | (Hr & Hs)].
  - eexists true, w1, _. split; [reflexivity |]. split; [exact T' |].
    split; [eexists _, _; split; [reflexivity |]; auto |].
    intros _. exists url, auth, bytes, k, m, resp, m'. auto.
  - exists false, w1. eexists. split.
    { destruct r as [[|]|e]; [now destruct Hr | reflexivity | reflexivity]. }
    split; [exact T' |]. split; [| discriminate].
    eexists _, _. split; [reflexivity |]. exact Hs.
Qed.

Lemma shareBackup_attempt (uri : string) (w : World) :
  exists b w' evs,
    (r <- try_ (shareBackup uri);;
     match r with Ok b => ret b | Throw _ => ret false end) w = (Ok b, w') /\
    trace w' = trace w ++ evs /\
    shareAttempt b evs.
Proof.
  unfold shareAttempt.
  set (w0 := log (EvSink ShareSheet) w).
  assert (B : exists r w1 oka tail,
            shareBackup uri w = (r, w1) /\
            trace w1 = trace w0 ++ EvExt XShareAvailable oka :: tail /\
            ((r = Ok true /\ oka = true /\ tail = [EvExt XShare true]) \/
             (r <> Ok true /\
              (tail = [] \/ (oka = true /\ tail = [EvExt XShare false]))))).
  { unfold shareBackup. unfold bind at 1. unfold emit at 1. fold w0.
    unfold bind at 1. unfold ext at 1.
    destruct (Sharing_isAvailableAsync (tick w0) (fs w0)) as [[available|e] m1].
    2: { eexists _, _, false, []. split; [reflexivity |]. split; [reflexivity |].
         right. split; [discriminate | now left]. }
    set (w1 := log (EvExt XShareAvailable true) (setFs m1 w0)).
    destruct available; cbn [negb].
    2: { eexists _, _, true, []. split; [reflexivity |]. split; [reflexivity |].
         right. split; [discriminate | now left]. }
    unfold bind at 1. unfold ext at 1.
    destruct (Sharing_shareAsync uri (tick w1) (fs w1)) as [[[]|e] m2].
    - eexists _, _, true, [EvExt XShare true]. split; [reflexivity |].
      split; [cbn [trace log setFs w1]; rewrite <- !app_assoc; reflexivity |].
      left. auto.
    - eexists _, _, true, [EvExt XShare false]. split; [reflexivity |].
      split; [cbn [trace log setFs w1]; rewrite <- !app_assoc; reflexivity |].
      right. split; [discriminate |]. right. auto. }
  destruct B as (r & w1 & oka & tail & E & T & Shape).
  unfold bind. rewrite try_run, E. cbn [fst snd].
  assert (T' : trace w1 = trace w ++ EvSink ShareSheet :: EvExt XShareAvailable oka :: tail).
  { rewrite T. cbn [trace log w0]. now rewrite <- app_assoc. }
  destruct Shape as [(-> & -> & ->) | (Hr & Hs)].
  - eexists true, w1, _. split; [reflexivity |]. split; [exact T' |].
    eexists _, _. split; [reflexivity |]. auto.
  - exists false, w1. eexists. split.
    { destruct r as [[|]|e]; [now destruct Hr | reflexivity | reflexivity]. }
    split; [exact T' |]. eexists _, _. split; [reflexivity |]. exact Hs.
Qed.


(** *** Restore from a local file *)

Lemma copyAsync_run (from to : string) (w : World) :
  copyAsync from to w =
    (Throw (IoFailure (OCopy from to)), log (EvIO (OCopy from to) false) w) \/
  exists n, fs w !! from = Some n /\
    copyAsync from to w =
      (Ok tt, log (EvIO (OCopy from to) true) (setFs (<[to := n]> (fs w)) w)).
Proof.
  unfold copyAsync, io. destruct (fault _ _); [now left |].
  destruct (fs w !! from) as [n|]; [right; eauto | now left].
Qed.

Lemma moveAsync_run (from to : string) (w : World) :
  moveAsync from to w =
    (Throw (IoFailure (OMove from to)), log (EvIO (OMove from to) false) w) \/
  exists n, fs w !! from = Some n /\
    moveAsync from to w =
      (Ok tt, log (EvIO (OMove from to) true)
                (setFs (<[to := n]> (delete from (fs w))) w)).
Proof.
  unfold moveAsync, io. destruct (fault _ _); [now left |].
  destruct (fs w !! from) as [n|]; [right; eauto | now left].
Qed.

Lemma deleteAsync_run (uri : string) (w : World) :
  deleteAsync uri w =
    (Throw (IoFailure (ODelete uri)), log (EvIO (ODelete uri) false) w) \/
  deleteAsync uri w =
    (Ok tt, log (EvIO (ODelete uri) true) (setFs (delete uri (fs w)) w)).
Proof. unfold deleteAsync, io. destruct (fault _ _); auto. Qed.

(** A deletion whose failure is ignored leaves one event and every other
    path as it was. *)
Lemma deleteQuietly_run (uri p : string) (w : World) :
  uri <> p ->
  exists ok w', ignoreErrors (deleteAsync uri) w = (Ok tt, w') /\
    trace w' = trace w ++ [EvIO (ODelete uri) ok] /\
    fs w' !! p = fs w !! p.
Proof.
  intros Hne. unfold ignoreErrors.
  destruct (deleteAsync_run uri w) as [E | E]; rewrite E; cbn [snd].
  - exists false. eexists. repeat split.
  - exists true. eexists. split; [reflexivity |]. split; [reflexivity |].
    cbn [fs log setFs]. now apply lookup_delete_ne.
Qed.

Lemma removeStale_run (C D : string) (w : World) :
  exists cl w', removeStale C D w = (Ok tt, w') /\
    trace w' = trace w ++ cl /\
    Forall (deletesOther C) cl /\
    fs w' !! C = fs w !! C.
Proof.
  unfold removeStale.
  assert (Hwal : C +:+ "-wal" <> C) by now apply append_ne_self.
  assert (Hshm : C +:+ "-shm" <> C) by now apply append_ne_self.
  assert (First : exists cl w1,
    (if negb (String.eqb C D) then ignoreErrors (deleteAsync D) else ret tt) w
      = (Ok tt, w1) /\ trace w1 = trace w ++ cl /\
    Forall (deletesOther C) cl /\ fs w1 !! C = fs w !! C).
  { destruct (String.eqb_spec C D) as [E|E]; cbn [negb].
    - exists [], w. rewrite app_nil_r. repeat split. constructor.
    - destruct (deleteQuietly_run D C w) as (ok & w1 & E1 & T1 & F1); [congruence |].
      exists [EvIO (ODelete D) ok], w1. repeat split; try assumption.
      constructor; [| constructor]. exists D, ok. split; [reflexivity | congruence]. }
  destruct First as (cl & w1 & E1 & T1 & A1 & F1).
  destruct (deleteQuietly_run (C +:+ "-wal") C w1 Hwal) as (ok2 & w2 & E2 & T2 & F2).
  destruct (deleteQuietly_run (C +:+ "-shm") C w2 Hshm) as (ok3 & w3 & E3 & T3 & F3).
  exists (cl ++ [EvIO (ODelete (C +:+ "-wal")) ok2; EvIO (ODelete (C +:+ "-shm")) ok3]), w3.
  unfold bind. rewrite E1, E2, E3. split; [reflexivity |]. split.
  - rewrite T3, T2, T1, <- !app_assoc. reflexivity.
  - split; [| congruence].
    apply Forall_app. split; [exact A1 |].
    constructor; [eexists _, _; split; [reflexivity | assumption] |].
    constructor; [eexists _, _; split; [reflexivity | assumption] | constructor].
Qed.

(** The five ways a restore from a local file can go. *)
Lemma restoreFromLocalFile_shapes (uri C D : string) (w : World) :
  let temp := C +:+ ".restore.tmp" in
  exists r evs w',
    restoreFromLocalFile uri C D w = (r, w') /\
    trace w' = trace w ++ evs /\
    ((evs = [EvIO (OCopy uri temp) false] /\ fs w' = fs w /\ r <> Ok tt) \/
     (exists cl, evs = EvIO (OCopy uri temp) true :: EvIO (OMove temp C) true :: cl /\
        Forall (deletesOther C) cl /\ r = Ok tt /\
        is_Some (fs w !! uri) /\ fs w' !! C = fs w !! uri) \/
     (evs = [EvIO (OCopy uri temp) true; EvIO (OMove temp C) false;
             EvIO (OCopy temp C) false] /\
        r <> Ok tt /\ fs w' !! C = fs w !! C) \/
     (evs = [EvIO (OCopy uri temp) true; EvIO (OMove temp C) false;
             EvIO (OCopy temp C) true; EvIO (ODelete temp) false] /\
        r <> Ok tt /\ is_Some (fs w !! uri) /\ fs w' !! C = fs w !! uri) \/
     (exists cl, evs = EvIO (OCopy uri temp) true :: EvIO (OMove temp C) false ::
                       EvIO (OCopy temp C) true :: EvIO (ODelete temp) true :: cl /\
        Forall (deletesOther C) cl /\ r = Ok tt /\
        is_Some (fs w !! uri) /\ fs w' !! C = fs w !! uri)).
Proof.
  intros temp.
  assert (Htemp : temp <> C) by now apply append_ne_self.
  unfold restoreFromLocalFile. fold temp.
  unfold bind at 1.
  destruct (copyAsync_run uri temp w) as [E | (n & Hn & E)]; rewrite E.
  { eexists _, _, _. split; [reflexivity |]. split; [reflexivity |].
    left. repeat split. discriminate. }
  set (w1 := log (EvIO (OCopy uri temp) true) (setFs (<[temp := n]> (fs w)) w)).
  assert (H1 : fs w1 !! temp = Some n) by apply lookup_insert_eq.
  assert (K1 : fs w1 !! C = fs w !! C).
  { cbn [w1 fs log setFs]. now rewrite lookup_insert_ne by exact Htemp. }
  unfold bind at 1, moveIntoPlace, bind at 1. rewrite try_run.
  destruct (moveAsync_run temp C w1) as [Em | (n' & Hn' & Em)]; rewrite Em;
    cbn [fst snd].
  - (* the move failed: copy, then delete the temporary file *)
    set (w2 := log (EvIO (OMove temp C) false) w1).
    unfold bind at 1.
    destruct (copyAsync_run temp C w2) as [Ec | (n2 & Hn2 & Ec)]; rewrite Ec.
    { eexists _, _, _. split; [reflexivity |]. split.
      - cbn [trace log setFs w2 w1]. rewrite <- !app_assoc. reflexivity.
      - right; right; left. repeat split; [discriminate | exact K1]. }
    assert (n2 = n) as -> by (cbn [w2 fs log] in Hn2; congruence).
    set (w3 := log (EvIO (OCopy temp C) true) (setFs (<[C := n]> (fs w2)) w2)).
    assert (K3 : fs w3 !! C = Some n) by apply lookup_insert_eq.
    destruct (deleteAsync_run temp w3) as [Ed | Ed]; rewrite Ed.
    { eexists _, _, _. split; [reflexivity |]. split.
      - cbn [trace log setFs w3 w2 w1]. rewrite <- !app_assoc. reflexivity.
      - right; right; right; left.
        repeat split; [discriminate | eexists; eassumption | cbn [fs log]; congruence]. }
    set (w4 := log (EvIO (ODelete temp) true) (setFs (delete temp (fs w3)) w3)).
    assert (K4 : fs w4 !! C = Some n).
    { cbn [w4 fs log setFs]. now rewrite lookup_delete_ne by exact Htemp. }
    destruct (removeStale_run C D w4) as (cl & w5 & Er & Tr & Ar & Fr).
    rewrite Er. eexists _, _, _. split; [reflexivity |]. split.
    + rewrite Tr. cbn [trace log setFs w4 w3 w2 w1]. rewrite <- !app_assoc.
      reflexivity.
    + right; right; right; right. exists cl.
      repeat split; [exact Ar | eexists; eassumption | congruence].
  - (* the move succeeded *)
    assert (n' = n) as -> by congruence.
    set (w2 := log (EvIO (OMove temp C) true)
                 (setFs (<[C := n]> (delete temp (fs w1))) w1)).
    assert (K2 : fs w2 !! C = Some n) by apply lookup_insert_eq.
    cbn [ret].
    destruct (removeStale_run C D w2) as (cl & w3 & Er & Tr & Ar & Fr).
    rewrite Er. eexists _, _, _. split; [reflexivity |]. split.
    + rewrite Tr. cbn [trace log setFs w2 w1]. rewrite <- !app_assoc. reflexivity.
    + right; left. exists cl.
      repeat split; [exact Ar | eexists; eassumption | congruence].
Qed.

Lemma cons_split {A} (x : A) (l pre : list A) (e : A) (post : list A) :
  x :: l = pre ++ e :: post ->
  (pre = [] /\ e = x /\ post = l) \/
  (exists pre', pre = x :: pre' /\ l = pre' ++ e :: post).
Proof.
  destruct pre as [|y pre']; cbn; intros H; injection H as Hx Hl; subst.
  - left. auto.
  - right. eauto.
Qed.

Lemma nil_split {A} (pre : list A) (e : A) (post : list A) :
  [] = pre ++ e :: post -> False.
Proof. destruct pre; discriminate. Qed.

Lemma modifies_deletesOther (C : string) (cl pre post : list event) (op : Op) :
  Forall (deletesOther C) cl ->
  cl = pre ++ EvIO op true :: post ->
  modifies op C = false.
Proof.
  intros HF ->. apply Forall_app in HF as [_ HF].
  inversion HF as [|? ? Hd _]; subst.
  destruct Hd as (x & ok & Heq & Hx). injection Heq as -> _.
  cbn [modifies]. now apply String.eqb_neq.
Qed.

(** Take the next event off an explicit trace. *)
Ltac peel H :=
  let pre' := fresh "pre" in
  first
    [ apply nil_split in H; contradiction
    | apply cons_split in H as [(-> & H & _) | (pre' & -> & H)] ].

(** **** C2: in a restore from a local file, whatever fails, the only
    calls that ever write to or remove the canonical path are the move and
    the fallback copy from the temporary path beside it, and they come
    after the inbound file has been copied to that temporary path; the
    bare file is deleted only after one of them has succeeded; and the
    canonical path ends up holding either what it held or the whole
    inbound file. *)
Theorem local_restore_stages_first (uri C D : string) (w : World) :
  let temp := C +:+ ".restore.tmp" in
  let w' := snd (restoreFromLocalFile uri C D w) in
  exists evs : list event,
    trace w' = trace w ++ evs /\
    (forall pre op post,
       evs = pre ++ EvIO op true :: post -> modifies op C = true ->
       (op = OMove temp C \/ op = OCopy temp C) /\
       EvIO (OCopy uri temp) true ∈ pre) /\
    (forall pre post,
       evs = pre ++ EvIO (ODelete D) true :: post ->
       EvIO (OMove temp C) true ∈ pre \/ EvIO (OCopy temp C) true ∈ pre) /\
    (fs w' !! C = fs w !! C \/
     (is_Some (fs w !! uri) /\ fs w' !! C = fs w !! uri)) /\
    (fst (restoreFromLocalFile uri C D w) = Ok tt ->
     is_Some (fs w !! uri) /\ fs w' !! C = fs w !! uri).
Proof.
  intros temp w'.
  assert (Htemp : temp <> C) by now apply append_ne_self.
  assert (Mtemp : String.eqb temp C = false) by now apply String.eqb_neq.
  destruct (restoreFromLocalFile_shapes uri C D w) as (r & evs & w1 & E & T & Shape).
  fold temp in Shape. subst w'. rewrite E. cbn [fst snd].
  exists evs. split; [exact T |].
  destruct Shape as [(-> & F & Hr) | [(cl & -> & Acl & -> & Hs & F) |
    [(-> & Hr & F) | [(-> & Hr & Hs & F) | (cl & -> & Acl & -> & Hs & F)]]]].
  - (* the staging copy failed *)
    split; [| split; [| split]].
    + intros pre op post H. peel H; [discriminate | peel H].
    + intros pre post H. peel H; [discriminate | peel H].
    + left. now rewrite F.
    + intros Hok. now destruct Hr.
  - (* staged, moved *)
    split; [| split; [| split; [right; now split | intros _; now split]]].
    + intros pre op post H M. peel H.
      { injection H as ->. cbn [modifies] in M. congruence. }
      peel H.
      { injection H as ->. split; [now left | apply list_elem_of_here]. }
      rewrite (modifies_deletesOther _ _ _ _ _ Acl H) in M. discriminate.
    + intros pre post H. peel H; [discriminate |]. peel H; [discriminate |].
      left. apply list_elem_of_further, list_elem_of_here.
  - (* staged, neither the move nor the copy went through *)
    split; [| split; [| split]].
    + intros pre op post H M. peel H.
      { injection H as ->. cbn [modifies] in M. congruence. }
      peel H; [discriminate |]. peel H; [discriminate | peel H].
    + intros pre post H. peel H; [discriminate |]. peel H; [discriminate |].
      peel H; [discriminate | peel H].
    + now left.
    + intros Hok. now destruct Hr.
  - (* staged, copied, the temporary file could not be deleted *)
    split; [| split; [| split; [right; now split | intros _; now split]]].
    + intros pre op post H M. peel H.
      { injection H as ->. cbn [modifies] in M. congruence. }
      peel H; [discriminate |]. peel H.
      { injection H as ->. split; [now right | apply list_elem_of_here]. }
      peel H; [discriminate | peel H].
    + intros pre post H. peel H; [discriminate |]. peel H; [discriminate |].
      peel H; [discriminate |]. peel H; [discriminate | peel H].
  - (* staged, copied, temporary file deleted *)
    split; [| split; [| split; [right; now split | intros _; now split]]].
    + intros pre op post H M. peel H.
      { injection H as ->. cbn [modifies] in M. congruence. }
      peel H; [discriminate |]. peel H.
      { injection H as ->. split; [now right | apply list_elem_of_here]. }
      peel H.
      { injection H as ->. cbn [modifies] in M. congruence. }
      rewrite (modifies_deletesOther _ _ _ _ _ Acl H) in M. discriminate.
    + intros pre post H. peel H; [discriminate |]. peel H; [discriminate |].
      peel H; [discriminate |].
      right. apply list_elem_of_further, list_elem_of_further, list_elem_of_here.
Qed.

(** *** Rollback *)

Global Instance later_preorder : PreOrder later.
Proof. split; unfold later; [intros w; lia | intros a b c H1 H2; lia]. Qed.

Lemma io_later {A} (op : Op) (run : gmap string node -> option (A * gmap string node)) :
  steps later (io op run).
Proof.
  intros w. unfold io, later, tick.
  destruct (fault _ op); [| destruct (run (fs w)) as [[a m']|]];
    cbn [snd trace log setFs]; rewrite length_app; lia.
Qed.

Lemma resolveDatabasePath_later : steps later resolveDatabasePath.
Proof.
  unfold resolveDatabasePath, DB_CANDIDATES, probeCandidates.
  step_through; unfold getInfoAsync, readDirectoryAsync; apply io_later.
Qed.

Lemma endsWith_CANONICAL : Js.endsWith CANONICAL ".db" = true.
Proof.
  unfold CANONICAL.
  replace (SQLITE_DIR +:+ "debitmanager.db")
    with ((SQLITE_DIR +:+ "debitmanager") +:+ ".db")
    by (now rewrite append_assoc).
  apply endsWith_app.
Qed.

Lemma canonicalOf_CANONICAL : canonicalOf CANONICAL = CANONICAL.
Proof. unfold canonicalOf. now rewrite endsWith_CANONICAL. Qed.

Global Instance extends_preorder : PreOrder extends.
Proof.
  split; unfold extends.
  - intros w. exists []. now rewrite app_nil_r.
  - intros a b c [e1 H1] [e2 H2]. exists (e1 ++ e2). now rewrite H2, H1, app_assoc.
Qed.

Lemma io_extends {A} (op : Op) (run : gmap string node -> option (A * gmap string node)) :
  steps extends (io op run).
Proof.
  intros w. unfold io, extends.
  destruct (fault _ op); [| destruct (run (fs w)) as [[a m']|]];
    cbn [snd trace log setFs]; eexists; reflexivity.
Qed.

(** Every run of the resolver only adds to the trace. *)
Lemma resolveDatabasePath_trace : steps extends resolveDatabasePath.
Proof.
  unfold resolveDatabasePath, DB_CANDIDATES, probeCandidates.
  step_through; unfold getInfoAsync, readDirectoryAsync; apply io_extends.
Qed.

Lemma rollbackTarget_run (w : World) :
  exists target w1, rollbackTarget w = (Ok target, w1) /\
    fs w1 = fs w /\ later w w1 /\
    (exists evs, trace w1 = trace w ++ evs) /\
    (isRegular (infoOf (fs w !! CANONICAL)) = true ->
     fault (tick w) (OInfo CANONICAL) = false -> target = CANONICAL).
Proof.
  unfold rollbackTarget, bind. rewrite try_run.
  pose proof (resolveDatabasePath_sameFs w) as Kf.
  pose proof (resolveDatabasePath_later w) as Kl.
  pose proof (resolveDatabasePath_trace w) as Kt. unfold extends in Kt.
  destruct (resolveDatabasePath w) as [[q|e] w1] eqn:E; cbn [fst snd ret] in *.
  - exists (canonicalOf q), w1. repeat split; try assumption.
    intros Hreg Hf. rewrite (resolve_canonical w Hf Hreg) in E.
    injection E as <- _. apply canonicalOf_CANONICAL.
  - exists CANONICAL, w1. repeat split; assumption || reflexivity.
Qed.

Lemma onlyMovesFailFrom_later (w w' : World) :
  later w w' -> onlyMovesFailFrom w -> onlyMovesFailFrom w'.
Proof. unfold later, onlyMovesFailFrom. intros L H k op Hk. apply H. lia. Qed.

Lemma no_fault_now (w : World) (op : Op) :
  onlyMovesFailFrom w -> (forall a b, op <> OMove a b) ->
  fault (tick w) op = false.
Proof.
  intros H Hop. destruct (fault (tick w) op) eqn:F; [| reflexivity].
  destruct (H _ _ (Nat.le_refl _) F) as (a & b & ->). now destruct (Hop a b).
Qed.

Lemma later_log (e : event) (w : World) : later w (log e w).
Proof. unfold later, tick. cbn [trace log]. rewrite length_app. cbn. lia. Qed.

Lemma copyAsync_ok (from to : string) (w : World) (n : node) :
  onlyMovesFailFrom w -> fs w !! from = Some n ->
  copyAsync from to w =
    (Ok tt, log (EvIO (OCopy from to) true) (setFs (<[to := n]> (fs w)) w)).
Proof.
  intros H Hn. unfold copyAsync, io.
  rewrite (no_fault_now w _ H) by discriminate. now rewrite Hn.
Qed.

Lemma deleteAsync_ok (uri : string) (w : World) :
  onlyMovesFailFrom w ->
  deleteAsync uri w =
    (Ok tt, log (EvIO (ODelete uri) true) (setFs (delete uri (fs w)) w)).
Proof.
  intros H. unfold deleteAsync, io.
  now rewrite (no_fault_now w _ H) by discriminate.
Qed.

Lemma moveIntoPlace_run (tmp target : string) (w : World) (n : node) :
  tmp <> target -> fs w !! tmp = Some n -> onlyMovesFailFrom w ->
  exists w' mv, moveIntoPlace tmp target w = (Ok tt, w') /\
    trace w' = trace w ++ mv /\
    (mv = [EvIO (OMove tmp target) true] \/
     mv = [EvIO (OMove tmp target) false; EvIO (OCopy tmp target) true;
           EvIO (ODelete tmp) true]) /\
    fs w' !! target = Some n /\ onlyMovesFailFrom w'.
Proof.
  intros Hne Hn Hf. unfold moveIntoPlace, bind. rewrite try_run.
  destruct (moveAsync_run tmp target w) as [E | (n' & Hn' & E)]; rewrite E;
    cbn [fst snd ret].
  - set (w1 := log (EvIO (OMove tmp target) false) w).
    assert (F1 : onlyMovesFailFrom w1)
      by (eapply onlyMovesFailFrom_later; [apply later_log | exact Hf]).
    rewrite (copyAsync_ok tmp target w1 n F1 Hn).
    set (w2 := log _ (setFs _ w1)).
    assert (F2 : onlyMovesFailFrom w2)
      by (eapply onlyMovesFailFrom_later; [apply (later_log _ (setFs _ w1)) | exact F1]).
    rewrite (deleteAsync_ok tmp w2 F2).
    eexists _, _. split; [reflexivity |]. split.
    { cbn [trace log setFs w2 w1]. rewrite <- !app_assoc. reflexivity. }
    split; [now right |]. split.
    + cbn [fs log setFs w2 w1]. rewrite lookup_delete_ne by exact Hne.
      apply lookup_insert_eq.
    + eapply onlyMovesFailFrom_later; [apply (later_log _ (setFs _ w2)) | exact F2].
  - assert (n' = n) as -> by congruence.
    eexists _, _. split; [reflexivity |]. split; [reflexivity |].
    split; [now left |]. split.
    + cbn [fs log setFs]. apply lookup_insert_eq.
    + eapply onlyMovesFailFrom_later; [apply (later_log _ (setFs _ w)) | exact Hf].
Qed.

Lemma rollbackFrom_run (snap : string) (w : World) (n : node) :
  fs w !! snap = Some n ->
  onlyMovesFailFrom w ->
  (forall k m, reloadApp k m = (Ok tt, m)) ->
  exists target w' pre mv,
    let tmp := target +:+ ".rollback.tmp" in
    rollbackFrom snap w = (Ok tt, w') /\
    trace w' = trace w ++ pre ++ [EvIO (OCopy snap tmp) true] ++ mv ++
               [EvExt XReload true; EvAlert "Restore failed" (Text rolledBackMessage)] /\
    (mv = [EvIO (OMove tmp target) true] \/
     mv = [EvIO (OMove tmp target) false; EvIO (OCopy tmp target) true;
           EvIO (ODelete tmp) true]) /\
    fs w' !! target = Some n /\
    (isRegular (infoOf (fs w !! CANONICAL)) = true -> target = CANONICAL).
Proof.
  intros Hn Hf Hreload.
  destruct (rollbackTarget_run w) as (target & w1 & Et & Ft & Lt & [pre Tt] & Ct).
  assert (F1 : onlyMovesFailFrom w1) by (eapply onlyMovesFailFrom_later; eassumption).
  assert (Hn1 : fs w1 !! snap = Some n) by congruence.
  set (tmp := target +:+ ".rollback.tmp").
  set (w2 := log (EvIO (OCopy snap tmp) true) (setFs (<[tmp := n]> (fs w1)) w1)).
  assert (F2 : onlyMovesFailFrom w2)
    by (eapply onlyMovesFailFrom_later; [apply (later_log _ (setFs _ w1)) | exact F1]).
  assert (Htmp : tmp <> target) by now apply append_ne_self.
  destruct (moveIntoPlace_run tmp target w2 n Htmp (lookup_insert_eq _ _ _) F2)
    as (w3 & mv & Em & Tm & Sm & Fm & F3).
  exists target,
    (log (EvAlert "Restore failed" (Text rolledBackMessage))
       (log (EvExt XReload true) (setFs (fs w3) w3))), pre, mv.
  cbn zeta. fold tmp.
  unfold rollbackFrom, bind. rewrite Et. fold tmp.
  rewrite (copyAsync_ok snap tmp w1 n F1 Hn1). fold w2. rewrite Em.
  unfold ext, emit. rewrite Hreload.
  split; [reflexivity |]. split.
  { cbn [trace log setFs]. rewrite Tm. cbn [trace log setFs w2]. rewrite Tt.
    rewrite <- !app_assoc. reflexivity. }
  split; [exact Sm |]. split.
  - cbn [fs log setFs]. exact Fm.
  - intros Hreg. apply Ct; [exact Hreg |].
    apply no_fault_now; [exact Hf | discriminate].
Qed.

Lemma truthy_append (a b : string) : Js.truthy b = true -> Js.truthy (a +:+ b) = true.
Proof. destruct a; [now cbn | reflexivity]. Qed.

Lemma releaseHandlesBeforeSnapshot_run (w : World) :
  releaseHandlesBeforeSnapshot w = (Ok tt, snd (releaseHandlesBeforeSnapshot w)).
Proof.
  unfold releaseHandlesBeforeSnapshot. generalize coreDbHelper.
  intros [cb|]; reflexivity.
Qed.

Lemma preferCanonical_db (p : string) (w w' : World) (q : string) :
  Js.endsWith p ".db" = true -> preferCanonical p w = (Ok q, w') -> q = p.
Proof.
  intros He. unfold preferCanonical, bind, ret. rewrite He, try_run.
  destruct (fst _) as [info|e]; [destruct (isRegular info) |];
    now intros [= <- _].
Qed.

Lemma selectSource_canonical (w w' : World) (src : string) :
  selectSource w = (Ok src, w') ->
  isRegular (infoOf (fs w !! CANONICAL)) = true ->
  fault (tick w) (OInfo CANONICAL) = false ->
  src = CANONICAL.
Proof.
  unfold selectSource, bind. intros H Hreg Hf.
  rewrite (resolve_canonical w Hf Hreg) in H.
  now apply preferCanonical_db in H; [| apply endsWith_CANONICAL].
Qed.

Lemma truthy_append_l (a b : string) : Js.truthy a = true -> Js.truthy (a +:+ b) = true.
Proof. now destruct a. Qed.

Lemma takePreRestoreSnapshot_Some (w w' : World) (snap : string) :
  takePreRestoreSnapshot w = (Ok (Some snap), w') ->
  backupDatabase w = (Ok snap, w') /\ Js.truthy snap = true.
Proof.
  unfold takePreRestoreSnapshot, bind. rewrite try_run.
  destruct (backupDatabase w) as [[u|e] wb] eqn:E; cbn [fst snd ret];
    intros H; injection H as H1 H2; [| discriminate H1]. subst.
  split; [reflexivity |].
  destruct (backupDatabase_name _ _ _ E) as [k ->].
  apply truthy_append_l. unfold BACKUP_DIR. now apply truthy_append.
Qed.

Lemma handleRestoreBackup_unfold (w0 w2 : World) (osnap : option string) :
  let w1 := snd ((emit (EvSetIsRestoring true);;; releaseHandlesBeforeSnapshot) w0) in
  takePreRestoreSnapshot w1 = (Ok osnap, w2) ->
  handleRestoreBackup w0 = guarded osnap restoreBody w2.
Proof.
  intros w1 Ht. unfold handleRestoreBackup.
  unfold bind at 1. unfold emit at 1.
  assert (E1 : w1 = snd (releaseHandlesBeforeSnapshot (log (EvSetIsRestoring true) w0)))
    by reflexivity.
  unfold bind at 1. rewrite releaseHandlesBeforeSnapshot_run, <- E1.
  unfold bind at 1. now rewrite Ht.
Qed.


(* ===================================================================== *)
(** ** Further properties of the program *)
(* ===================================================================== *)

(** *** More relations kept by every step *)

Global Instance onlyAdds_preorder (P : event -> Prop) : PreOrder (onlyAdds P).
Proof.
  split; unfold onlyAdds.
  - intros w. exists []. rewrite app_nil_r. split; [reflexivity | constructor].
  - intros a b c (e1 & H1 & F1) (e2 & H2 & F2). exists (e1 ++ e2).
    rewrite H2, H1, app_assoc. split; [reflexivity | now apply Forall_app].
Qed.

Lemma io_onlyAdds {A} (P : event -> Prop) (op : Op)
    (run : gmap string node -> option (A * gmap string node)) :
  (forall ok, P (EvIO op ok)) -> steps (onlyAdds P) (io op run).
Proof.
  intros HP w. unfold io, onlyAdds.
  destruct (fault _ op); [| destruct (run (fs w)) as [[a m']|]];
    cbn [snd trace log setFs]; eexists; (split; [reflexivity |]);
    constructor; auto.
Qed.

Lemma ext_onlyAdds {A} (P : event -> Prop) (call : Ext) (f : Outside A) :
  (forall ok, P (EvExt call ok)) -> steps (onlyAdds P) (ext call f).
Proof.
  intros HP w. unfold ext, onlyAdds. destruct (f (tick w) (fs w)) as [r m'].
  cbn [snd trace log setFs]. eexists. split; [reflexivity |]. constructor; auto.
Qed.

Lemma emit_onlyAdds (P : event -> Prop) (e : event) :
  P e -> steps (onlyAdds P) (emit e).
Proof.
  intros HP w. unfold emit, onlyAdds. cbn [snd trace log].
  eexists. split; [reflexivity |]. constructor; auto.
Qed.

Lemma ext_later {A} (call : Ext) (f : Outside A) : steps later (ext call f).
Proof.
  intros w. unfold ext, later, tick. destruct (f _ (fs w)) as [r m'].
  cbn [snd trace log setFs]. rewrite length_app. lia.
Qed.

Lemma emit_later (e : event) : steps later (emit e).
Proof. intros w. apply later_log. Qed.

(** Close the leaves of [step_through] for [later]. *)
Ltac onward :=
  step_through;
  unfold getInfoAsync, copyAsync, moveAsync, deleteAsync, readDirectoryAsync,
    makeDirectoryAsync, readAsStringAsync, writeAsStringAsync;
  first [apply io_later | apply ext_later | apply emit_later].

Global Instance safeFor_preorder (n : node) : PreOrder (safeFor n).
Proof. split; unfold safeFor; [now intros w | intros a b c H1 H2; auto]. Qed.

(** Two URIs below the same root differ when their remainders do. *)
Ltac pneq :=
  unfold BARE, CANONICAL, SQLITE_DIR, BACKUP_DIR, META_FILE;
  rewrite ?append_assoc;
  let H := fresh "H" in
  intros H; apply append_inv_head in H; simpl in H; congruence.

(** Look a path up in a file system written as inserts and deletes. *)
Ltac fs_simpl :=
  repeat first
    [ rewrite lookup_insert_eq
    | rewrite lookup_delete_eq
    | rewrite lookup_insert_ne by pneq
    | rewrite lookup_delete_ne by pneq ].

Lemma getInfoOrAbsent_ok (uri : string) (w : World) :
  onlyMovesFailFrom w ->
  getInfoOrAbsent uri w =
    (Ok (infoOf (fs w !! uri)), log (EvIO (OInfo uri) true) w).
Proof.
  intros H. unfold getInfoOrAbsent, bind, ret. rewrite try_run.
  rewrite getInfoAsync_ok by (apply no_fault_now; [exact H | discriminate]).
  reflexivity.
Qed.

Lemma onlyMovesFailFrom_log (e : event) (w : World) (m : gmap string node) :
  onlyMovesFailFrom w -> onlyMovesFailFrom (log e (setFs m w)).
Proof.
  intros H. eapply onlyMovesFailFrom_later; [| exact H].
  apply (later_log e (setFs m w)).
Qed.

Lemma onlyMovesFailFrom_log' (e : event) (w : World) :
  onlyMovesFailFrom w -> onlyMovesFailFrom (log e w).
Proof. intros H. eapply onlyMovesFailFrom_later; [apply later_log | exact H]. Qed.

(** *** File name migration of the root layout *)

(** With nothing but moves failing, the file ends up under its new name
    only. *)
Lemma moveOrCopyQuietly_run (from to : string) (w : World) (n : node) :
  from <> to -> fs w !! from = Some n -> onlyMovesFailFrom w ->
  exists w', moveOrCopyQuietly from to w = (Ok tt, w') /\
    fs w' = <[to := n]> (delete from (fs w)) /\ onlyMovesFailFrom w'.
Proof.
  intros Hne Hn Hf. unfold moveOrCopyQuietly, bind. rewrite try_run.
  destruct (moveAsync_run from to w) as [E | (n' & Hn' & E)]; rewrite E;
    cbn [fst snd ret].
  - set (w1 := log (EvIO (OMove from to) false) w).
    assert (F1 : onlyMovesFailFrom w1) by now apply onlyMovesFailFrom_log'.
    unfold ignoreErrors, bind.
    rewrite (copyAsync_ok from to w1 n F1 Hn).
    set (w2 := log _ (setFs _ w1)).
    assert (F2 : onlyMovesFailFrom w2) by now apply onlyMovesFailFrom_log.
    rewrite (deleteAsync_ok from w2 F2). cbn [snd].
    eexists. split; [reflexivity |]. split.
    + cbn [fs log setFs w2 w1]. now apply delete_insert_ne.
    + now apply onlyMovesFailFrom_log.
  - assert (n' = n) as -> by congruence.
    eexists. split; [reflexivity |]. split; [reflexivity |].
    now apply onlyMovesFailFrom_log.
Qed.

Lemma migrateSidecar_run (bare canonical suffix : string) (w : World) :
  bare +:+ suffix <> canonical +:+ suffix -> onlyMovesFailFrom w ->
  exists w', migrateSidecar bare canonical suffix w = (Ok tt, w') /\
    fs w' = match fs w !! (bare +:+ suffix) with
            | Some s => <[canonical +:+ suffix := s]> (delete (bare +:+ suffix) (fs w))
            | None => fs w
            end /\
    onlyMovesFailFrom w'.
Proof.
  intros Hne Hf. unfold migrateSidecar, bind.
  rewrite (getInfoOrAbsent_ok _ w Hf).
  set (w1 := log _ w).
  assert (F1 : onlyMovesFailFrom w1) by now apply onlyMovesFailFrom_log'.
  destruct (fs w !! (bare +:+ suffix)) as [s|] eqn:E.
  - replace (exists_ (infoOf (Some s))) with true by now destruct s.
    destruct (moveOrCopyQuietly_run _ _ w1 s Hne E F1) as (w' & E' & Fs & F').
    exists w'. auto.
  - cbn [infoOf exists_]. exists w1. auto.
Qed.

Lemma migrateLegacyFile_quiet (w : World) :
  migrateLegacyFile w = (Ok tt, snd (migrateLegacyFile w)).
Proof. reflexivity. Qed.

(** **** X1: when only the bare [debitmanager] exists and nothing but a
    move fails, the migration of the root layout leaves the database
    under [debitmanager.db] only, and the WAL and SHM files that were next
    to the bare file next to the new name only. *)
Theorem migrate_moves_legacy (w : World) (n : node) :
  fs w !! BARE = Some n ->
  fs w !! CANONICAL = None ->
  onlyMovesFailFrom w ->
  let w' := snd (migrateLegacyFile w) in
  fs w' !! CANONICAL = Some n /\
  fs w' !! BARE = None /\
  (forall suffix, suffix = "-wal" \/ suffix = "-shm" ->
     fs w' !! (BARE +:+ suffix) = None /\
     fs w' !! (CANONICAL +:+ suffix) =
       match fs w !! (BARE +:+ suffix) with
       | Some s => Some s
       | None => fs w !! (CANONICAL +:+ suffix)
       end).
Proof.
  intros Hb Hc Hf. cbn zeta.
  unfold migrateLegacyFile, ignoreErrors, bind. cbn [snd]. fold BARE CANONICAL.
  rewrite (getInfoOrAbsent_ok BARE w Hf).
  set (w1 := log _ w).
  assert (F1 : onlyMovesFailFrom w1) by now apply onlyMovesFailFrom_log'.
  rewrite (getInfoOrAbsent_ok CANONICAL w1 F1).
  set (w2 := log _ w1).
  assert (F2 : onlyMovesFailFrom w2) by now apply onlyMovesFailFrom_log'.
  cbn [fs log w1]. rewrite Hb, Hc.
  replace (exists_ (infoOf (Some n))) with true by now destruct n.
  cbn [infoOf exists_ negb andb].
  destruct (moveOrCopyQuietly_run BARE CANONICAL w2 n) as (w3 & E3 & Fs3 & F3);
    [pneq | exact Hb | exact F2 |].
  rewrite E3.
  destruct (migrateSidecar_run BARE CANONICAL "-wal" w3) as (w4 & E4 & Fs4 & F4);
    [pneq | exact F3 |].
  rewrite E4.
  destruct (migrateSidecar_run BARE CANONICAL "-shm" w4) as (w5 & E5 & Fs5 & F5);
    [pneq | exact F4 |].
  rewrite E5. cbn [snd].
  assert (L3 : forall q, q <> BARE -> q <> CANONICAL -> fs w3 !! q = fs w !! q).
  { intros q H1 H2. rewrite Fs3.
    rewrite lookup_insert_ne by congruence.
    now rewrite lookup_delete_ne by congruence. }
  assert (Wal : fs w3 !! (BARE +:+ "-wal") = fs w !! (BARE +:+ "-wal"))
    by (apply L3; pneq).
  assert (Shm : fs w4 !! (BARE +:+ "-shm") = fs w !! (BARE +:+ "-shm")).
  { rewrite Fs4. destruct (fs w3 !! (BARE +:+ "-wal")); fs_simpl; apply L3; pneq. }
  rewrite Wal in Fs4. rewrite Shm in Fs5.
  assert (C3 : fs w3 !! CANONICAL = Some n) by (rewrite Fs3; fs_simpl; reflexivity).
  assert (B3 : fs w3 !! BARE = None) by (rewrite Fs3; fs_simpl; reflexivity).
  split; [| split].
  - rewrite Fs5, Fs4.
    destruct (fs w !! (BARE +:+ "-shm")), (fs w !! (BARE +:+ "-wal"));
      fs_simpl; exact C3.
  - rewrite Fs5, Fs4.
    destruct (fs w !! (BARE +:+ "-shm")), (fs w !! (BARE +:+ "-wal"));
      fs_simpl; exact B3.
  - intros suffix [-> | ->]; rewrite Fs5, Fs4.
    + destruct (fs w !! (BARE +:+ "-shm")), (fs w !! (BARE +:+ "-wal"));
        fs_simpl; (split; [reflexivity || (rewrite Wal; reflexivity) |]);
        try reflexivity; try (apply L3; pneq).
    + destruct (fs w !! (BARE +:+ "-shm")) eqn:Es, (fs w !! (BARE +:+ "-wal"));
        fs_simpl; (split; [reflexivity || (rewrite L3 by pneq; exact Es) |]);
        try reflexivity; try (apply L3; pneq).
Qed.

Lemma moveAsync_keeps (from to p : string) :
  p <> from -> p <> to -> steps (keeps p) (moveAsync from to).
Proof.
  intros H1 H2. prim; unfold keeps; cbn [fs log setFs]; try reflexivity;
    rewrite lookup_insert_ne by congruence; now rewrite lookup_delete_ne by congruence.
Qed.

Lemma deleteAsync_keeps (uri p : string) :
  p <> uri -> steps (keeps p) (deleteAsync uri).
Proof.
  intros H1. prim; unfold keeps; cbn [fs log setFs]; try reflexivity.
  now rewrite lookup_delete_ne by congruence.
Qed.

Lemma moveOrCopyQuietly_keeps (from to p : string) :
  p <> from -> p <> to -> steps (keeps p) (moveOrCopyQuietly from to).
Proof.
  intros H1 H2. unfold moveOrCopyQuietly. step_through;
    first [ now apply moveAsync_keeps | now apply copyAsync_keeps
          | now apply deleteAsync_keeps ].
Qed.

Lemma migrateSidecar_keeps (bare canonical suffix p : string) :
  p <> bare +:+ suffix -> p <> canonical +:+ suffix ->
  steps (keeps p) (migrateSidecar bare canonical suffix).
Proof.
  intros H1 H2. unfold migrateSidecar. step_through;
    first [ apply sameFs_keeps, getInfoOrAbsent_sameFs
          | now apply moveOrCopyQuietly_keeps ].
Qed.

Lemma keeps_safeFor {A} (m : M A) (n : node) :
  steps (keeps BARE) m -> steps (keeps CANONICAL) m -> steps (safeFor n) m.
Proof.
  intros Hb Hc w. specialize (Hb w). specialize (Hc w).
  unfold keeps, safeFor, stillThere in *. now rewrite Hb, Hc.
Qed.

Lemma moveOrCopyQuietly_safe (n : node) :
  steps (safeFor n) (moveOrCopyQuietly BARE CANONICAL).
Proof.
  assert (Hne : BARE <> CANONICAL) by pneq.
  intros w Hs. unfold moveOrCopyQuietly, bind. rewrite try_run.
  assert (Same : forall n', fs w !! BARE = Some n' -> n' = n /\ fs w !! BARE = Some n).
  { intros n' Hn'. destruct Hs as [Hs | [Hs _]]; [| congruence].
    split; congruence. }
  destruct (moveAsync_run BARE CANONICAL w) as [E | (n' & Hn' & E)]; rewrite E;
    cbn [fst snd ret].
  - unfold ignoreErrors, bind.
    destruct (copyAsync_run BARE CANONICAL (log (EvIO (OMove BARE CANONICAL) false) w))
      as [E1 | (n1 & H1 & E1)]; rewrite E1; cbn [snd]; [exact Hs |].
    cbn [fs log] in H1. destruct (Same n1 H1) as [-> Hb].
    match goal with |- context [deleteAsync ?u ?x] =>
      destruct (deleteAsync_run u x) as [E2 | E2] end; rewrite E2;
      unfold stillThere; cbn [snd fs log setFs].
    + left. now rewrite lookup_insert_ne by congruence.
    + right. rewrite lookup_delete_eq, lookup_delete_ne by congruence.
      now rewrite lookup_insert_eq.
  - destruct (Same n' Hn') as [-> Hb]. unfold stillThere. cbn [fs log setFs].
    right. rewrite lookup_insert_ne by congruence.
    now rewrite lookup_delete_eq, lookup_insert_eq.
Qed.

(** **** X2: whatever fails during the migration of the root layout, the
    database is not lost: if the bare file holds [n] before, or the bare
    file is absent and the canonical file holds [n], the same is true
    afterwards. *)
Theorem migrate_never_loses (w : World) (n : node) :
  stillThere n w -> stillThere n (snd (migrateLegacyFile w)).
Proof.
  revert w. change (steps (safeFor n) migrateLegacyFile).
  unfold migrateLegacyFile. cbn zeta. fold BARE CANONICAL.
  step_through;
    first [ apply moveOrCopyQuietly_safe
          | apply keeps_safeFor; apply sameFs_keeps, getInfoOrAbsent_sameFs
          | apply keeps_safeFor; apply migrateSidecar_keeps; pneq ].
Qed.

(** **** X3: the migration of the root layout touches no file when there
    is no bare file, whatever fails, or when the canonical file exists and
    its probe does not fail. *)
Theorem migrate_not_needed (w : World) :
  fs w !! BARE = None \/
  (fs w !! CANONICAL <> None /\ reliable (OInfo CANONICAL)) ->
  fs (snd (migrateLegacyFile w)) = fs w.
Proof.
  intros H. unfold migrateLegacyFile, ignoreErrors, bind. cbn zeta.
  fold BARE CANONICAL.
  destruct (getInfoOrAbsent_run BARE w) as (i1 & w1 & E1 & F1 & I1). rewrite E1.
  destruct (getInfoOrAbsent_run CANONICAL w1) as (i2 & w2 & E2 & F2 & I2). rewrite E2.
  assert (Hno : exists_ i1 && negb (exists_ i2) = false).
  { destruct H as [Hb | [Hc R]].
    - assert (exists_ i1 = false) as ->; [| reflexivity].
      revert E1. unfold getInfoOrAbsent, bind, ret. rewrite try_run.
      unfold getInfoAsync, io. destruct (fault _ _); cbn [fst snd].
      + now intros [= <- _].
      + rewrite Hb. now intros [= <- _].
    - rewrite (I2 R), F1. destruct (fs w !! CANONICAL) as [[|]|]; [| | congruence];
        cbn [infoOf exists_ negb]; apply andb_false_r. }
  rewrite Hno. cbn [snd ret]. congruence.
Qed.

(** *** The rest of [backupV2.ts] *)

(** **** X4: [ensureDir] never throws, and either leaves the file system as
    it was or adds a directory at a path that held nothing; so a node that
    is there is never replaced, whatever fails. *)
Theorem ensureDir_only_creates (uri : string) (w : World) :
  fst (ensureDir uri w) = Ok tt /\
  (fs (snd (ensureDir uri w)) = fs w \/
   (fs w !! uri = None /\ fs (snd (ensureDir uri w)) = <[uri := Dir]> (fs w))).
Proof.
  split; [reflexivity |].
  unfold ensureDir, ignoreErrors, bind, getInfoAsync, makeDirectoryAsync, io.
  destruct (fault (tick w) (OInfo uri)); cbn [snd fs log setFs]; [now left |].
  destruct (fs w !! uri) as [[c|]|] eqn:E; cbn [infoOf exists_ negb snd ret];
    [now left | now left |].
  destruct (fault _ _); cbn [snd fs log setFs]; [now left |].
  rewrite E. cbn [snd fs log setFs]. now right.
Qed.

(** **** X5: when nothing is at [uri] and neither the probe nor the
    creation fails, [ensureDir] leaves a directory there. *)
Theorem ensureDir_creates (uri : string) (w : World) :
  fs w !! uri = None ->
  fault (tick w) (OInfo uri) = false ->
  fault (S (tick w)) (OMkdir uri) = false ->
  fs (snd (ensureDir uri w)) !! uri = Some Dir.
Proof.
  intros E F1 F2.
  unfold ensureDir, ignoreErrors, bind, getInfoAsync, makeDirectoryAsync, io.
  rewrite F1. cbn [snd fs log setFs]. rewrite E.
  cbn [infoOf exists_ negb snd ret].
  replace (tick (log (EvIO (OInfo uri) true) (setFs (fs w) w))) with (S (tick w))
    by (unfold tick; cbn [trace log setFs]; rewrite length_app; cbn; lia).
  rewrite F2. cbn [fs log setFs]. rewrite E. cbn [snd fs log setFs].
  apply lookup_insert_eq.
Qed.

(** **** X6: [getLastBackupTimestamp] never throws and never changes a
    file; and when it reports a date, the metadata file is a regular file
    whose content decodes to that date. *)
Theorem getLastBackupTimestamp_sound (w : World) :
  exists r, fst (getLastBackupTimestamp w) = Ok r /\
    fs (snd (getLastBackupTimestamp w)) = fs w /\
    (forall d, r = Some d ->
       exists c, fs w !! META_FILE = Some (File c) /\ decodeMeta c = Ok (Some d)).
Proof.
  unfold getLastBackupTimestamp, bind. rewrite try_run.
  unfold getInfoAsync, readAsStringAsync, io.
  destruct (fault (tick w) (OInfo META_FILE)); cbn [fst snd fs log setFs ret].
  { exists None. repeat split. discriminate. }
  destruct (fs w !! META_FILE) as [[c|]|] eqn:E;
    cbn [infoOf exists_ negb fst snd ret fs log setFs].
  - destruct (fault _ _); cbn [fst snd fs log setFs ret].
    { exists None. repeat split. discriminate. }
    rewrite E. cbn [fst snd fs log setFs ret].
    destruct (decodeMeta c) as [r|e] eqn:D; cbn [fst snd throw ret fs log setFs].
    + exists r. split; [reflexivity |]. split; [reflexivity |].
      intros d ->. now exists c.
    + exists None. repeat split. discriminate.
  - destruct (fault _ _); cbn [fst snd fs log setFs ret];
      [| rewrite E; cbn [fst snd fs log setFs ret]];
      exists None; repeat split; discriminate.
  - exists None. repeat split. discriminate.
Qed.

(** **** X7: write, then read.  After [setLastBackupTimestamp d], when the
    metadata path is not a directory and no write, probe or read fails,
    [getLastBackupTimestamp] answers with the decoding of exactly the
    payload written for [d] (no date when the decoding throws). *)
Theorem meta_round_trip (d : JsDate) (w : World) :
  fs w !! META_FILE <> Some Dir ->
  onlyMovesFailFrom w ->
  fst (getLastBackupTimestamp (snd (setLastBackupTimestamp d w))) =
    Ok (match decodeMeta (list_byte_of_string (metaPayload d)) with
        | Ok r => r
        | Throw _ => None
        end).
Proof.
  intros Hd Hf. unfold setLastBackupTimestamp, ignoreErrors, writeAsStringAsync.
  unfold io at 1. rewrite (no_fault_now w _ Hf) by discriminate.
  set (payload := list_byte_of_string (metaPayload d)).
  set (w1 := snd _).
  assert (E1 : fs w1 !! META_FILE = Some (File payload)).
  { subst w1. destruct (fs w !! META_FILE) as [[c|]|]; [| congruence |];
      cbn [snd fs log setFs]; apply lookup_insert_eq. }
  assert (F1 : onlyMovesFailFrom w1).
  { subst w1. destruct (fs w !! META_FILE) as [[c|]|]; [| congruence |];
      cbn [snd]; now apply onlyMovesFailFrom_log. }
  clearbody w1.
  unfold getLastBackupTimestamp, bind. rewrite try_run.
  rewrite getInfoAsync_ok by (apply no_fault_now; [exact F1 | discriminate]).
  rewrite E1. cbn [infoOf exists_ negb].
  set (w2 := log _ w1).
  assert (F2 : onlyMovesFailFrom w2) by now apply onlyMovesFailFrom_log'.
  unfold readAsStringAsync, io. rewrite (no_fault_now w2 _ F2) by discriminate.
  cbn [fs log w2]. rewrite E1.
  destruct (decodeMeta payload); reflexivity.
Qed.

(** *** Restoring: what is touched, and what is there afterwards *)

Lemma canonicalOf_cases (D : string) :
  canonicalOf D = D \/ canonicalOf D = D +:+ ".db".
Proof. unfold canonicalOf. destruct (Js.endsWith D ".db"); auto. Qed.

(** The bare path is neither the temporary file nor a sidecar of the
    canonical path. *)
Lemma canonicalOf_apart (D suffix : string) :
  suffix <> EmptyString -> canonicalOf D +:+ suffix <> D.
Proof.
  intros Hs. destruct (canonicalOf_cases D) as [-> | ->].
  - now apply append_ne_self.
  - rewrite append_assoc. now apply append_ne_self.
Qed.

Lemma moveIntoPlace_keeps (tmp target p : string) :
  p <> tmp -> p <> target -> steps (keeps p) (moveIntoPlace tmp target).
Proof.
  intros H1 H2. unfold moveIntoPlace. step_through;
    first [ now apply moveAsync_keeps | now apply copyAsync_keeps
          | now apply deleteAsync_keeps ].
Qed.

Lemma removeStale_keeps (C D p : string) :
  p <> D -> p <> C +:+ "-wal" -> p <> C +:+ "-shm" ->
  steps (keeps p) (removeStale C D).
Proof.
  intros H1 H2 H3. unfold removeStale. step_through;
    now apply deleteAsync_keeps.
Qed.

(** **** X8: whatever fails, a restore from a local file touches nothing
    but the canonical file, the temporary file beside it, its WAL and SHM
    files and the bare file; every other path, the backups among them,
    keeps its node. *)
Theorem restore_local_frame (uri C D q : string) (w : World) :
  q <> C +:+ ".restore.tmp" -> q <> C -> q <> D ->
  q <> C +:+ "-wal" -> q <> C +:+ "-shm" ->
  fs (snd (restoreFromLocalFile uri C D w)) !! q = fs w !! q.
Proof.
  intros H1 H2 H3 H4 H5. revert w.
  change (steps (keeps q) (restoreFromLocalFile uri C D)).
  unfold restoreFromLocalFile. cbn zeta. step_through;
    first [ now apply copyAsync_keeps | now apply moveIntoPlace_keeps
          | now apply removeStale_keeps ].
Qed.

Lemma moveIntoPlace_fs (tmp target : string) (w : World) (n : node) :
  tmp <> target -> fs w !! tmp = Some n -> onlyMovesFailFrom w ->
  exists w', moveIntoPlace tmp target w = (Ok tt, w') /\
    fs w' = <[target := n]> (delete tmp (fs w)) /\ onlyMovesFailFrom w'.
Proof.
  intros Hne Hn Hf. unfold moveIntoPlace, bind. rewrite try_run.
  destruct (moveAsync_run tmp target w) as [E | (n' & Hn' & E)]; rewrite E;
    cbn [fst snd ret].
  - set (w1 := log (EvIO (OMove tmp target) false) w).
    assert (F1 : onlyMovesFailFrom w1) by now apply onlyMovesFailFrom_log'.
    rewrite (copyAsync_ok tmp target w1 n F1 Hn).
    set (w2 := log _ (setFs _ w1)).
    assert (F2 : onlyMovesFailFrom w2) by now apply onlyMovesFailFrom_log.
    rewrite (deleteAsync_ok tmp w2 F2).
    eexists. split; [reflexivity |]. split.
    + cbn [fs log setFs w2 w1]. now apply delete_insert_ne.
    + now apply onlyMovesFailFrom_log.
  - assert (n' = n) as -> by congruence.
    eexists. split; [reflexivity |]. split; [reflexivity |].
    now apply onlyMovesFailFrom_log.
Qed.

Lemma deleteQuietly_fs (uri : string) (w : World) :
  onlyMovesFailFrom w ->
  exists w', ignoreErrors (deleteAsync uri) w = (Ok tt, w') /\
    fs w' = delete uri (fs w) /\ onlyMovesFailFrom w'.
Proof.
  intros Hf. unfold ignoreErrors. rewrite (deleteAsync_ok uri w Hf). cbn [snd].
  eexists. split; [reflexivity |]. split; [reflexivity |].
  now apply onlyMovesFailFrom_log.
Qed.

Lemma removeStale_fs (C D : string) (w : World) :
  onlyMovesFailFrom w ->
  exists w', removeStale C D w = (Ok tt, w') /\
    fs w' = delete (C +:+ "-shm") (delete (C +:+ "-wal")
              (if String.eqb C D then fs w else delete D (fs w))) /\
    onlyMovesFailFrom w'.
Proof.
  intros Hf. unfold removeStale, bind.
  assert (First : exists w1,
    (if negb (String.eqb C D) then ignoreErrors (deleteAsync D) else ret tt) w
      = (Ok tt, w1) /\
    fs w1 = (if String.eqb C D then fs w else delete D (fs w)) /\
    onlyMovesFailFrom w1).
  { destruct (String.eqb C D); cbn [negb].
    - exists w. auto.
    - apply deleteQuietly_fs, Hf. }
  destruct First as (w1 & E1 & Fs1 & F1). rewrite E1.
  destruct (deleteQuietly_fs (C +:+ "-wal") w1 F1) as (w2 & E2 & Fs2 & F2).
  rewrite E2.
  destruct (deleteQuietly_fs (C +:+ "-shm") w2 F2) as (w3 & E3 & Fs3 & F3).
  rewrite E3. exists w3. split; [reflexivity |]. split; [| exact F3].
  now rewrite Fs3, Fs2, Fs1.
Qed.

(** What a restore from a local file leaves when nothing but a move
    fails. *)
Lemma restoreFromLocalFile_fs (uri D : string) (w : World) (n : node) :
  let C := canonicalOf D in
  fs w !! uri = Some n -> onlyMovesFailFrom w ->
  exists w', restoreFromLocalFile uri C D w = (Ok tt, w') /\
    fs w' !! C = Some n /\
    fs w' !! (C +:+ ".restore.tmp") = None /\
    fs w' !! (C +:+ "-wal") = None /\
    fs w' !! (C +:+ "-shm") = None /\
    (D <> C -> fs w' !! D = None).
Proof.
  intros C Hn Hf. set (temp := C +:+ ".restore.tmp").
  assert (Htemp : temp <> C) by now apply append_ne_self.
  assert (Hwal : C +:+ "-wal" <> C) by now apply append_ne_self.
  assert (Hshm : C +:+ "-shm" <> C) by now apply append_ne_self.
  assert (Htw : temp <> C +:+ "-wal")
    by (intros H; apply append_inv_head in H; discriminate).
  assert (Hts : temp <> C +:+ "-shm")
    by (intros H; apply append_inv_head in H; discriminate).
  assert (Hws : C +:+ "-wal" <> C +:+ "-shm")
    by (intros H; apply append_inv_head in H; discriminate).
  assert (HtD : temp <> D) by now apply canonicalOf_apart.
  assert (HwD : C +:+ "-wal" <> D) by now apply canonicalOf_apart.
  assert (HsD : C +:+ "-shm" <> D) by now apply canonicalOf_apart.
  unfold restoreFromLocalFile. fold C temp. unfold bind at 1.
  rewrite (copyAsync_ok uri temp w n Hf Hn).
  set (w1 := log _ (setFs _ w)).
  assert (F1 : onlyMovesFailFrom w1) by now apply onlyMovesFailFrom_log.
  destruct (moveIntoPlace_fs temp C w1 n Htemp) as (w2 & E2 & Fs2 & F2);
    [apply lookup_insert_eq | exact F1 |].
  unfold bind at 1. rewrite E2.
  destruct (removeStale_fs C D w2 F2) as (w3 & E3 & Fs3 & F3).
  exists w3. split; [exact E3 |].
  assert (K : forall q, q <> C +:+ "-wal" -> q <> C +:+ "-shm" -> q <> D ->
                fs w3 !! q = fs w2 !! q).
  { intros q Q1 Q2 Q3. rewrite Fs3.
    rewrite lookup_delete_ne by congruence.
    rewrite lookup_delete_ne by congruence.
    destruct (String.eqb C D); [reflexivity |].
    now rewrite lookup_delete_ne by congruence. }
  split; [| split; [| split; [| split]]].
  - destruct (String.eqb_spec C D) as [E | E].
    + rewrite Fs3. destruct (String.eqb_spec C D) as [_ | []]; [| exact E].
      rewrite lookup_delete_ne by congruence.
      rewrite lookup_delete_ne by congruence.
      rewrite Fs2. apply lookup_insert_eq.
    + rewrite K by congruence. rewrite Fs2. apply lookup_insert_eq.
  - rewrite K by congruence. rewrite Fs2.
    rewrite lookup_insert_ne by congruence. apply lookup_delete_eq.
  - rewrite Fs3. rewrite lookup_delete_ne by congruence. apply lookup_delete_eq.
  - rewrite Fs3. apply lookup_delete_eq.
  - intros HD. rewrite Fs3.
    rewrite lookup_delete_ne by congruence.
    rewrite lookup_delete_ne by congruence.
    destruct (String.eqb_spec C D) as [E | E]; [congruence |].
    apply lookup_delete_eq.
Qed.

(** **** X9: when the picked file is there and nothing but a move fails, a
    restore from a local file returns normally and leaves the canonical
    file holding the picked file's content, with no temporary file, no WAL
    and SHM file beside it and no bare file. *)
Theorem restore_local_completes (uri D : string) (w : World) (n : node) :
  fs w !! uri = Some n ->
  onlyMovesFailFrom w ->
  let C := canonicalOf D in
  let w' := snd (restoreFromLocalFile uri C D w) in
  fst (restoreFromLocalFile uri C D w) = Ok tt /\
  fs w' !! C = Some n /\
  fs w' !! (C +:+ ".restore.tmp") = None /\
  fs w' !! (C +:+ "-wal") = None /\
  fs w' !! (C +:+ "-shm") = None /\
  (D <> C -> fs w' !! D = None).
Proof.
  intros Hn Hf.
  destruct (restoreFromLocalFile_fs uri D w n Hn Hf) as (w' & E & H).
  cbn zeta. now rewrite E.
Qed.

(** **** X10: backup, then restore.  A restore from the artifact that
    [backupDatabase] returned, run in any later state in which the artifact
    is as it was written and nothing but a move fails, leaves the
    canonical file holding what the source of the backup held when the
    backup ended. *)
Theorem backup_then_restore (w0 w1 w2 : World) (dest D : string) :
  backupDatabase w0 = (Ok dest, w1) ->
  fs w2 !! dest = fs w1 !! dest ->
  onlyMovesFailFrom w2 ->
  exists (src : string) (n : node),
    fst (selectSource w0) = Ok src /\
    fs w1 !! src = Some n /\
    fst (restoreFromLocalFile dest (canonicalOf D) D w2) = Ok tt /\
    fs (snd (restoreFromLocalFile dest (canonicalOf D) D w2)) !! canonicalOf D = Some n.
Proof.
  intros Hb Hsame Hf.
  destruct (backupDatabase_frame _ _ _ Hb)
    as (src & wa & wb & Hs & _ & _ & _ & [n Hn] & Heq).
  exists src, n. rewrite Hs. split; [reflexivity |].
  split; [congruence |].
  assert (Hn2 : fs w2 !! dest = Some n) by congruence.
  destruct (restoreFromLocalFile_fs dest D w2 n Hn2 Hf) as (w' & E & HC & _).
  now rewrite E.
Qed.

Lemma cleanAfterDriveRestore_keeps (C D p : string) :
  p <> D -> p <> C +:+ "-wal" -> p <> C +:+ "-shm" ->
  p <> D +:+ "-wal" -> p <> D +:+ "-shm" ->
  steps (keeps p) (cleanAfterDriveRestore C D).
Proof.
  intros H1 H2 H3 H4 H5. unfold cleanAfterDriveRestore. step_through;
    first [ now apply deleteAsync_keeps
          | apply sameFs_keeps, readDirectoryAsync_sameFs
          | apply sameFs_keeps, getInfoAsync_sameFs ].
Qed.

(** **** X11: the cleaning after a restore from the cloud drive never
    throws and never touches the canonical file, whatever fails; and when
    no deletion fails it leaves no WAL or SHM file beside either name and
    no bare file. *)
Theorem drive_cleanup (D : string) (w : World) :
  let C := canonicalOf D in
  let w' := snd (cleanAfterDriveRestore C D w) in
  fst (cleanAfterDriveRestore C D w) = Ok tt /\
  fs w' !! C = fs w !! C /\
  ((forall n p, fault n (ODelete p) = false) ->
   fs w' !! (C +:+ "-wal") = None /\ fs w' !! (C +:+ "-shm") = None /\
   fs w' !! (D +:+ "-wal") = None /\ fs w' !! (D +:+ "-shm") = None /\
   (D <> C -> fs w' !! D = None)).
Proof.
  intros C w'. subst w'.
  assert (Hwal : C <> C +:+ "-wal") by (apply not_eq_sym; now apply append_ne_self).
  assert (Hshm : C <> C +:+ "-shm") by (apply not_eq_sym; now apply append_ne_self).
  assert (HwD : C <> D +:+ "-wal").
  { subst C. destruct (canonicalOf_cases D) as [-> | ->].
    - apply not_eq_sym. now apply append_ne_self.
    - intros H; apply append_inv_head in H; discriminate. }
  assert (HsD : C <> D +:+ "-shm").
  { subst C. destruct (canonicalOf_cases D) as [-> | ->].
    - apply not_eq_sym. now apply append_ne_self.
    - intros H; apply append_inv_head in H; discriminate. }
  unfold cleanAfterDriveRestore.
  set (first := if negb (String.eqb C D) then ignoreErrors (deleteAsync D) else ret tt).
  set (tail := ignoreErrors (readDirectoryAsync SQLITE_DIR);;;
               ignoreErrors (getInfoAsync C)).
  assert (Tail : forall x, tail x = (Ok tt, snd (tail x)) /\ fs (snd (tail x)) = fs x).
  { intros x. subst tail. unfold bind, ignoreErrors. cbn [snd]. split; [reflexivity |].
    rewrite (getInfoAsync_sameFs C). apply (readDirectoryAsync_sameFs SQLITE_DIR). }
  assert (First : forall x, first x = (Ok tt, snd (first x)) /\
            fs (snd (first x)) !! C = fs x !! C /\
            (fs (snd (first x)) = fs x \/
             fs (snd (first x)) = delete D (fs x)) /\
            ((forall n p, fault n (ODelete p) = false) -> D <> C ->
             fs (snd (first x)) = delete D (fs x))).
  { intros x. subst first. destruct (String.eqb_spec C D) as [E | E]; cbn [negb].
    - unfold ret. cbn [snd]. repeat split; auto. intros _ HD. congruence.
    - unfold ignoreErrors. cbn [snd]. split; [reflexivity |].
      destruct (deleteAsync_run D x) as [R | R]; rewrite R; cbn [snd fs log setFs].
      + split; [reflexivity |]. split; [now left |].
        intros Hr _. unfold deleteAsync, io in R. rewrite Hr in R. discriminate R.
      + split; [now rewrite lookup_delete_ne by congruence |]. split; [now right |].
        reflexivity. }
  assert (Del : forall u x, ignoreErrors (deleteAsync u) x =
                 (Ok tt, snd (ignoreErrors (deleteAsync u) x)) /\
            (forall p, p <> u ->
               fs (snd (ignoreErrors (deleteAsync u) x)) !! p = fs x !! p) /\
            (fs x !! u = None -> fs (snd (ignoreErrors (deleteAsync u) x)) !! u = None) /\
            ((forall n p, fault n (ODelete p) = false) ->
               fs (snd (ignoreErrors (deleteAsync u) x)) !! u = None)).
  { intros u x. unfold ignoreErrors. cbn [snd]. split; [reflexivity |].
    destruct (deleteAsync_run u x) as [R | R]; rewrite R; cbn [snd fs log setFs].
    - split; [reflexivity |]. split; [auto |].
      intros Hr. unfold deleteAsync, io in R. rewrite Hr in R. discriminate R.
    - split; [intros p Hp; now rewrite lookup_delete_ne by congruence |].
      split; intros; apply lookup_delete_eq. }
  unfold bind.
  destruct (First w) as (E0 & K0 & S0 & R0). rewrite E0.
  set (w0 := snd (first w)) in *.
  destruct (Del (C +:+ "-wal") w0) as (E1 & K1 & N1 & R1). rewrite E1.
  set (w1 := snd (ignoreErrors (deleteAsync (C +:+ "-wal")) w0)) in *.
  destruct (Del (C +:+ "-shm") w1) as (E2 & K2 & N2 & R2). rewrite E2.
  set (w2 := snd (ignoreErrors (deleteAsync (C +:+ "-shm")) w1)) in *.
  destruct (Del (D +:+ "-wal") w2) as (E3 & K3 & N3 & R3). rewrite E3.
  set (w3 := snd (ignoreErrors (deleteAsync (D +:+ "-wal")) w2)) in *.
  destruct (Del (D +:+ "-shm") w3) as (E4 & K4 & N4 & R4). rewrite E4.
  set (w4 := snd (ignoreErrors (deleteAsync (D +:+ "-shm")) w3)) in *.
  destruct (Tail w4) as (E5 & K5). rewrite E5. cbn [fst snd].
  split; [reflexivity |]. rewrite K5.
  split.
  { rewrite K4, K3, K2, K1 by assumption. exact K0. }
  intros Hr.
  assert (Gone : forall u x, fs x !! u = None ->
            forall v, fs (snd (ignoreErrors (deleteAsync v) x)) !! u = None).
  { intros u x Hu v. destruct (decide (u = v)) as [-> | Hne].
    - now apply (Del v x).
    - destruct (Del v x) as (_ & K & _). now rewrite K. }
  split; [| split; [| split; [| split]]].
  - subst w4 w3 w2. do 3 apply Gone. now apply R1.
  - subst w4 w3. do 2 apply Gone. now apply R2.
  - subst w4. apply Gone. now apply R3.
  - now apply R4.
  - intros HD. subst w4 w3 w2 w1. do 4 apply Gone.
    subst w0. rewrite (R0 Hr HD). apply lookup_delete_eq.
Qed.

(** *** What a snapshot calls, and when it succeeds *)

(** Close the leaves of [step_through] for [onlyAdds snapshotCall]. *)
Ltac snapshot_calls :=
  step_through;
  unfold getInfoAsync, copyAsync, moveAsync, deleteAsync, readDirectoryAsync,
    makeDirectoryAsync, readAsStringAsync, writeAsStringAsync;
  first [ apply io_onlyAdds | apply ext_onlyAdds ];
  intros ?; cbn [snapshotCall];
  first [ exact I | reflexivity | now left
        | right; eexists; reflexivity
        | right; eexists; apply append_assoc ].

Lemma copyToBackups_calls (p : string) :
  steps (onlyAdds snapshotCall) (copyToBackups p).
Proof. unfold copyToBackups. snapshot_calls. Qed.

Lemma afterCopy_calls (p s : string) :
  steps (onlyAdds snapshotCall)
    (ignoreErrors (copySidecars p (BACKUP_DIR +:+ s));;;
     ignoreErrors (getInfoAsync (BACKUP_DIR +:+ s));;; ret (BACKUP_DIR +:+ s)).
Proof. unfold copySidecars, getInfoOrAbsent. snapshot_calls. Qed.

Lemma writeSnapshot_calls (p : string) :
  steps (onlyAdds snapshotCall) (writeSnapshot p).
Proof.
  intros w. unfold writeSnapshot. unfold bind at 1.
  pose proof (copyToBackups_calls p w) as K.
  destruct (copyToBackups p w) as [[dest|e] w1] eqn:E; cbn [snd] in *; [| exact K].
  destruct (copyToBackups_spec _ _ _ _ E) as ([n ->] & _).
  etransitivity; [exact K |]. apply afterCopy_calls.
Qed.

Lemma chooseSource_calls : steps (onlyAdds snapshotCall) chooseSource.
Proof.
  unfold chooseSource, selectSource, resolveDatabasePath,
    DB_CANDIDATES, probeCandidates, preferCanonical, flushHandles,
    canonicalizeSource.
  generalize closeDatabaseHandlesForBackup. intros helper.
  snapshot_calls.
Qed.

(** **** X12: whatever fails, [backupDatabase] calls nothing but probes,
    listings, the creation of the backups directory, copies whose target
    is the [.db] sibling of their source or lies in the backups directory,
    and the helper that releases the handles: it never moves, deletes or
    writes a file, and calls no sink. *)
Theorem backupDatabase_only_copies (w : World) :
  exists evs, trace (snd (backupDatabase w)) = trace w ++ evs /\
    Forall snapshotCall evs.
Proof.
  revert w. change (steps (onlyAdds snapshotCall) backupDatabase).
  unfold backupDatabase. apply (steps_bind (onlyAdds snapshotCall)).
  - apply chooseSource_calls.
  - apply writeSnapshot_calls.
Qed.

Lemma selectSource_ok (w : World) (c : list Byte.byte) :
  fs w !! CANONICAL = Some (File c) -> onlyMovesFailFrom w ->
  exists w1, selectSource w = (Ok CANONICAL, w1) /\ fs w1 = fs w /\
    onlyMovesFailFrom w1.
Proof.
  intros Hc Hf. unfold selectSource, bind.
  assert (F0 : fault (tick w) (OInfo CANONICAL) = false)
    by (apply no_fault_now; [exact Hf | discriminate]).
  assert (R0 : isRegular (infoOf (fs w !! CANONICAL)) = true) by now rewrite Hc.
  rewrite (resolve_canonical w F0 R0).
  change (SQLITE_DIR +:+ "debitmanager.db") with CANONICAL.
  set (w0 := log _ w).
  assert (Fw0 : onlyMovesFailFrom w0) by now apply onlyMovesFailFrom_log'.
  unfold preferCanonical, bind. rewrite endsWith_CANONICAL, try_run.
  rewrite getInfoAsync_ok by (apply no_fault_now; [exact Fw0 | discriminate]).
  cbn [fst snd fs log w0]. rewrite R0.
  eexists. split; [reflexivity |]. split; [reflexivity |].
  now apply onlyMovesFailFrom_log'.
Qed.

Lemma flushHandles_run (w : World) :
  (forall h, closeDatabaseHandlesForBackup = Some h -> forall k m, snd (h k m) = m) ->
  exists b w1, flushHandles w = (Ok b, w1) /\ fs w1 = fs w /\ later w w1.
Proof.
  unfold flushHandles. generalize closeDatabaseHandlesForBackup.
  intros [h|] H.
  - unfold bind. rewrite try_run. unfold ext.
    specialize (H h eq_refl (tick w) (fs w)).
    destruct (h (tick w) (fs w)) as [[b|e] m']; cbn [fst snd] in *; subst m';
      eexists _, _; (split; [reflexivity |]); (split; [reflexivity |]);
      apply (later_log _ (setFs (fs w) w)).
  - exists false, w. repeat split. reflexivity.
Qed.

Lemma makeBackupDir_ok (w : World) :
  (forall c, fs w !! BACKUP_DIR <> Some (File c)) -> onlyMovesFailFrom w ->
  exists w1, makeDirectoryAsync BACKUP_DIR w = (Ok tt, w1) /\
    fs w1 !! BACKUP_DIR = Some Dir /\
    (forall q, q <> BACKUP_DIR -> fs w1 !! q = fs w !! q) /\
    onlyMovesFailFrom w1.
Proof.
  intros Hd Hf. unfold makeDirectoryAsync, io.
  rewrite (no_fault_now w _ Hf) by discriminate.
  destruct (fs w !! BACKUP_DIR) as [[c|]|] eqn:E; [now destruct (Hd c) | |];
    (eexists; split; [reflexivity |]); cbn [fs log setFs];
    (split; [| split; [| now apply onlyMovesFailFrom_log]]).
  - exact E.
  - auto.
  - apply lookup_insert_eq.
  - intros q Hq. now rewrite lookup_insert_ne by congruence.
Qed.

Lemma writeSnapshot_ok (p : string) (w : World) (n : node) :
  fs w !! p = Some n -> outsideBackups p ->
  (forall c, fs w !! BACKUP_DIR <> Some (File c)) -> onlyMovesFailFrom w ->
  exists dest w', writeSnapshot p w = (Ok dest, w') /\
    fs w' !! dest = Some n /\ fs w' !! p = Some n /\
    fs w' !! BACKUP_DIR = Some Dir.
Proof.
  intros Hn Hout Hd Hf.
  assert (HpB : p <> BACKUP_DIR)
    by (intros ->; apply (Hout EmptyString); now rewrite append_nil_r).
  destruct (makeBackupDir_ok w Hd Hf) as (w1 & E1 & D1 & K1 & F1).
  unfold writeSnapshot, copyToBackups. unfold bind at 1. unfold bind at 1.
  rewrite E1. unfold bind at 1. unfold timestamp at 1.
  set (dest := BACKUP_DIR +:+ "debitmanager-" +:+ localStamp (newDate (tick w1)) +:+ ".db").
  assert (Hpd : p <> dest) by apply Hout.
  assert (HdB : dest <> BACKUP_DIR) by now apply append_ne_self.
  unfold bind at 1. unfold ignoreErrors at 1.
  rewrite getInfoAsync_ok by (apply no_fault_now; [exact F1 | discriminate]).
  cbn [snd].
  set (w2 := log _ w1).
  assert (F2 : onlyMovesFailFrom w2) by now apply onlyMovesFailFrom_log'.
  assert (Hn2 : fs w2 !! p = Some n) by (cbn [fs log w2]; now rewrite K1).
  unfold bind at 1. rewrite (copyAsync_ok p dest w2 n F2 Hn2).
  set (w3 := log _ (setFs _ w2)).
  unfold bind at 1. unfold ret at 1.
  fold (writeSnapshot p).
  pose proof (afterCopy_keeps p dest) as K.
  assert (Sfx : forall s, s <> EmptyString -> forall q, (q = dest \/ q = p \/ q = BACKUP_DIR) ->
            q <> dest +:+ s).
  { intros s Hs q [-> | [-> | ->]].
    - apply not_eq_sym. now apply append_ne_self.
    - unfold dest. rewrite append_assoc. apply Hout.
    - unfold dest. rewrite append_assoc. apply not_eq_sym.
      apply append_ne_self. now destruct (localStamp _). }
  assert (Keep : forall q, (q = dest \/ q = p \/ q = BACKUP_DIR) ->
            fs (snd ((ignoreErrors (copySidecars p dest);;;
                      ignoreErrors (getInfoAsync dest);;; ret dest) w3)) !! q
            = fs w3 !! q).
  { intros q Hq. apply (K q); apply Sfx; (discriminate || exact Hq). }
  exists dest. eexists. split.
  { unfold bind, ignoreErrors, ret. reflexivity. }
  change (snd _) with
    (snd ((ignoreErrors (copySidecars p dest);;;
           ignoreErrors (getInfoAsync dest);;; ret dest) w3)) in Keep.
  split; [| split].
  - etransitivity; [apply (Keep dest); auto |]. apply lookup_insert_eq.
  - etransitivity; [apply (Keep p); auto |]. cbn [fs log setFs w3].
    now rewrite lookup_insert_ne by congruence.
  - etransitivity; [apply (Keep BACKUP_DIR); auto |]. cbn [fs log setFs w3 w2].
    now rewrite lookup_insert_ne by congruence.
Qed.

(** **** X13: with the canonical database file in place, the backups path
    not taken by a regular file, nothing but a move failing and a helper
    that leaves the files alone, [backupDatabase] returns an artifact that
    holds the content of the canonical file, which is still there. *)
Theorem backup_succeeds (w : World) (c : list Byte.byte) :
  fs w !! CANONICAL = Some (File c) ->
  (forall c', fs w !! BACKUP_DIR <> Some (File c')) ->
  onlyMovesFailFrom w ->
  (forall h, closeDatabaseHandlesForBackup = Some h -> forall k m, snd (h k m) = m) ->
  exists dest w',
    backupDatabase w = (Ok dest, w') /\
    fs w' !! dest = Some (File c) /\
    fs w' !! CANONICAL = Some (File c) /\
    fs w' !! BACKUP_DIR = Some Dir.
Proof.
  intros Hc Hd Hf Hh.
  destruct (selectSource_ok w c Hc Hf) as (w1 & E1 & Fs1 & F1).
  destruct (flushHandles_run w1 Hh) as (b & w2 & E2 & Fs2 & L2).
  assert (F2 : onlyMovesFailFrom w2) by (eapply onlyMovesFailFrom_later; eassumption).
  assert (E3 : canonicalizeSource CANONICAL w2 = (Ok CANONICAL, w2)).
  { unfold canonicalizeSource. now rewrite endsWith_CANONICAL. }
  destruct (writeSnapshot_ok CANONICAL w2 (File c)) as (dest & w' & E4 & H4);
    [congruence | apply sqlite_outsideBackups | intros c'; rewrite Fs2, Fs1; apply Hd
    | exact F2 |].
  exists dest, w'. split; [| exact H4].
  unfold backupDatabase, chooseSource, bind. now rewrite E1, E2, E3.
Qed.

(** *** [backupNow] *)

(** Close the leaves of [step_through] for [extends]. *)
Ltac growing :=
  step_through;
  unfold getInfoAsync, copyAsync, moveAsync, deleteAsync, readDirectoryAsync,
    makeDirectoryAsync, readAsStringAsync, writeAsStringAsync;
  first [ apply io_onlyAdds | apply ext_onlyAdds | apply emit_onlyAdds ];
  try intros ?; exact I.

Lemma onlyAdds_extends (w w' : World) :
  onlyAdds (fun _ => True) w w' -> exists evs, trace w' = trace w ++ evs.
Proof. intros (evs & H & _). eauto. Qed.

Lemma uploadBackupIfConfigured_extends (uri : string) :
  steps (onlyAdds (fun _ => True)) (uploadBackupIfConfigured uri).
Proof.
  unfold uploadBackupIfConfigured. generalize uploadUrl, authToken.
  intros url token. growing.
Qed.

Lemma shareBackup_extends (uri : string) :
  steps (onlyAdds (fun _ => True)) (shareBackup uri).
Proof. unfold shareBackup. growing. Qed.


(** *** The file name of an artifact *)

Lemma includesChar_app (c : ascii) (a b : string) :
  Js.includesChar c (a +:+ b) = Js.includesChar c a || Js.includesChar c b.
Proof.
  induction a as [|x a IH]; cbn [String.append Js.includesChar]; [reflexivity |].
  now rewrite IH, orb_assoc.
Qed.

Lemma string_of_uint_no_slash (u : Decimal.uint) :
  Js.includesChar "/" (NilEmpty.string_of_uint u) = false.
Proof. induction u; cbn [NilEmpty.string_of_uint Js.includesChar]; auto. Qed.

Lemma String_of_number_no_slash (n : Z) :
  Js.includesChar "/" (Js.String_of_number n) = false.
Proof.
  unfold Js.String_of_number, NilZero.string_of_int, NilZero.string_of_uint.
  destruct (Z.to_int n) as [u|u]; destruct u; cbn [Js.includesChar];
    auto using string_of_uint_no_slash;
    apply (string_of_uint_no_slash (_ u)).
Qed.

Lemma repeatChar_no_slash (k : nat) :
  Js.includesChar "/" (Js.repeatChar "0" k) = false.
Proof. induction k; cbn [Js.repeatChar Js.includesChar]; auto. Qed.

Lemma pad_no_slash (n : Z) : Js.includesChar "/" (pad n) = false.
Proof.
  unfold pad, Js.padStart.
  now rewrite includesChar_app, repeatChar_no_slash, String_of_number_no_slash.
Qed.

Lemma localStamp_no_slash (d : JsDate) : Js.includesChar "/" (localStamp d) = false.
Proof.
  unfold localStamp. cbn zeta.
  rewrite !includesChar_app, !pad_no_slash, String_of_number_no_slash.
  now destruct (0 <=? - getTimezoneOffset d).
Qed.

Lemma lastSegmentFrom_plain (acc b : string) :
  Js.includesChar "/" b = false -> Js.lastSegmentFrom acc b = acc +:+ b.
Proof.
  revert acc. induction b as [|c b IH]; intros acc H; cbn [Js.lastSegmentFrom].
  - now rewrite append_nil_r.
  - cbn [Js.includesChar] in H. apply orb_false_elim in H as [H1 H2].
    rewrite Ascii.eqb_sym, H1. rewrite IH by exact H2.
    now rewrite append_assoc.
Qed.

Lemma lastSegmentFrom_after (a acc b : string) :
  Js.includesChar "/" b = false ->
  Js.lastSegmentFrom acc (a +:+ String "/" b) = b.
Proof.
  intros H. revert acc. induction a as [|c a IH]; intros acc;
    cbn [String.append Js.lastSegmentFrom].
  - rewrite Ascii.eqb_refl. now rewrite lastSegmentFrom_plain.
  - destruct (Ascii.eqb c "/"); apply IH.
Qed.

(** **** X15: every artifact that [backupDatabase] returns is a file
    directly inside the backups directory, with a name that begins with
    [debitmanager-], ends in [.db] and holds no slash; the last segment of
    its URI is that name, so an upload to the cloud drive is named after
    the artifact and never by the fallback name. *)
Theorem artifact_name (w w' : World) (dest : string) :
  backupDatabase w = (Ok dest, w') ->
  exists name,
    dest = BACKUP_DIR +:+ name /\
    entryName name /\
    Js.startsWith name "debitmanager-" = true /\
    Js.endsWith name ".db" = true /\
    Js.lastSegment dest = name /\
    Js.truthy (Js.lastSegment dest) = true.
Proof.
  intros H. destruct (backupDatabase_name _ _ _ H) as [n ->].
  set (stamp := localStamp (newDate n)).
  set (name := "debitmanager-" +:+ stamp +:+ ".db").
  assert (Hs : Js.includesChar "/" name = false).
  { subst name. rewrite !includesChar_app. subst stamp.
    now rewrite localStamp_no_slash. }
  assert (Hl : Js.lastSegment (BACKUP_DIR +:+ name) = name).
  { unfold Js.lastSegment, BACKUP_DIR.
    replace ((DOC_DIR +:+ "backups/") +:+ name)
      with ((DOC_DIR +:+ "backups") +:+ String "/" name)
      by (rewrite !append_assoc; reflexivity).
    now apply lastSegmentFrom_after. }
  exists name. split; [reflexivity |]. split; [split; [reflexivity | exact Hs] |].
  split; [subst name; cbn; now destruct (stamp +:+ ".db") |]. split.
  - subst name.
    replace ("debitmanager-" +:+ stamp +:+ ".db")
      with (("debitmanager-" +:+ stamp) +:+ ".db") by now rewrite append_assoc.
    apply endsWith_app.
  - split; [exact Hl |]. now rewrite Hl.
Qed.

(** *** The list of local backups *)

Lemma probeEach_ok (names : list string) (w : World) :
  onlyMovesFailFrom w ->
  exists w', probeEach names w =
      (Ok (map (fun name => Ok (name, infoOf (fs w !! (BACKUP_DIR +:+ name)))) names), w') /\
    fs w' = fs w.
Proof.
  revert w. induction names as [|name rest IH]; intros w Hf; cbn [probeEach map].
  - exists w. split; reflexivity.
  - unfold bind at 1. rewrite try_run.
    rewrite getInfoAsync_ok by (apply no_fault_now; [exact Hf | discriminate]).
    cbn [fst snd].
    destruct (IH (log (EvIO (OInfo (BACKUP_DIR +:+ name)) true) w)) as (w' & E & Fs);
      [now apply onlyMovesFailFrom_log' |].
    unfold bind. rewrite E. exists w'. split; [reflexivity | exact Fs].
Qed.

Lemma promiseAll_ok {A} (l : list A) : promiseAll (map Ok l) = Ok l.
Proof. induction l as [|a l IH]; cbn [map promiseAll]; [reflexivity | now rewrite IH]. Qed.

Lemma loadLocalBackups_ok (w : World) :
  fs w !! BACKUP_DIR = Some Dir -> onlyMovesFailFrom w ->
  fst (loadLocalBackups w) =
    Ok (map (fun name => (name, infoOf (fs w !! (BACKUP_DIR +:+ name))))
            (listingOrder (children (fs w) BACKUP_DIR))).
Proof.
  intros Hd Hf. unfold loadLocalBackups. unfold bind at 1. rewrite try_run.
  unfold bind at 1.
  rewrite readDirectoryAsync_ok
    by first [exact Hd | apply no_fault_now; [exact Hf | discriminate]].
  unfold directoryListing. rewrite Hd.
  set (files := listingOrder _).
  destruct (probeEach_ok files (log (EvIO (OList BACKUP_DIR) true) w)) as (w' & E & _);
    [now apply onlyMovesFailFrom_log' |].
  unfold bind at 1. rewrite E. cbn [fs log].
  rewrite <- (map_map (fun name => (name, infoOf (fs w !! (BACKUP_DIR +:+ name)))) Ok).
  rewrite promiseAll_ok. reflexivity.
Qed.

Lemma copyToBackups_dir (p : string) (w w' : World) (dest : string) :
  copyToBackups p w = (Ok dest, w') -> fs w' !! BACKUP_DIR = Some Dir.
Proof.
  unfold copyToBackups. intros H.
  apply bind_Ok_inv in H as ([] & w1 & Hmk & H).
  apply bind_Ok_inv in H as (stamp & w2 & Hs & H).
  unfold timestamp in Hs. injection Hs as <- Hw. subst w2.
  apply bind_Ok_inv in H as ([] & w3 & Hi & H).
  apply bind_Ok_inv in H as ([] & w4 & Hc & H).
  unfold ret in H. injection H as Hd Hw. subst w' dest.
  assert (D1 : fs w1 !! BACKUP_DIR = Some Dir).
  { revert Hmk. unfold makeDirectoryAsync, io.
    destruct (fault _ _); [discriminate |].
    destruct (fs w !! BACKUP_DIR) as [[c|]|] eqn:E; intros [= <-]; cbn [fs log setFs].
    - exact E.
    - apply lookup_insert_eq. }
  assert (F3 : fs w3 = fs w1).
  { pose proof (getInfoAsync_sameFs p w1) as K. unfold ignoreErrors in Hi.
    injection Hi as <-. exact K. }
  pose proof (copyAsync_keeps p
    (BACKUP_DIR +:+ "debitmanager-" +:+ localStamp (newDate (tick w1)) +:+ ".db")
    BACKUP_DIR) as K.
  specialize (K ltac:(apply not_eq_sym; now apply append_ne_self) w3).
  rewrite Hc in K. unfold keeps in K. cbn [snd] in K. congruence.
Qed.

Lemma backupDatabase_dir (w w' : World) (dest : string) :
  backupDatabase w = (Ok dest, w') -> fs w' !! BACKUP_DIR = Some Dir.
Proof.
  intros H.
  apply backupDatabase_anatomy in H
    as (src & w1 & w2 & p' & w2' & w2'' & _ & _ & _ & Hcp & ->).
  pose proof (copyToBackups_dir _ _ _ _ Hcp) as D.
  destruct (copyToBackups_spec _ _ _ _ Hcp) as ([n Hn] & _).
  pose proof (afterCopy_keeps p' dest BACKUP_DIR) as K.
  rewrite <- D. apply K; subst dest; rewrite append_assoc;
    apply not_eq_sym; now apply append_ne_self.
Qed.

(** **** X16: a backup that has just been made is listed.  After
    [backupDatabase] has returned an artifact, if nothing but a move fails
    and the platform lists every entry of a directory, the list of local
    backups that the screen loads has an entry with the artifact's file
    name, reported as existing. *)
Theorem backup_is_listed (w w1 : World) (dest : string) :
  backupDatabase w = (Ok dest, w1) ->
  onlyMovesFailFrom w1 ->
  (forall l x, x ∈ l -> x ∈ listingOrder l) ->
  exists name info localFiles,
    dest = BACKUP_DIR +:+ name /\
    fst (loadLocalBackups w1) = Ok localFiles /\
    (name, info) ∈ localFiles /\
    exists_ info = true.
Proof.
  intros Hb Hf Hl.
  pose proof (backupDatabase_dir _ _ _ Hb) as Hd.
  destruct (backupDatabase_frame _ _ _ Hb) as (_ & _ & _ & _ & _ & _ & _ & Hsome & _).
  destruct (backupDatabase_name _ _ _ Hb) as [n Hn].
  set (name := "debitmanager-" +:+ localStamp (newDate n) +:+ ".db") in *.
  assert (He : entryName name).
  { split; [reflexivity |]. subst name.
    now rewrite !includesChar_app, localStamp_no_slash. }
  exists name, (infoOf (fs w1 !! dest)). eexists.
  split; [exact Hn |]. split; [apply (loadLocalBackups_ok w1 Hd Hf) |]. split.
  - rewrite Hn.
    apply (list_elem_of_fmap_2
             (fun name => (name, infoOf (fs w1 !! (BACKUP_DIR +:+ name))))).
    apply Hl. apply elem_of_children. split; [| exact He].
    now rewrite <- Hn.
  - destruct Hsome as [x ->]. now destruct x.
Qed.

(** *** When the restore handler resets [isRestoring] *)

(** Close the leaves of [step_through] for [onlyAdds silent]. *)
Ltac hush :=
  step_through;
  unfold getInfoAsync, copyAsync, moveAsync, deleteAsync, readDirectoryAsync,
    makeDirectoryAsync, readAsStringAsync, writeAsStringAsync;
  first [ apply io_onlyAdds | apply ext_onlyAdds | apply emit_onlyAdds ];
  try intros ?; exact I.

Lemma onlyAdds_weaken (P Q : event -> Prop) (w w' : World) :
  (forall e, P e -> Q e) -> onlyAdds P w w' -> onlyAdds Q w w'.
Proof.
  intros H (evs & E & F). exists evs. split; [exact E |].
  eapply Forall_impl; eassumption.
Qed.

Lemma snapshotCall_silent (e : event) : snapshotCall e -> silent e.
Proof. destruct e as [[] ?|[] ?| | |]; cbn; auto. Qed.

Lemma takePreRestoreSnapshot_silent : steps (onlyAdds silent) takePreRestoreSnapshot.
Proof.
  unfold takePreRestoreSnapshot. step_through.
  intros w. apply (onlyAdds_weaken snapshotCall); [apply snapshotCall_silent |].
  revert w. unfold backupDatabase. apply (steps_bind (onlyAdds snapshotCall)).
  - apply chooseSource_calls.
  - apply writeSnapshot_calls.
Qed.

Lemma releaseHandlesBeforeSnapshot_silent :
  steps (onlyAdds silent) releaseHandlesBeforeSnapshot.
Proof.
  unfold releaseHandlesBeforeSnapshot. generalize coreDbHelper. intros helper. hush.
Qed.

Lemma resolveDatabasePath_silent : steps (onlyAdds silent) resolveDatabasePath.
Proof. unfold resolveDatabasePath, DB_CANDIDATES, probeCandidates. hush. Qed.

Lemma moveIntoPlace_silent (tmp target : string) :
  steps (onlyAdds silent) (moveIntoPlace tmp target).
Proof. unfold moveIntoPlace. hush. Qed.

Lemma restoreBody_silent : steps (onlyAdds silent) restoreBody.
Proof.
  unfold restoreBody, closeScreenConnection.
  generalize db_execAsync, db_closeAsync. intros exec close.
  step_through;
    try apply resolveDatabasePath_silent;
    unfold cleanAfterDriveRestore, pickAndRestore, restoreFromLocalFile, removeStale;
    step_through; try apply moveIntoPlace_silent; hush.
Qed.

Lemma rollbackTarget_silent : steps (onlyAdds silent) rollbackTarget.
Proof.
  unfold rollbackTarget. step_through. apply resolveDatabasePath_silent.
Qed.

(** A silent step in front of a rollback's rest. *)
Lemma rollbackOutcome_bind {A} (m : M A) (k : A -> M unit) :
  steps (onlyAdds silent) m ->
  (forall a x, exists evs, trace (snd (k a x)) = trace x ++ evs /\
                           rollbackOutcome (fst (k a x)) evs) ->
  forall x, exists evs, trace (snd (bind m k x)) = trace x ++ evs /\
                        rollbackOutcome (fst (bind m k x)) evs.
Proof.
  intros Hm Hk x. unfold bind. destruct (Hm x) as (e1 & T1 & F1).
  destruct (m x) as [[a|e] x1]; cbn [fst snd] in *.
  - destruct (Hk a x1) as (e2 & T2 & O2). exists (e1 ++ e2). split.
    + now rewrite T2, T1, app_assoc.
    + destruct O2 as [(R & pre & -> & Fp) | (R & F2)].
      * left. split; [exact R |]. exists (e1 ++ pre).
        split; [now rewrite app_assoc | now apply Forall_app].
      * right. split; [exact R | now apply Forall_app].
  - exists e1. split; [exact T1 |]. right. split; [eauto | exact F1].
Qed.

Lemma rollbackFrom_outcome (snap : string) (x : World) :
  exists evs, trace (snd (rollbackFrom snap x)) = trace x ++ evs /\
              rollbackOutcome (fst (rollbackFrom snap x)) evs.
Proof.
  revert x. unfold rollbackFrom.
  apply rollbackOutcome_bind; [apply rollbackTarget_silent | intros target].
  apply rollbackOutcome_bind; [hush | intros _].
  apply rollbackOutcome_bind; [apply moveIntoPlace_silent | intros _].
  apply rollbackOutcome_bind; [hush | intros _].
  intros x. exists [EvAlert "Restore failed" (Text rolledBackMessage)].
  split; [reflexivity |]. left. split; [reflexivity |].
  exists []. split; [reflexivity | constructor].
Qed.

Lemma spinnerOutcome_after (pre evs : list event) :
  Forall silent pre -> spinnerOutcome evs -> spinnerOutcome (pre ++ evs).
Proof.
  intros Fp [F | [(p & -> & F) | (p & b & -> & F & Hb)]].
  - left. now apply Forall_app.
  - right. left. exists (pre ++ p). split; [now rewrite app_assoc | now apply Forall_app].
  - right. right. exists (pre ++ p), b.
    split; [now rewrite app_assoc |]. split; [now apply Forall_app | exact Hb].
Qed.

Lemma guarded_outcome (osnap : option string) (x : World) :
  exists evs, trace (snd (guarded osnap restoreBody x)) = trace x ++ evs /\
              spinnerOutcome evs.
Proof.
  unfold guarded, bind. rewrite try_run.
  destruct (restoreBody_silent x) as (e1 & T1 & F1).
  destruct (restoreBody x) as [[[]|e] x1]; cbn [fst snd ret] in *.
  { exists e1. split; [exact T1 | now left]. }
  unfold onRestoreFailure. destruct (truthyOpt osnap).
  - unfold bind. rewrite try_run.
    destruct (rollbackFrom_outcome (default EmptyString osnap) x1) as (e2 & T2 & O2).
    destruct (rollbackFrom (default EmptyString osnap) x1) as [r x2].
    cbn [fst snd] in *.
    destruct O2 as [(-> & pre & -> & Fp) | ([err ->] & F2)]; cbn [snd ret emit].
    + exists (e1 ++ pre ++ [EvAlert "Restore failed" (Text rolledBackMessage)]).
      split; [now rewrite T2, T1, <- !app_assoc |].
      apply spinnerOutcome_after; [exact F1 |].
      right. left. exists pre. auto.
    + exists (e1 ++ e2 ++ [EvAlert "Restore failed" (RollbackFailedWith err);
                           EvSetIsRestoring false]).
      split.
      { cbn [trace log]. rewrite T2, T1, <- !app_assoc. reflexivity. }
      apply spinnerOutcome_after; [exact F1 |].
      right. right. exists e2, (RollbackFailedWith err).
      split; [reflexivity |]. split; [exact F2 | discriminate].
  - unfold bind, emit. cbn [snd].
    exists (e1 ++ [EvAlert "Restore failed" (MessageOf e); EvSetIsRestoring false]).
    split.
    { cbn [trace log]. rewrite T1, <- !app_assoc. reflexivity. }
    apply spinnerOutcome_after; [exact F1 |].
    right. right. exists [], (MessageOf e).
    split; [reflexivity |]. split; [constructor | discriminate].
Qed.

(** **** X17: whatever happens, [handleRestoreBackup] first sets
    [isRestoring] and then shows at most one alert, as the last thing it
    does or the last but one; it resets [isRestoring] only after the report
    of a failure that was not rolled back, and then as its last step.  On
    every other path (a restore that returned, a picker that was cancelled,
    a rollback that was reported) [isRestoring] is left set. *)
Theorem restore_spinner (w : World) :
  exists evs,
    trace (snd (handleRestoreBackup w)) = trace w ++ EvSetIsRestoring true :: evs /\
    spinnerOutcome evs.
Proof.
  unfold handleRestoreBackup. unfold bind at 1. unfold emit at 1.
  set (w0 := log (EvSetIsRestoring true) w).
  assert (T0 : trace w0 = trace w ++ [EvSetIsRestoring true]) by reflexivity.
  unfold bind at 1. rewrite releaseHandlesBeforeSnapshot_run.
  destruct (releaseHandlesBeforeSnapshot_silent w0) as (e1 & T1 & F1).
  set (w1 := snd (releaseHandlesBeforeSnapshot w0)) in *.
  unfold bind at 1.
  destruct (takePreRestoreSnapshot_silent w1) as (e2 & T2 & F2).
  destruct (takePreRestoreSnapshot w1) as [[osnap|e] w2]; cbn [snd] in *.
  - destruct (guarded_outcome osnap w2) as (e3 & T3 & O3).
    exists (e1 ++ e2 ++ e3). split.
    + rewrite T3, T2, T1, T0, <- !app_assoc. reflexivity.
    + apply spinnerOutcome_after; [exact F1 |].
      apply spinnerOutcome_after; [exact F2 | exact O3].
  - exists (e1 ++ e2). split.
    + rewrite T2, T1, T0, <- !app_assoc. reflexivity.
    + left. now apply Forall_app.
Qed.

(** *** What the resolver and the list of local backups never do *)

(** **** X27: whatever fails, [resolveDatabasePath] changes no file and
    calls nothing but probes and the listing of the SQLite directory. *)
Theorem resolver_only_reads (w : World) :
  fs (snd (resolveDatabasePath w)) = fs w /\
  exists evs, trace (snd (resolveDatabasePath w)) = trace w ++ evs /\
    Forall resolverCall evs.
Proof.
  split; [apply resolveDatabasePath_sameFs |].
  revert w. change (steps (onlyAdds resolverCall) resolveDatabasePath).
  unfold resolveDatabasePath, DB_CANDIDATES, probeCandidates.
  step_through; unfold getInfoAsync, readDirectoryAsync; apply io_onlyAdds;
    intros ?; cbn; auto.
Qed.

Lemma probeEach_run (names : list string) (w : World) :
  exists rs w', probeEach names w = (Ok rs, w') /\ fs w' = fs w /\
    Forall2 (fun name r => r = Ok (probed (fs w) name) \/ exists e, r = Throw e) names rs.
Proof.
  revert w. induction names as [|name rest IH]; intros w; cbn [probeEach].
  - exists [], w. repeat split. constructor.
  - unfold bind at 1. rewrite try_run.
    pose proof (getInfoAsync_sameFs (BACKUP_DIR +:+ name) w) as K. unfold sameFs in K.
    assert (R : fst (getInfoAsync (BACKUP_DIR +:+ name) w) = Ok (snd (probed (fs w) name)) \/
                exists e, fst (getInfoAsync (BACKUP_DIR +:+ name) w) = Throw e).
    { unfold getInfoAsync, io. destruct (fault _ _); cbn [fst]; [right; eauto | now left]. }
    destruct (getInfoAsync (BACKUP_DIR +:+ name) w) as [r w1]. cbn [fst snd] in *.
    destruct (IH w1) as (rs & w' & E & Fs & F2).
    unfold bind. rewrite E. eexists _, w'. split; [reflexivity |].
    split; [congruence |]. constructor.
    + destruct R as [-> | [e ->]]; [now left | right; eauto].
    + rewrite K in F2. exact F2.
Qed.

Lemma promiseAll_inv (m : gmap string node) (names : list string)
    (rs : list (Res (string * FileInfo))) (l : list (string * FileInfo)) :
  Forall2 (fun name r => r = Ok (probed m name) \/ exists e, r = Throw e) names rs ->
  promiseAll rs = Ok l -> l = map (probed m) names.
Proof.
  intros F. revert l. induction F as [|name r names rs H F IH]; intros l; cbn [promiseAll map].
  - now intros [= <-].
  - destruct H as [-> | [e ->]]; [| discriminate].
    destruct (promiseAll rs) as [l'|e]; [| discriminate].
    intros [= <-]. now rewrite (IH l' eq_refl).
Qed.

Lemma loadLocalBackups_run (w : World) :
  exists localFiles w',
    loadLocalBackups w = (Ok localFiles, w') /\
    fs w' = fs w /\
    (localFiles = [] \/
     (fs w !! BACKUP_DIR = Some Dir /\
      localFiles = map (probed (fs w)) (listingOrder (children (fs w) BACKUP_DIR)))).
Proof.
  unfold loadLocalBackups.
  match goal with
  | |- context [try_ ?m] => set (body := m)
  end.
  assert (B : exists r w', body w = (r, w') /\ fs w' = fs w /\
            forall l, r = Ok l ->
              fs w !! BACKUP_DIR = Some Dir /\
              l = map (probed (fs w)) (listingOrder (children (fs w) BACKUP_DIR))).
  { subst body. unfold bind at 1.
    pose proof (readDirectoryAsync_sameFs BACKUP_DIR w) as K. unfold sameFs in K.
    assert (R : (fst (readDirectoryAsync BACKUP_DIR w) =
                   Ok (listingOrder (children (fs w) BACKUP_DIR)) /\
                 fs w !! BACKUP_DIR = Some Dir) \/
                exists e, fst (readDirectoryAsync BACKUP_DIR w) = Throw e).
    { unfold readDirectoryAsync, io. destruct (fault _ _); cbn [fst]; [right; eauto |].
      destruct (fs w !! BACKUP_DIR) as [[c|]|]; cbn [fst]; eauto. }
    destruct (readDirectoryAsync BACKUP_DIR w) as [r w1]. cbn [fst snd] in *.
    destruct R as [[-> Hd] | [e ->]].
    - destruct (probeEach_run (listingOrder (children (fs w) BACKUP_DIR)) w1)
        as (rs & w2 & E & Fs & F2).
      unfold bind. rewrite E. rewrite K in F2.
      destruct (promiseAll rs) as [l|e] eqn:P; unfold ret, throw;
        eexists _, w2; (split; [reflexivity |]); (split; [congruence |]).
      + intros l' [= <-]. split; [exact Hd |]. eapply promiseAll_inv; eassumption.
      + discriminate.
    - eexists _, w1. split; [reflexivity |]. split; [exact K | discriminate]. }
  destruct B as (r & w' & E & Fs & Hl).
  unfold bind. rewrite try_run, E. cbn [fst snd].
  destruct r as [l|e]; unfold ret.
  - exists l, w'. split; [reflexivity |]. split; [exact Fs |]. right. now apply Hl.
  - exists [], w'. split; [reflexivity |]. split; [exact Fs | now left].
Qed.

(** **** X28: the list of local backups is all or nothing.  Whatever
    fails, [loadBackups] gets a list, and changes no file for it; the list
    is either empty or has one entry for every name of the listing of the
    backups directory, in its order, with what the probe of that name
    gives: a single failing probe leaves the list empty. *)
Theorem local_backups_all_or_nothing (w : World) :
  exists localFiles,
    fst (loadLocalBackups w) = Ok localFiles /\
    fs (snd (loadLocalBackups w)) = fs w /\
    (localFiles = [] \/
     (fs w !! BACKUP_DIR = Some Dir /\
      localFiles = map (probed (fs w)) (listingOrder (children (fs w) BACKUP_DIR)))).
Proof.
  destruct (loadLocalBackups_run w) as (l & w' & E & H).
  exists l. now rewrite E.
Qed.

End Program.

(* ===================================================================== *)
(** ** Properties of the remount helper *)
(* ===================================================================== *)

Section RemountProperties.

Import NativeDb.

Context {UI : Type}.
Variable requireExpoSqlite : Res (option (string -> Res (option Handle))).

Lemma invocations_note (e : nevent) (st : State UI) :
  (if e is CallbackInvoked _ then false else true) = true ->
  invocations UI (note UI e st) = invocations UI st.
Proof.
  intros He. unfold invocations, note. cbn [history].
  rewrite List.filter_app, length_app. cbn [List.filter].
  destruct e; try discriminate; cbn [length]; lia.
Qed.

Lemma releaseCandidates_frame (openAsync : string -> Res (option Handle))
    (names : list string) (st : State UI) :
  let st' := releaseCandidates UI openAsync names st in
  providerRemountCallbackNative UI st' = providerRemountCallbackNative UI st /\
  lastNativeRefresh UI st' = lastNativeRefresh UI st /\
  ui UI st' = ui UI st /\
  invocations UI st' = invocations UI st.
Proof.
  revert st. induction names as [|name rest IH]; intros st; cbn [releaseCandidates].
  - auto.
  - destruct (openAsync name) as [[h|]|e].
    + destruct (IH (note UI (Opened name)
                      match closeAsync h with
                      | Some r => note UI (Closed name (if r is Ok _ then true else false))
                                    match execAsync h with
                                    | Some r0 => note UI (Checkpointed name (if r0 is Ok _ then true else false)) st
                                    | None => st
                                    end
                      | None => match execAsync h with
                                | Some r0 => note UI (Checkpointed name (if r0 is Ok _ then true else false)) st
                                | None => st
                                end
                      end)) as (H1 & H2 & H3 & H4).
      cbn zeta in *. rewrite H1, H2, H3, H4.
      destruct (closeAsync h), (execAsync h);
        rewrite ?invocations_note by reflexivity; auto.
    + apply IH.
    + destruct (IH (note UI (OpenFailed name) st)) as (H1 & H2 & H3 & H4).
      cbn zeta in *. rewrite H1, H2, H3, H4.
      rewrite invocations_note by reflexivity. auto.
Qed.

Lemma invoke_counts (cb : Callback UI) (st : State UI) :
  let st' := snd (invoke UI cb st) in
  providerRemountCallbackNative UI st' = providerRemountCallbackNative UI st /\
  lastNativeRefresh UI st' = lastNativeRefresh UI st /\
  invocations UI st' = S (invocations UI st).
Proof.
  unfold invoke. destruct (cb (ui UI st)) as [r u]. cbn.
  repeat split. unfold invocations. cbn [history].
  rewrite List.filter_app, length_app. cbn. lia.
Qed.

Lemma refresh_debounced (now : Z) (st : State UI) :
  now - lastNativeRefresh UI st < 1000 ->
  refreshSQLiteProvider UI requireExpoSqlite now st = (false, note UI Debounced st).
Proof.
  intros H. unfold refreshSQLiteProvider.
  destruct (Z.ltb_spec (now - lastNativeRefresh UI st) 1000); [reflexivity | lia].
Qed.

Lemma refresh_accepted (now : Z) (st : State UI) (cb : Callback UI) :
  providerRemountCallbackNative UI st = Some cb ->
  (forall u, fst (cb u) = Ok tt) ->
  1000 <= now - lastNativeRefresh UI st ->
  let st' := snd (refreshSQLiteProvider UI requireExpoSqlite now st) in
  providerRemountCallbackNative UI st' = Some cb /\
  lastNativeRefresh UI st' = now /\
  invocations UI st' = S (invocations UI st).
Proof.
  intros Hcb Hok Hw. unfold refreshSQLiteProvider.
  destruct (Z.ltb_spec (now - lastNativeRefresh UI st) 1000); [lia |].
  set (st0 := mkState UI (providerRemountCallbackNative UI st) now (ui UI st)
                      (history UI st)).
  assert (I0 : invocations UI st0 = invocations UI st) by reflexivity.
  unfold checkpointAndRemount.
  destruct requireExpoSqlite as [openAsync|e].
  - set (st1 := match openAsync with
                | Some f => releaseCandidates UI f ["debitmanager.db"; "debitmanager"] st0
                | None => st0
                end).
    assert (F : providerRemountCallbackNative UI st1 = Some cb /\
                lastNativeRefresh UI st1 = now /\
                invocations UI st1 = invocations UI st).
    { subst st1. destruct openAsync as [f|]; [| auto].
      destruct (releaseCandidates_frame f ["debitmanager.db"; "debitmanager"] st0)
        as (H1 & H2 & _ & H4).
      cbn zeta in *. rewrite H1, H2, H4. auto. }
    destruct F as (F1 & F2 & F3). rewrite F1.
    destruct (invoke_counts cb st1) as (H1 & H2 & H3). cbn zeta in *.
    assert (Hr : fst (invoke UI cb st1) = Ok tt).
    { unfold invoke. specialize (Hok (ui UI st1)).
      destruct (cb (ui UI st1)) as [r u]. exact Hok. }
    destruct (invoke UI cb st1) as [r s1] eqn:E. cbn [fst snd] in *. subst r.
    cbn [snd]. rewrite H1, H2, H3, F1, F2, F3. auto.
  - cbn [providerRemountCallbackNative st0]. rewrite Hcb.
    destruct (invoke_counts cb st0) as (H1 & H2 & H3). cbn zeta in *.
    cbn [snd]. rewrite H1, H2, H3. auto.
Qed.

Lemma refresh_accepted_effect (now : Z) (st : State UI) (cb : Callback UI) :
  providerRemountCallbackNative UI st = Some cb ->
  (forall u, fst (cb u) = Ok tt) ->
  1000 <= now - lastNativeRefresh UI st ->
  let r := refreshSQLiteProvider UI requireExpoSqlite now st in
  fst r = (if requireExpoSqlite is Ok _ then true else false) /\
  ui UI (snd r) = snd (cb (ui UI st)).
Proof.
  intros Hcb Hok Hw. cbn zeta. unfold refreshSQLiteProvider.
  destruct (Z.ltb_spec (now - lastNativeRefresh UI st) 1000); [lia |].
  set (st0 := mkState UI (providerRemountCallbackNative UI st) now (ui UI st)
                      (history UI st)).
  assert (Inv : forall s, ui UI s = ui UI st ->
            fst (invoke UI cb s) = Ok tt /\ ui UI (snd (invoke UI cb s)) = snd (cb (ui UI st))).
  { intros s Hs. unfold invoke. rewrite Hs. specialize (Hok (ui UI st)).
    destruct (cb (ui UI st)) as [r u]. cbn [fst snd ui] in *. auto. }
  unfold checkpointAndRemount.
  destruct requireExpoSqlite as [openAsync|e].
  - set (st1 := match openAsync with
                | Some f => releaseCandidates UI f ["debitmanager.db"; "debitmanager"] st0
                | None => st0
                end).
    assert (F : providerRemountCallbackNative UI st1 = Some cb /\ ui UI st1 = ui UI st).
    { subst st1. destruct openAsync as [f|]; [| auto].
      destruct (releaseCandidates_frame f ["debitmanager.db"; "debitmanager"] st0)
        as (H1 & _ & H3 & _).
      cbn zeta in *. rewrite H1, H3. auto. }
    destruct F as (F1 & F2). rewrite F1.
    destruct (Inv st1 F2) as [R U].
    destruct (invoke UI cb st1) as [r s1]. cbn [fst snd] in *. subst r.
    split; [reflexivity | exact U].
  - cbn [providerRemountCallbackNative st0]. rewrite Hcb. cbn [fst snd].
    split; [reflexivity |]. now apply Inv.
Qed.

(** **** C5: with a callback registered that returns normally, of two
    remount requests less than one second apart only the first runs the
    callback, on the state of the React side as it finds it, and the second
    is answered [false] and changes nothing there; a third request, at
    least one second after the accepted one, runs the callback again, on
    what the first left.  An accepted request is answered [true], unless
    [require('expo-sqlite')] threw. *)
Theorem debounce_coalesces (st : State UI) (cb : Callback UI) (t1 t2 t3 : Z) :
  providerRemountCallbackNative UI st = Some cb ->
  (forall u, fst (cb u) = Ok tt) ->
  1000 <= t1 - lastNativeRefresh UI st ->
  t2 - t1 < 1000 ->
  1000 <= t3 - t1 ->
  let first := refreshSQLiteProvider UI requireExpoSqlite t1 st in
  let second := refreshSQLiteProvider UI requireExpoSqlite t2 (snd first) in
  let third := refreshSQLiteProvider UI requireExpoSqlite t3 (snd second) in
  let accepted := if requireExpoSqlite is Ok _ then true else false in
  fst first = accepted /\
  invocations UI (snd first) = S (invocations UI st) /\
  ui UI (snd first) = snd (cb (ui UI st)) /\
  fst second = false /\
  invocations UI (snd second) = S (invocations UI st) /\
  ui UI (snd second) = ui UI (snd first) /\
  fst third = accepted /\
  invocations UI (snd third) = S (S (invocations UI st)) /\
  ui UI (snd third) = snd (cb (ui UI (snd first))).
Proof.
  intros Hcb Hok H1 H2 H3. cbn zeta.
  destruct (refresh_accepted t1 st cb Hcb Hok H1) as (A1 & A2 & A3).
  destruct (refresh_accepted_effect t1 st cb Hcb Hok H1) as (A4 & A5).
  set (s1 := snd (refreshSQLiteProvider UI requireExpoSqlite t1 st)) in *.
  rewrite (refresh_debounced t2 s1) by lia. cbn [fst snd].
  rewrite invocations_note by reflexivity.
  assert (B1 : providerRemountCallbackNative UI (note UI Debounced s1) = Some cb)
    by exact A1.
  assert (B2 : 1000 <= t3 - lastNativeRefresh UI (note UI Debounced s1)).
  { cbn [note lastNativeRefresh]. lia. }
  destruct (refresh_accepted t3 (note UI Debounced s1) cb B1 Hok B2) as (_ & _ & C3).
  destruct (refresh_accepted_effect t3 (note UI Debounced s1) cb B1 Hok B2) as (C4 & C5).
  rewrite invocations_note in C3 by reflexivity.
  rewrite C3, A3. cbn [note ui] in C5. auto 12.
Qed.

Lemma releaseCandidates_history (openAsync : string -> Res (option Handle))
    (names : list string) (st : State UI) :
  exists evs, history UI (releaseCandidates UI openAsync names st) = history UI st ++ evs.
Proof.
  revert st. induction names as [|name rest IH]; intros st; cbn [releaseCandidates].
  - exists []. now rewrite app_nil_r.
  - destruct (openAsync name) as [[h|]|e].
    + match goal with
      | |- context [releaseCandidates UI openAsync rest ?s] =>
          destruct (IH s) as [evs E]; rewrite E
      end.
      destruct (closeAsync h), (execAsync h); cbn [note history];
        rewrite <- ?app_assoc; eexists; reflexivity.
    + apply IH.
    + destruct (IH (note UI (OpenFailed name) st)) as [evs E]. rewrite E.
      cbn [note history]. rewrite <- app_assoc. eexists; reflexivity.
Qed.

(** **** X18: the loop that releases the handles goes through every
    candidate: for each name whose database opens, whatever happened with
    the names before it, the checkpoint and the close are both attempted
    when the handle has them (a failed checkpoint does not prevent the
    close) and the name is recorded as opened. *)
Theorem release_tries_every_candidate (openAsync : string -> Res (option Handle))
    (names : list string) (st : State UI) (name : string) (h : Handle) :
  name ∈ names ->
  openAsync name = Ok (Some h) ->
  let st' := releaseCandidates UI openAsync names st in
  Opened name ∈ history UI st' /\
  (forall r, execAsync h = Some r ->
     Checkpointed name (if r is Ok _ then true else false) ∈ history UI st') /\
  (forall r, closeAsync h = Some r ->
     Closed name (if r is Ok _ then true else false) ∈ history UI st').
Proof.
  intros Hin Hopen. cbn zeta. revert st.
  induction names as [|x rest IH]; intros st; [now apply elem_of_nil in Hin |].
  apply elem_of_cons in Hin as [<- | Hin].
  - cbn [releaseCandidates]. rewrite Hopen.
    match goal with
    | |- context [releaseCandidates UI openAsync rest ?s] =>
        destruct (releaseCandidates_history openAsync rest s) as [evs E]; rewrite E
    end.
    destruct (closeAsync h) as [rc|], (execAsync h) as [re|]; cbn [note history];
      (split; [| split]); try (intros r [= <-]); try discriminate;
      rewrite ?elem_of_app, ?list_elem_of_singleton; auto 10.
  - cbn [releaseCandidates].
    destruct (openAsync x) as [[hx|]|e]; apply (IH Hin).
Qed.

(** **** X19: a registered callback that throws is run twice by one
    accepted request: once in the [try] block and once more in the [catch]
    block; the request is answered [false]. *)
Theorem throwing_callback_runs_twice (st : State UI) (cb : Callback UI) (now : Z) :
  providerRemountCallbackNative UI st = Some cb ->
  (forall u, exists e, fst (cb u) = Throw e) ->
  (exists openAsync, requireExpoSqlite = Ok openAsync) ->
  1000 <= now - lastNativeRefresh UI st ->
  let r := refreshSQLiteProvider UI requireExpoSqlite now st in
  fst r = false /\
  invocations UI (snd r) = S (S (invocations UI st)) /\
  lastNativeRefresh UI (snd r) = now.
Proof.
  intros Hcb Hthrow [openAsync Hreq] Hw. cbn zeta. unfold refreshSQLiteProvider.
  destruct (Z.ltb_spec (now - lastNativeRefresh UI st) 1000); [lia |].
  set (st0 := mkState UI (providerRemountCallbackNative UI st) now (ui UI st)
                      (history UI st)).
  unfold checkpointAndRemount. rewrite Hreq.
  set (st1 := match openAsync with
              | Some f => releaseCandidates UI f ["debitmanager.db"; "debitmanager"] st0
              | None => st0
              end).
  assert (F : providerRemountCallbackNative UI st1 = Some cb /\
              lastNativeRefresh UI st1 = now /\
              invocations UI st1 = invocations UI st).
  { subst st1. destruct openAsync as [f|]; [| auto].
    destruct (releaseCandidates_frame f ["debitmanager.db"; "debitmanager"] st0)
      as (H1 & H2 & _ & H4).
    cbn zeta in *. rewrite H1, H2, H4. auto. }
  destruct F as (F1 & F2 & F3). rewrite F1.
  destruct (invoke_counts cb st1) as (H1 & H2 & H3). cbn zeta in *.
  assert (Hr : exists e, fst (invoke UI cb st1) = Throw e).
  { unfold invoke. destruct (Hthrow (ui UI st1)) as [e He].
    destruct (cb (ui UI st1)) as [r u]. eauto. }
  destruct Hr as [e Hr].
  destruct (invoke UI cb st1) as [r s1] eqn:E. cbn [fst snd] in *. subst r.
  rewrite H1, F1.
  destruct (invoke_counts cb s1) as (G1 & G2 & G3). cbn zeta in *.
  cbn [fst snd]. rewrite G2, G3, H2, H3, F2, F3. auto.
Qed.

(** **** X20: with no callback registered, an accepted request is answered
    [true] although nothing was asked to remount: the callback count and
    the React state are as before, and the last step recorded is the
    missing callback. *)
Theorem no_callback_answers_true (st : State UI) (now : Z) :
  providerRemountCallbackNative UI st = None ->
  (exists openAsync, requireExpoSqlite = Ok openAsync) ->
  1000 <= now - lastNativeRefresh UI st ->
  let r := refreshSQLiteProvider UI requireExpoSqlite now st in
  fst r = true /\
  invocations UI (snd r) = invocations UI st /\
  ui UI (snd r) = ui UI st /\
  last (history UI (snd r)) = Some NoCallback.
Proof.
  intros Hcb [openAsync Hreq] Hw. cbn zeta. unfold refreshSQLiteProvider.
  destruct (Z.ltb_spec (now - lastNativeRefresh UI st) 1000); [lia |].
  set (st0 := mkState UI (providerRemountCallbackNative UI st) now (ui UI st)
                      (history UI st)).
  unfold checkpointAndRemount. rewrite Hreq.
  set (st1 := match openAsync with
              | Some f => releaseCandidates UI f ["debitmanager.db"; "debitmanager"] st0
              | None => st0
              end).
  assert (F : providerRemountCallbackNative UI st1 = None /\
              ui UI st1 = ui UI st /\
              invocations UI st1 = invocations UI st).
  { subst st1. destruct openAsync as [f|]; [| auto].
    destruct (releaseCandidates_frame f ["debitmanager.db"; "debitmanager"] st0)
      as (H1 & _ & H3 & H4).
    cbn zeta in *. rewrite H1, H3, H4. auto. }
  destruct F as (F1 & F2 & F3). rewrite F1. cbn [fst snd].
  rewrite invocations_note by reflexivity.
  split; [reflexivity |]. split; [exact F3 |]. split; [exact F2 |].
  cbn [note history]. apply last_snoc.
Qed.

Lemma refreshAll_limited (nows : list Z) (st : State UI) (cb : Callback UI) :
  providerRemountCallbackNative UI st = Some cb ->
  (forall u, fst (cb u) = Ok tt) ->
  let st' := refreshAll UI requireExpoSqlite nows st in
  providerRemountCallbackNative UI st' = Some cb /\
  1000 * (Z.of_nat (invocations UI st') - Z.of_nat (invocations UI st))
    <= lastNativeRefresh UI st' - lastNativeRefresh UI st.
Proof.
  intros Hcb Hok. cbn zeta. revert st Hcb.
  induction nows as [|now rest IH]; intros st Hcb; cbn [refreshAll].
  - split; [exact Hcb | lia].
  - destruct (Z.ltb_spec (now - lastNativeRefresh UI st) 1000) as [Hd | Ha].
    + rewrite (refresh_debounced now st Hd). cbn [snd].
      destruct (IH (note UI Debounced st) Hcb) as [C I].
      rewrite invocations_note in I by reflexivity.
      split; [exact C | exact I].
    + destruct (refresh_accepted now st cb Hcb Hok Ha) as (A1 & A2 & A3).
      cbn zeta in *.
      destruct (IH _ A1) as [C I]. rewrite A2, A3 in I.
      split; [exact C | lia].
Qed.

(** **** X21: over any series of requests, with a registered callback that
    returns normally, every run of the callback costs a full second: a
    thousand times the number of runs is at most the advance of the time
    of the last accepted request. *)
Theorem refresh_rate_limited (nows : list Z) (st : State UI) (cb : Callback UI) :
  providerRemountCallbackNative UI st = Some cb ->
  (forall u, fst (cb u) = Ok tt) ->
  let st' := refreshAll UI requireExpoSqlite nows st in
  1000 * (Z.of_nat (invocations UI st') - Z.of_nat (invocations UI st))
    <= lastNativeRefresh UI st' - lastNativeRefresh UI st.
Proof. intros Hcb Hok. apply (refreshAll_limited nows st cb Hcb Hok). Qed.

(** **** X29: when [require('expo-sqlite')] throws, an accepted request
    still runs the registered callback, once, from the [catch] block, and
    is answered [false]. *)
Theorem require_failure_still_remounts (st : State UI) (cb : Callback UI) (now : Z)
    (e : exn) :
  requireExpoSqlite = Throw e ->
  providerRemountCallbackNative UI st = Some cb ->
  1000 <= now - lastNativeRefresh UI st ->
  let r := refreshSQLiteProvider UI requireExpoSqlite now st in
  fst r = false /\
  invocations UI (snd r) = S (invocations UI st) /\
  ui UI (snd r) = snd (cb (ui UI st)).
Proof.
  intros Hreq Hcb Hw. cbn zeta. unfold refreshSQLiteProvider.
  destruct (Z.ltb_spec (now - lastNativeRefresh UI st) 1000); [lia |].
  unfold checkpointAndRemount. rewrite Hreq.
  cbn [providerRemountCallbackNative]. rewrite Hcb. cbn [fst snd].
  split; [reflexivity |].
  match goal with
  | |- context [invoke UI cb ?s] =>
      destruct (invoke_counts cb s) as (_ & _ & H3); cbn zeta in H3; rewrite H3
  end.
  split; [reflexivity |].
  unfold invoke. cbn [ui]. now destruct (cb (ui UI st)).
Qed.

End RemountProperties.

(* ===================================================================== *)
(** ** Properties of the helpers of the backups screen *)
(* ===================================================================== *)

Section ScreenProperties.

Import Screen.

(** **** X22: what the relative time reads.  A time less than a minute
    back, or in the future, reads [just now]; otherwise the number shown is
    never zero and stays below the next unit: 1 to 59 minutes, 1 to 23
    hours (always in the plural), 1 to 29 days; from thirty days on the
    date itself is shown. *)
Theorem formatRelativeTime_units (now time : Z) (localeDate : string) :
  let seconds := (now - time) / 1000 in
  let shown := formatRelativeTime now time localeDate in
  (now - time < 60000 -> shown = "just now") /\
  (60 <= seconds < 3600 ->
     1 <= seconds / 60 <= 59 /\
     shown = Js.String_of_number (seconds / 60) +:+ " min ago") /\
  (3600 <= seconds < 86400 ->
     1 <= seconds / 3600 <= 23 /\
     shown = Js.String_of_number (seconds / 3600) +:+ " hours ago") /\
  (86400 <= seconds < 2592000 ->
     1 <= seconds / 86400 <= 29 /\
     shown = Js.String_of_number (seconds / 86400) +:+ " days ago") /\
  (2592000 <= seconds -> shown = localeDate).
Proof.
  cbn zeta. unfold formatRelativeTime.
  set (diffMs := now - time). set (seconds := diffMs / 1000).
  assert (Hs : diffMs < 60000 <-> seconds < 60).
  { subst seconds. split; intros H.
    - apply Z.div_lt_upper_bound; lia.
    - destruct (Z.lt_ge_cases diffMs 60000) as [|Hge]; [assumption |].
      assert (60 <= diffMs / 1000) by (apply Z.div_le_lower_bound; lia). lia. }
  assert (Hneg : diffMs < 0 -> seconds < 60).
  { intros H. apply Hs. lia. }
  split; [| split; [| split; [| split]]].
  - intros H. destruct (Z.ltb_spec diffMs 0); [reflexivity |].
    destruct (Z.ltb_spec seconds 60); [reflexivity |]. apply Hs in H. lia.
  - intros [H1 H2].
    destruct (Z.ltb_spec diffMs 0) as [Hn|_]; [apply Hneg in Hn; lia |].
    destruct (Z.ltb_spec seconds 60); [lia |].
    destruct (Z.ltb_spec seconds 3600); [| lia].
    split; [| reflexivity]. split.
    + apply Z.div_le_lower_bound; lia.
    + assert (seconds / 60 < 60) by (apply Z.div_lt_upper_bound; lia). lia.
  - intros [H1 H2].
    destruct (Z.ltb_spec diffMs 0) as [Hn|_]; [apply Hneg in Hn; lia |].
    destruct (Z.ltb_spec seconds 60); [lia |].
    destruct (Z.ltb_spec seconds 3600); [lia |].
    destruct (Z.ltb_spec seconds 86400); [| lia].
    split; [| reflexivity]. split.
    + apply Z.div_le_lower_bound; lia.
    + assert (seconds / 3600 < 24) by (apply Z.div_lt_upper_bound; lia). lia.
  - intros [H1 H2].
    destruct (Z.ltb_spec diffMs 0) as [Hn|_]; [apply Hneg in Hn; lia |].
    destruct (Z.ltb_spec seconds 60); [lia |].
    destruct (Z.ltb_spec seconds 3600); [lia |].
    destruct (Z.ltb_spec seconds 86400); [lia |].
    destruct (Z.ltb_spec seconds 2592000); [| lia].
    split; [| reflexivity]. split.
    + apply Z.div_le_lower_bound; lia.
    + assert (seconds / 86400 < 30) by (apply Z.div_lt_upper_bound; lia). lia.
  - intros H1.
    destruct (Z.ltb_spec diffMs 0) as [Hn|_]; [apply Hneg in Hn; lia |].
    destruct (Z.ltb_spec seconds 60); [lia |].
    destruct (Z.ltb_spec seconds 3600); [lia |].
    destruct (Z.ltb_spec seconds 86400); [lia |].
    destruct (Z.ltb_spec seconds 2592000); [lia | reflexivity].
Qed.

Lemma insertInto_perm {A} (compareFn : A -> A -> number) (a : A) (l : list A) :
  Permutation (insertInto compareFn a l) (a :: l).
Proof.
  induction l as [|b l IH]; cbn [insertInto]; [reflexivity |].
  destruct (PrimFloat.ltb _ _); [| reflexivity].
  rewrite IH. apply perm_swap.
Qed.

Lemma sort_perm {A} (compareFn : A -> A -> number) (l : list A) :
  Permutation (sort compareFn l) l.
Proof.
  induction l as [|a l IH]; cbn [sort foldr]; [reflexivity |].
  fold (sort compareFn l). rewrite insertInto_perm. now constructor.
Qed.

(** A list in which the comparator puts no entry after its successor is
    left as it is. *)
Lemma sort_in_order {A} (compareFn : A -> A -> number) (l : list A) :
  (forall i a b, l !! i = Some a -> l !! S i = Some b ->
     PrimFloat.ltb PrimFloat.zero (compareFn a b) = false) ->
  sort compareFn l = l.
Proof.
  induction l as [|a l IH]; intros H; cbn [sort foldr]; [reflexivity |].
  fold (sort compareFn l). rewrite IH.
  - destruct l as [|b l]; cbn [insertInto]; [reflexivity |].
    now rewrite (H 0%nat a b eq_refl eq_refl).
  - intros i x y Hx Hy. apply (H (S i) x y); assumption.
Qed.


End ScreenProperties.

(* ===================================================================== *)
(** ** Properties of the schema migration *)
(* ===================================================================== *)

Section SchemaProperties.

Import Schema.

Lemma execAsync_version (source : list statement) (db : Database) :
  Forall (fun s => forall v, s <> PragmaUserVersion v) source ->
  user_version (snd (execAsync source db)) = user_version db.
Proof.
  revert db. induction source as [|s rest IH]; intros db Hs; cbn [execAsync];
    [reflexivity |].
  inversion Hs as [|? ? H1 H2]; subst.
  destruct s; cbn [run];
    try (rewrite IH by exact H2; reflexivity).
  - destruct (hasTable _ _); [reflexivity |].
    destruct (hasIndex _ _); [reflexivity |]. now rewrite IH by exact H2.
  - destruct (negb _); [reflexivity |].
    destruct (hasTable _ _); [reflexivity |].
    destruct (hasIndex _ _); now rewrite IH by exact H2.
  - now destruct (H1 version).
Qed.

Lemma v1Schema_no_version : Forall (fun s => forall v, s <> PragmaUserVersion v) v1Schema.
Proof. unfold v1Schema. repeat constructor; discriminate. Qed.

Lemma v2Schema_no_version : Forall (fun s => forall v, s <> PragmaUserVersion v) v2Schema.
Proof. unfold v2Schema. repeat constructor; discriminate. Qed.

(** **** X24: the version is written last.  A migration that returns
    leaves the database at version 2 or above, and a second migration then
    does nothing; a migration that throws leaves the version it found,
    which was below 2. *)
Theorem migration_version_last (db : Database) :
  match migrateDbIfNeeded db with
  | (Ok _, db') =>
      2 <= user_version db' /\ migrateDbIfNeeded db' = (Ok tt, db')
  | (Throw _, db') =>
      user_version db' = user_version db /\ user_version db < 2
  end.
Proof.
  assert (Done : forall d, 2 <= user_version d -> migrateDbIfNeeded d = (Ok tt, d)).
  { intros d H. unfold migrateDbIfNeeded, getFirstAsync, DATABASE_VERSION.
    destruct (Z.leb_spec 2 (user_version d)); [reflexivity | lia]. }
  unfold migrateDbIfNeeded at 1. unfold getFirstAsync, DATABASE_VERSION.
  destruct (Z.leb_spec 2 (user_version db)) as [H | H]; [auto |].
  pose proof (execAsync_version v1Schema db v1Schema_no_version) as V1.
  destruct (Z.eqb_spec (user_version db) 0) as [H0 | H0].
  - destruct (execAsync v1Schema db) as [[[]|e] db1]; cbn [snd] in *; [| auto].
    pose proof (execAsync_version v2Schema db1 v2Schema_no_version) as V2.
    change (1 =? 1) with true. cbn iota.
    destruct (execAsync v2Schema db1) as [[[]|e] db2]; cbn [snd] in *.
    + cbn [execAsync run]. split; [cbn; lia | apply Done; cbn; lia].
    + split; [congruence | assumption].
  - pose proof (execAsync_version v2Schema db v2Schema_no_version) as V2.
    destruct (Z.eqb_spec (user_version db) 1) as [H1 | H1].
    + destruct (execAsync v2Schema db) as [[[]|e] db2]; cbn [snd] in *.
      * cbn [execAsync run]. split; [cbn; lia | apply Done; cbn; lia].
      * split; [congruence | assumption].
    + cbn [execAsync run]. split; [cbn; lia | apply Done; cbn; lia].
Qed.

Lemma existsb_snoc {A} (f : A -> bool) (l : list A) (x : A) :
  existsb f (l ++ [x]) = existsb f l || f x.
Proof. rewrite existsb_app. cbn [existsb]. now rewrite orb_false_r. Qed.

Lemma sameName_refl (a : string) : sameName a a = true.
Proof. unfold sameName. apply String.eqb_refl. Qed.

(** Run the next statement of a script, with the names that are known to
    be unused and the comparison of the names that are written out. *)
Ltac run_statement :=
  progress (
    cbn [execAsync run]; unfold hasTable, hasIndex;
    cbn [tables indexes user_version journal_mode_wal foreign_keys];
    rewrite ?existsb_app; cbn [existsb];
    repeat match goal with
           | H : existsb _ _ = false |- _ => rewrite H
           end;
    repeat match goal with
           | |- context [sameName ?a ?b] =>
               let v := eval vm_compute in (sameName a b) in
               change (sameName a b) with v
           end;
    cbn [orb negb andb]).

(** **** X25: on a database at version 0 in which no table and no index
    has the name of one of the three tables or of one of the two indexes,
    in any case of its letters, the migration returns and leaves version 2,
    the tables [debtors], [phone_numbers] and [transactions] after the
    tables that were there, both indexes, the WAL journal and the foreign
    keys switched on. *)
Theorem migration_of_fresh_database (db : Database) :
  user_version db = 0 ->
  unused "debtors" db -> unused "phone_numbers" db -> unused "transactions" db ->
  unused "idx_debtor_id" db -> unused "idx_transactions_debtor_id" db ->
  migrateDbIfNeeded db =
    (Ok tt,
     mkDatabase 2 (tables db ++ ["debtors"; "phone_numbers"; "transactions"])
       (indexes db ++ ["idx_debtor_id"; "idx_transactions_debtor_id"]) true true).
Proof.
  intros Hv [T1 J1] [T2 J2] [T3 J3] [T4 J4] [T5 J5].
  unfold hasTable, hasIndex in *.
  unfold migrateDbIfNeeded, getFirstAsync, DATABASE_VERSION. rewrite Hv.
  change (2 <=? 0) with false. change (0 =? 0) with true. cbn iota.
  unfold v1Schema, v2Schema.
  repeat (run_statement; try (change (1 =? 1) with true; cbn iota)).
  now rewrite <- !app_assoc.
Qed.

(** **** X26: a migration that was cut short cannot be completed.  On a
    database still at version 0 in which the table [debtors] exists (as
    after the first script has run and the version has not been written),
    every migration throws at [CREATE TABLE debtors] and leaves version,
    tables and indexes as they are. *)
Theorem interrupted_migration_is_stuck (db : Database) :
  user_version db = 0 ->
  "debtors" ∈ tables db ->
  exists db',
    migrateDbIfNeeded db = (Throw (JsError "table debtors already exists"), db') /\
    user_version db' = 0 /\ tables db' = tables db /\ indexes db' = indexes db.
Proof.
  intros Hv Ht.
  assert (Hd : existsb (sameName "debtors") (tables db) = true).
  { apply existsb_exists. exists "debtors".
    split; [now apply list_elem_of_In | apply sameName_refl]. }
  unfold migrateDbIfNeeded, getFirstAsync, DATABASE_VERSION. rewrite Hv.
  change (2 <=? 0) with false. change (0 =? 0) with true. cbn iota.
  unfold v1Schema. cbn [execAsync run]. unfold hasTable.
  cbn [tables indexes user_version journal_mode_wal foreign_keys].
  rewrite Hd.
  eexists. split; [reflexivity |]. cbn. auto.
Qed.

End SchemaProperties.

(* ===================================================================== *)
(** ** The properties at work on the small device *)
(* ===================================================================== *)

Section Examples.

Import Demo.

Lemma resolve_prefers_canonical_witness :
  resolveDatabasePath doc never asListed bothFiles =
    (Ok canonical, log (EvIO (OInfo canonical) true) bothFiles).
Proof.
  apply (resolve_prefers_canonical doc never asListed bothFiles live stale);
    reflexivity.
Defined.

Lemma backup_preserves_source_witness :
  exists w3 : World,
    backupDatabase doc never asListed clock None onlyCanonical =
      (Ok "file:///data/backups/debitmanager-2024-03-02T14-05-09+0530.db", w3) /\
    fs w3 !! canonical = Some (File live) /\
    fs w3 !! "file:///data/backups/debitmanager-2024-03-02T14-05-09+0530.db" = Some (File live).
Proof.
  exists (snd (backupDatabase doc never asListed clock None onlyCanonical)).
  assert (H : backupDatabase doc never asListed clock None onlyCanonical =
      (Ok "file:///data/backups/debitmanager-2024-03-02T14-05-09+0530.db",
       snd (backupDatabase doc never asListed clock None onlyCanonical)))
    by (vm_compute; reflexivity).
  split; [exact H |].
  destruct (backup_preserves_source _ _ _ _ _ _ _ _ H) as (src & w1 & w2 & Hs & _ & Hw & K & _ & E).
  vm_compute in Hs. injection Hs as Hsrc Hw1. subst src w1.
  rewrite E, K, Hw. split; vm_compute; reflexivity.
Defined.

Lemma timestamp_format_witness :
  wallClock (clock 0) /\
  localStamp (clock 0) = "2024-03-02T14-05-09+0530" /\
  matchesPattern stampPattern (localStamp (clock 0)) = true.
Proof.
  assert (H : wallClock (clock 0)) by (unfold wallClock, clock; cbn; lia).
  split; [exact H |].
  destruct (timestamp_format doc never asListed clock None (clock 0) H) as (E & Hm & _).
  split; [rewrite E; reflexivity | exact Hm].
Defined.

Lemma debounce_coalesces_witness :
  let first := NativeDb.refreshSQLiteProvider nat (Ok None) 1700000000000 started in
  let second := NativeDb.refreshSQLiteProvider nat (Ok None) 1700000000400 (snd first) in
  let third := NativeDb.refreshSQLiteProvider nat (Ok None) 1700000001500 (snd second) in
  fst first = true /\
  NativeDb.ui nat (snd first) = 1%nat /\
  fst second = false /\
  NativeDb.invocations nat (snd second) = 1%nat /\
  NativeDb.ui nat (snd second) = 1%nat /\
  fst third = true /\
  NativeDb.invocations nat (snd third) = 2%nat /\
  NativeDb.ui nat (snd third) = 2%nat.
Proof.
  destruct (debounce_coalesces (Ok None) started NativeDb.layoutCallback
              1700000000000 1700000000400 1700000001500)
    as (H1 & _ & H3 & H4 & H5 & H6 & H7 & H8 & H9);
    [reflexivity | intros u; reflexivity | vm_compute; discriminate
    | reflexivity | vm_compute; discriminate |].
  cbn zeta in *.
  split; [exact H1 |]. split; [exact H3 |]. split; [exact H4 |].
  split; [exact H5 |]. split; [rewrite H6; exact H3 |]. split; [exact H7 |].
  split; [exact H8 |]. rewrite H9, H3. reflexivity.
Defined.

(** A callback that bumps the key and then throws is run twice by the
    first of two requests less than one second apart: the key has gone up
    by two, not by one, when the second request has been answered [false]. *)
Lemma debounce_exactly_one_counterexample :
  let first := NativeDb.refreshSQLiteProvider nat (Ok None) 1700000000000
                 startedBumping in
  let second := NativeDb.refreshSQLiteProvider nat (Ok None) 1700000000400 (snd first) in
  NativeDb.ui nat startedBumping = 0%nat /\
  fst second = false /\
  NativeDb.ui nat (snd second) = 2%nat /\
  NativeDb.invocations nat (snd second) = 2%nat /\
  NativeDb.invocations nat (snd second) <> 1%nat.
Proof.
  cbn zeta. repeat split; vm_compute; first [reflexivity | discriminate].
Qed.

Lemma resolve_not_found_iff_witness :
  fst (resolveDatabasePath doc never asListed emptyDir) = Throw NotFound /\
  fst (resolveDatabasePath doc never asListed oddName) =
    Ok "file:///data/SQLite/debitmanager.sqlite".
Proof.
  split.
  - apply (resolve_not_found_iff doc never asListed emptyDir);
      try (intros n; reflexivity).
    split; [split; reflexivity | vm_compute; constructor].
  - apply (proj2 (resolve_not_found_iff doc never asListed oddName
                    (fun _ => eq_refl) (fun _ => eq_refl) (fun _ => eq_refl))
             "debitmanager.sqlite" live);
      try reflexivity.
    + split; reflexivity.
    + split; reflexivity.
    + intros other H _. vm_compute in H.
      apply list_elem_of_singleton in H. exact H.
Defined.

Lemma resolve_fallback_ignores_kind_witness :
  exists w : World,
    fs w !! canonical = Some Dir /\
    fst (resolveDatabasePath doc never asListed w) = Ok canonical.
Proof.
  destruct (resolve_fallback_ignores_kind doc never asListed
              (fun _ => eq_refl) (fun _ => eq_refl) (fun _ => eq_refl)
              (fun l => reflexivity l))
    as (_ & _ & w & H1 & _ & H3).
  exists w. split; [exact H1 | exact H3].
Defined.

Lemma sidecars_best_effort_witness :
  exists w4 : World,
    backupDatabase doc shmCopyFails asListed clock None withSidecars = (Ok artifact, w4) /\
    fs w4 !! (artifact +:+ "-wal") = Some (File stale) /\
    EvIO (OCopy "file:///data/SQLite/debitmanager.db-shm" (artifact +:+ "-shm")) false
      ∈ trace w4.
Proof.
  set (w2 := snd (chooseSource doc shmCopyFails asListed None withSidecars)).
  set (w3 := snd (copyToBackups doc shmCopyFails clock canonical w2)).
  destruct (sidecars_best_effort doc shmCopyFails asListed clock None
              withSidecars w2 w3 canonical artifact)
    as (w4 & E & Hside); [vm_compute; reflexivity | vm_compute; reflexivity |].
  exists w4. split; [exact E |]. split.
  - apply (Hside "-wal" (File stale));
      [now left | vm_compute; reflexivity | intros n; reflexivity | intros n; reflexivity].
  - vm_compute in E. injection E as <-. vm_compute.
    repeat first [apply list_elem_of_here | apply list_elem_of_further].
Defined.


(** **** C9: the legacy layout.  With the bare [debitmanager] and its
    [debitmanager-wal] on disk, no [debitmanager.db] and no failing call,
    the resolver answers the bare file and [backupDatabase] returns the
    artifact with the content of the bare file, but no [-wal] file is next
    to the artifact although one is next to the source: by then the code
    has gone on from the bare file to its fresh [.db] copy and probes
    [debitmanager.db-wal].  When the copy to [debitmanager.db] fails, the
    same code does copy the WAL next to the artifact. *)
Theorem sidecar_missed_on_legacy_layout :
  fs onlyBare !! (bare +:+ "-wal") = Some (File stale) /\
  fst (resolveDatabasePath doc never asListed onlyBare) = Ok bare /\
  (exists w4 : World,
     backupDatabase doc never asListed clock None onlyBare = (Ok artifact, w4) /\
     fs w4 !! artifact = Some (File live) /\
     fs w4 !! (artifact +:+ "-wal") = None) /\
  (exists w4 : World,
     backupDatabase doc siblingCopyFails asListed clock None onlyBare = (Ok artifact, w4) /\
     fs w4 !! artifact = Some (File live) /\
     fs w4 !! (artifact +:+ "-wal") = Some (File stale)).
Proof.
  split; [vm_compute; reflexivity |]. split; [vm_compute; reflexivity |]. split.
  - exists (snd (backupDatabase doc never asListed clock None onlyBare)).
    change (let x := backupDatabase doc never asListed clock None onlyBare in
            x = (Ok artifact, snd x) /\
            fs (snd x) !! artifact = Some (File live) /\
            fs (snd x) !! (artifact +:+ "-wal") = None).
    vm_compute. repeat split.
  - exists (snd (backupDatabase doc siblingCopyFails asListed clock None onlyBare)).
    change (let x := backupDatabase doc siblingCopyFails asListed clock None onlyBare in
            x = (Ok artifact, snd x) /\
            fs (snd x) !! artifact = Some (File live) /\
            fs (snd x) !! (artifact +:+ "-wal") = Some (File stale)).
    vm_compute. repeat split.
Qed.



Lemma migrate_moves_legacy_witness :
  fs (snd (migrateLegacyFile doc movesFail onlyBare)) !! canonical = Some (File live) /\
  fs (snd (migrateLegacyFile doc movesFail onlyBare)) !! bare = None.
Proof.
  destruct (migrate_moves_legacy doc movesFail onlyBare (File live)) as (H1 & H2 & _).
  - vm_compute; reflexivity.
  - vm_compute; reflexivity.
  - intros k op _ Hf. destruct op; try discriminate Hf. eauto.
  - split; [exact H1 | exact H2].
Defined.

Lemma migrate_never_loses_witness :
  stillThere doc (File live) (snd (migrateLegacyFile doc movesFail onlyBare)).
Proof.
  apply (migrate_never_loses doc movesFail onlyBare (File live)).
  left. vm_compute; reflexivity.
Defined.

Lemma migrate_not_needed_witness :
  fs (snd (migrateLegacyFile doc never bothFiles)) = fs bothFiles.
Proof.
  apply (migrate_not_needed doc never bothFiles).
  right. split; [vm_compute; discriminate | intros n; reflexivity].
Defined.

Lemma ensureDir_creates_witness :
  fs (snd (ensureDir never "file:///data/backups/" emptyDir)) !! "file:///data/backups/"
    = Some Dir.
Proof.
  apply (ensureDir_creates never "file:///data/backups/" emptyDir);
    vm_compute; reflexivity.
Defined.

Lemma meta_round_trip_witness :
  fst (getLastBackupTimestamp doc never decode
         (snd (setLastBackupTimestamp doc never (clock 0) emptyDir)))
    = Ok (Some (clock 0)).
Proof.
  rewrite (meta_round_trip doc never decode (clock 0) emptyDir).
  - vm_compute; reflexivity.
  - vm_compute; discriminate.
  - intros k op _ Hf. discriminate Hf.
Defined.

Lemma restore_local_frame_witness :
  fs (snd (restoreFromLocalFile movesFail pickedUri canonical bare withPicked))
    !! "file:///data/SQLite/" = Some Dir.
Proof.
  rewrite (restore_local_frame movesFail pickedUri canonical bare
             "file:///data/SQLite/" withPicked);
    [vm_compute; reflexivity | | | | |];
    intros H; vm_compute in H; discriminate H.
Defined.

Lemma restore_local_completes_witness :
  fs (snd (restoreFromLocalFile movesFail pickedUri canonical bare withPicked))
    !! canonical = Some (File inbound) /\
  fs (snd (restoreFromLocalFile movesFail pickedUri canonical bare withPicked))
    !! bare = None.
Proof.
  destruct (restore_local_completes movesFail pickedUri bare withPicked (File inbound))
    as (_ & H1 & _ & _ & _ & H5).
  - vm_compute; reflexivity.
  - intros k op _ Hf. destruct op; try discriminate Hf. eauto.
  - cbn zeta in H1, H5. change (canonicalOf bare) with canonical in H1, H5.
    split; [exact H1 |]. apply H5. intros H; vm_compute in H; discriminate H.
Defined.

Lemma backup_then_restore_witness :
  let w1 := snd (backupDatabase doc never asListed clock None onlyCanonical) in
  fs (snd (restoreFromLocalFile never artifact canonical canonical w1)) !! canonical
    = Some (File live).
Proof.
  intros w1.
  assert (H : backupDatabase doc never asListed clock None onlyCanonical = (Ok artifact, w1))
    by (vm_compute; reflexivity).
  destruct (backup_then_restore doc never asListed clock None onlyCanonical w1 w1
              artifact canonical H eq_refl)
    as (src & n & Hs & Hn & _ & Hr).
  - intros k op _ Hf. discriminate Hf.
  - vm_compute in Hs. injection Hs as <-.
    vm_compute in Hn. injection Hn as <-.
    change (canonicalOf canonical) with canonical in Hr.
    exact Hr.
Defined.

Lemma backup_succeeds_witness :
  exists w' : World,
    backupDatabase doc never asListed clock None onlyCanonical = (Ok artifact, w') /\
    fs w' !! artifact = Some (File live).
Proof.
  destruct (backup_succeeds doc never asListed clock None onlyCanonical live)
    as (dest & w' & E & Hd & _).
  - vm_compute; reflexivity.
  - intros c'. vm_compute. discriminate.
  - intros k op _ Hf. discriminate Hf.
  - intros h Hh. discriminate Hh.
  - assert (dest = artifact) as ->.
    { assert (H : fst (backupDatabase doc never asListed clock None onlyCanonical)
                  = Ok artifact) by (vm_compute; reflexivity).
      rewrite E in H. now injection H. }
    exists w'. split; [exact E | exact Hd].
Defined.

Lemma artifact_name_witness :
  exists name : string,
    artifact = BACKUP_DIR doc +:+ name /\ Js.lastSegment artifact = name.
Proof.
  assert (H : backupDatabase doc never asListed clock None onlyCanonical =
              (Ok artifact, snd (backupDatabase doc never asListed clock None onlyCanonical)))
    by (vm_compute; reflexivity).
  destruct (artifact_name doc never asListed clock None onlyCanonical _ artifact H)
    as (name & Hd & _ & _ & _ & Hl & _).
  exists name. split; [exact Hd | exact Hl].
Defined.

Lemma backup_is_listed_witness :
  let w1 := snd (backupDatabase doc never asListed clock None onlyCanonical) in
  exists (name : string) (info : FileInfo) (localFiles : list (string * FileInfo)),
    artifact = BACKUP_DIR doc +:+ name /\
    fst (loadLocalBackups doc never asListed w1) = Ok localFiles /\
    (name, info) ∈ localFiles /\ exists_ info = true.
Proof.
  intros w1.
  assert (H : backupDatabase doc never asListed clock None onlyCanonical = (Ok artifact, w1))
    by (vm_compute; reflexivity).
  apply (backup_is_listed doc never asListed clock None onlyCanonical w1 artifact H).
  - intros k op _ Hf. discriminate Hf.
  - intros l x Hx. exact Hx.
Defined.

Lemma release_tries_every_candidate_witness :
  let st' := NativeDb.releaseCandidates nat openBare ["debitmanager.db"; "debitmanager"]
               started in
  NativeDb.Opened "debitmanager" ∈ NativeDb.history nat st' /\
  NativeDb.Checkpointed "debitmanager" false ∈ NativeDb.history nat st' /\
  NativeDb.Closed "debitmanager" true ∈ NativeDb.history nat st'.
Proof.
  destruct (release_tries_every_candidate openBare ["debitmanager.db"; "debitmanager"]
              started "debitmanager"
              (NativeDb.mkHandle (Some (Throw (JsError "database is locked")))
                 (Some (Ok tt))))
    as (H1 & H2 & H3).
  - apply list_elem_of_further, list_elem_of_here.
  - reflexivity.
  - cbn zeta in *. split; [exact H1 |]. split.
    + apply (H2 (Throw (JsError "database is locked")) eq_refl).
    + apply (H3 (Ok tt) eq_refl).
Defined.

Lemma throwing_callback_runs_twice_witness :
  let r := NativeDb.refreshSQLiteProvider nat (Ok None) 1700000000000 startedThrowing in
  fst r = false /\ NativeDb.invocations nat (snd r) = 2%nat.
Proof.
  destruct (throwing_callback_runs_twice (Ok None) startedThrowing throwingCallback
              1700000000000)
    as (H1 & H2 & _).
  - reflexivity.
  - intros u. eexists. reflexivity.
  - eexists. reflexivity.
  - vm_compute; discriminate.
  - cbn zeta in *. split; [exact H1 | exact H2].
Defined.

Lemma no_callback_answers_true_witness :
  fst (NativeDb.refreshSQLiteProvider nat (Ok None) 1700000000000
         (NativeDb.initialState nat 0%nat)) = true.
Proof.
  destruct (no_callback_answers_true (Ok None) (NativeDb.initialState nat 0%nat)
              1700000000000)
    as (H1 & _).
  - reflexivity.
  - eexists. reflexivity.
  - vm_compute; discriminate.
  - exact H1.
Defined.

Lemma refresh_rate_limited_witness :
  let st' := NativeDb.refreshAll nat (Ok None)
               [1700000000000; 1700000000400; 1700000001500] started in
  1000 * (Z.of_nat (NativeDb.invocations nat st') -
          Z.of_nat (NativeDb.invocations nat started))
    <= NativeDb.lastNativeRefresh nat st' - NativeDb.lastNativeRefresh nat started.
Proof.
  apply (refresh_rate_limited (Ok None) [1700000000000; 1700000000400; 1700000001500]
           started NativeDb.layoutCallback).
  - reflexivity.
  - intros u. reflexivity.
Defined.

Lemma migration_of_fresh_database_witness :
  Schema.migrateDbIfNeeded fresh =
    (Ok tt,
     Schema.mkDatabase 2 ["debtors"; "phone_numbers"; "transactions"]
       ["idx_debtor_id"; "idx_transactions_debtor_id"] true true).
Proof.
  apply (migration_of_fresh_database fresh);
    first [reflexivity | split; reflexivity].
Defined.

Lemma interrupted_migration_is_stuck_witness :
  exists db' : Schema.Database,
    Schema.migrateDbIfNeeded halfway =
      (Throw (JsError "table debtors already exists"), db') /\
    Schema.user_version db' = 0.
Proof.
  destruct (interrupted_migration_is_stuck halfway) as (db' & E & Hv & _).
  - reflexivity.
  - vm_compute. apply list_elem_of_here.
  - exists db'. split; [exact E | exact Hv].
Defined.


Lemma require_failure_still_remounts_witness :
  let r := NativeDb.refreshSQLiteProvider nat (Throw (JsError "Cannot find module"))
             1700000000000 started in
  fst r = false /\ NativeDb.invocations nat (snd r) = 1%nat /\ NativeDb.ui nat (snd r) = 1%nat.
Proof.
  destruct (require_failure_still_remounts (Throw (JsError "Cannot find module")) started
              NativeDb.layoutCallback 1700000000000 (JsError "Cannot find module"))
    as (H1 & H2 & H3).
  - reflexivity.
  - reflexivity.
  - vm_compute; discriminate.
  - cbn zeta in *. split; [exact H1 |]. split; [exact H2 | exact H3].
Defined.

End Examples.
